(** * BinLogParser: the binary flight-log parser of APM Planner

    A shallow embedding of [src/ui/LogParser/BinLogParser.cpp] and the
    properties of its framing, descriptor registry, field decoder and
    timestamp handling.

    Conventions of the embedding
    - [QByteArray] is [list byte]; [QString] is [string]; [QStringList] is
      [list string]; [QMap<quint8, typeDescriptor>] is [gmap Z typeDescriptor].
    - C++ integers are [Z].  [quint8] values come from [u8] and lie in
      0..255; the 64-bit timestamp is kept in range by [toULongLong]; an
      [int] is kept in range by [to_int]; [m_MessageCounter] and
      [m_timeErrorCount], whose types BinLogParser.h declares, are not
      wrapped.
    - A byte of a name, a format or a label is taken as the character with
      that code.
    - The parser object is the record [BinLogParser]; every member function
      is a function on that record.  A read outside a container, which Qt
      leaves undefined, is [None]. *)

From Stdlib Require Import ZArith List String Ascii Lia.
From Stdlib Require Import Init.Byte Strings.Byte.
From stdpp Require Import base option list gmap strings.

Local Open Scope Z_scope.

(** ** Bytes and strings *)

Definition u8 (b : byte) : Z := Z.of_N (Byte.to_N b).

(** [QByteArray::at]: defined only inside the array. *)
Definition at_ (block : list byte) (pos : Z) : option byte :=
  if decide (0 <= pos) then block !! Z.to_nat pos else None.

(** [QByteArray::mid(pos, len)] for [0 <= pos]: the bytes that exist in the
    window, and all the bytes from [pos] on when [len] is negative. *)
Definition mid (block : list byte) (pos len : Z) : list byte :=
  if decide (len < 0) then drop (Z.to_nat pos) block
  else take (Z.to_nat len) (drop (Z.to_nat pos) block).

(** [QByteArray::remove(0, len)]: nothing happens when [len <= 0]. *)
Definition remove0 (block : list byte) (len : Z) : list byte :=
  drop (Z.to_nat len) block.

Definition size (block : list byte) : Z := Z.of_nat (length block).

(** Conversion of a [QByteArray] to a [QString] stops at the first NUL byte. *)
Fixpoint untilNul (bs : list byte) : list byte :=
  match bs with
  | [] => []
  | b :: rest => if Byte.eqb b x00 then [] else b :: untilNul rest
  end.

Definition toQString (bs : list byte) : string :=
  string_of_list_byte (untilNul bs).

(** [QString::split(",")] with the default behaviour, which keeps empty
    parts. *)
Fixpoint split_aux (cur : string) (s : string) : list string :=
  match s with
  | EmptyString => [cur]
  | String c rest =>
      if Ascii.eqb c ","%char then cur :: split_aux EmptyString rest
      else split_aux (cur +:+ String c EmptyString) rest
  end.

Definition split (s : string) : list string := split_aux EmptyString s.

(** [QStringList::indexOf]: the first position, or -1. *)
Fixpoint indexOf (l : list string) (x : string) : Z :=
  match l with
  | [] => -1
  | y :: rest =>
      if decide (y = x) then 0
      else let r := indexOf rest x in if decide (r = -1) then -1 else r + 1
  end.

Definition contains (l : list string) (x : string) : bool :=
  bool_decide (x ∈ l).

Definition qsize (s : string) : Z := Z.of_nat (String.length s).
Definition lsize {A} (l : list A) : Z := Z.of_nat (length l).

(** ** The type [int]

    A value brought into the range of a 32-bit [int], as [static_cast<int>]
    does with a wider integer and as the increment of an [int] does on the
    two's complement machines. *)

Definition INT_MAX : Z := 2 ^ 31 - 1.
Definition INT_MIN : Z := - 2 ^ 31.

Definition to_int (z : Z) : Z := (z + 2 ^ 31) mod 2 ^ 32 - 2 ^ 31.

Arguments to_int : simpl never.

(** [++] on an [int]. *)
Definition int_incr (n : Z) : Z := to_int (n + 1).

(** ** Wire constants

    Modelled from the spec: the constants that BinLogParser.h declares (the
    header is not part of the sources at hand).  The spec gives the start
    bytes 0xA3 0x95, the FMT message type 0x80, a 3 byte header and the FMT
    body sizes 4, 16 and 64.  [s_MinHeaderSize] and [s_STRTMessageType] stay
    parameters of the parser below. *)

Definition s_StartByte1 : Z := 163.
Definition s_StartByte2 : Z := 149.
Definition s_FMTMessageType : Z := 128.
Definition s_HeaderOffset : Z := 3.
Definition s_FMTNameSize : Z := 4.
Definition s_FMTFormatSize : Z := 16.
Definition s_FMTLabelsSize : Z := 64.

(** ** Timestamp conventions and type descriptors *)

Record timeStampType := {
  ts_name : string;
  ts_divisor : Z
}.

(** Modelled from the spec: [timeStampType::valid] and the default
    constructor are declared in BinLogParser.h.  The active timestamp is
    "optional, set once"; the unset value has the empty name. *)
Definition ts_default : timeStampType := {| ts_name := ""; ts_divisor := 0 |}.
Definition ts_valid (t : timeStampType) : bool :=
  negb (bool_decide (ts_name t = ""%string)).

Record typeDescriptor := {
  m_ID : Z;
  m_length : Z;
  m_name : string;
  m_format : string;
  m_labels : list string;
  m_hasTimeStamp : bool;
  m_timeStampIndex : Z
}.

(** The constructor [typeDescriptor::typeDescriptor()]. *)
Definition newDescriptor : typeDescriptor :=
  {| m_ID := 255; m_length := 0; m_name := ""; m_format := ""; m_labels := [];
     m_hasTimeStamp := false; m_timeStampIndex := 0 |}.

Definition finalize (timeStamp : timeStampType) (d : typeDescriptor) : typeDescriptor :=
  let tempIndex := indexOf (m_labels d) (ts_name timeStamp) in
  if decide (tempIndex <> -1)
  then {| m_ID := m_ID d; m_length := m_length d; m_name := m_name d;
          m_format := m_format d; m_labels := m_labels d;
          m_hasTimeStamp := true; m_timeStampIndex := tempIndex |}
  else d.

Definition addTimeStampField (timeStamp : timeStampType) (d : typeDescriptor) : typeDescriptor :=
  {| m_ID := m_ID d;
     m_length := m_length d + 8;
     m_name := m_name d;
     m_format := String "Q"%char (m_format d);
     m_labels := ts_name timeStamp :: m_labels d;
     m_hasTimeStamp := true;
     m_timeStampIndex := 0 |}.

Fixpoint replaceFirst (l : list string) (oldName newName : string) : list string :=
  match l with
  | [] => []
  | y :: rest =>
      if decide (y = oldName) then newName :: rest
      else y :: replaceFirst rest oldName newName
  end.

Definition replaceLabelName (oldName newName : string) (d : typeDescriptor) : typeDescriptor :=
  {| m_ID := m_ID d; m_length := m_length d; m_name := m_name d;
     m_format := m_format d;
     m_labels := replaceFirst (m_labels d) oldName newName;
     m_hasTimeStamp := m_hasTimeStamp d; m_timeStampIndex := m_timeStampIndex d |}.

Definition getLabelAtIndex (d : typeDescriptor) (index : nat) : string :=
  match m_labels d !! index with
  | Some l => l
  | None => "NoLabel"
  end.

Definition hasNoTimestamp (d : typeDescriptor) : bool := negb (m_hasTimeStamp d).

Section Descriptor.

(** The numeric id of the STRT message is declared in BinLogParser.h. *)
Variable s_STRTMessageType : Z.

Definition isValid (d : typeDescriptor) : bool :=
  if decide (m_ID d = s_FMTMessageType) then
    negb (bool_decide (m_ID d = 255)) && bool_decide (m_length d > 0)
    && bool_decide (qsize (m_name d) > 0)
    && bool_decide (qsize (m_format d) > 0) && bool_decide (lsize (m_labels d) > 0)
  else if decide (m_ID d = s_STRTMessageType) then
    negb (bool_decide (m_ID d = 255)) && bool_decide (m_length d > 0)
    && bool_decide (qsize (m_name d) > 0)
    && bool_decide (qsize (m_format d) = lsize (m_labels d))
  else
    negb (bool_decide (m_ID d = 255)) && bool_decide (m_length d > 0)
    && bool_decide (qsize (m_name d) > 0)
    && bool_decide (qsize (m_format d) > 0)
    && bool_decide (qsize (m_format d) = lsize (m_labels d)).

End Descriptor.

(** ** Decoded values

    A [QVariant] as the field decoder builds it.  A [float] is kept as its
    IEEE 754 single-precision bit pattern, and a scaled field as the pair of
    the raw integer and the constant it is divided by. *)

Inductive QVariant :=
| VInt (v : Z)
| VUInt (v : Z)
| VFloat (bits : Z)
| VScaled (raw divisor : Z)
| VString (s : string).

Abbreviation NameValuePair := (string * QVariant)%type.

(** [val != val] holds exactly for the NaN patterns: all exponent bits set
    and a mantissa that is not zero. *)
Definition isNaN (bits : Z) : bool :=
  bool_decide (Z.land (Z.shiftr bits 23) 255 = 255)
  && negb (bool_decide (Z.land bits 8388607 = 0)).

(** [QVariant == "literal"] for a literal that is not the text of a number,
    as are all literals of [detectMavType]: a numeric variant converts the
    literal to its own type, which fails, and the comparison is false. *)
Definition variantEqText (v : QVariant) (text : string) : bool :=
  match v with
  | VString s => bool_decide (s = text)
  | _ => false
  end.

(** ** Status, sink and callback

    Modelled from the spec: [AP2DataPlotStatus], [AP2DataPlot2DModel] and
    [IParserCallback] are classes of the repository outside the sources at
    hand.  The Status accumulates the valid rows, the incidents by kind, the
    non-message bytes and the vehicle kind; the sink registers types and
    appends rows; the callback receives progress and errors. *)

Inductive MAV_TYPE :=
| MAV_TYPE_GENERIC | MAV_TYPE_QUADROTOR | MAV_TYPE_FIXED_WING | MAV_TYPE_GROUND_ROVER.

#[global] Instance MAV_TYPE_eq_dec : EqDecision MAV_TYPE.
Proof. solve_decision. Defined.

Inductive Message :=
| MsgNoValues
| MsgNoDescriptor (messageType : Z)
| MsgCorruptElement (name : string)
| MsgUnknownDataType (typeCode : ascii) (name : string)
| MsgDoubledEntry (name : string)
| MsgCorruptOrMissing (name : string) (id : Z)
| MsgTimeNotIncreasing (lastTime newTime : Z).

Inductive Incident :=
| CorruptData (index : Z) (msg : Message)
| CorruptFMT (index : Z) (msg : Message)
| CorruptTime (index : Z) (msg : Message).

Record AP2DataPlotStatus := {
  validData : Z;
  incidents : list Incident;
  statusNoMessageBytes : Z;
  statusMavType : MAV_TYPE
}.

Definition emptyStatus : AP2DataPlotStatus :=
  {| validData := 0; incidents := []; statusNoMessageBytes := 0;
     statusMavType := MAV_TYPE_GENERIC |}.

Definition record_incident (i : Incident) (s : AP2DataPlotStatus) : AP2DataPlotStatus :=
  {| validData := validData s; incidents := incidents s ++ [i];
     statusNoMessageBytes := statusNoMessageBytes s; statusMavType := statusMavType s |}.

Definition validDataRead (s : AP2DataPlotStatus) : AP2DataPlotStatus :=
  {| validData := validData s + 1; incidents := incidents s;
     statusNoMessageBytes := statusNoMessageBytes s; statusMavType := statusMavType s |}.

Definition setNoMessageBytes (n : Z) (s : AP2DataPlotStatus) : AP2DataPlotStatus :=
  {| validData := validData s; incidents := incidents s;
     statusNoMessageBytes := n; statusMavType := statusMavType s |}.

Definition setMavType (t : MAV_TYPE) (s : AP2DataPlotStatus) : AP2DataPlotStatus :=
  {| validData := validData s; incidents := incidents s;
     statusNoMessageBytes := statusNoMessageBytes s; statusMavType := t |}.

Definition isCorruptData (i : Incident) : bool :=
  match i with CorruptData _ _ => true | _ => false end.
Definition isCorruptFMT (i : Incident) : bool :=
  match i with CorruptFMT _ _ => true | _ => false end.
Definition isCorruptTime (i : Incident) : bool :=
  match i with CorruptTime _ _ => true | _ => false end.

Record SinkType := {
  sk_name : string;
  sk_id : Z;
  sk_length : Z;
  sk_format : string;
  sk_labels : list string
}.

Record SinkRow := {
  row_type : string;
  row_values : list NameValuePair;
  row_timeLabel : string
}.

Record AP2DataPlot2DModel := {
  dm_types : list SinkType;
  dm_rows : list SinkRow;
  dm_started : nat;
  dm_ended : nat;
  dm_allRowsHaveTime : option (string * Z);
  dm_error : string
}.

Definition emptyModel : AP2DataPlot2DModel :=
  {| dm_types := []; dm_rows := []; dm_started := 0; dm_ended := 0;
     dm_allRowsHaveTime := None; dm_error := "" |}.

Definition dm_fail (err : string) (m : AP2DataPlot2DModel) : AP2DataPlot2DModel :=
  {| dm_types := dm_types m; dm_rows := dm_rows m; dm_started := dm_started m;
     dm_ended := dm_ended m; dm_allRowsHaveTime := dm_allRowsHaveTime m;
     dm_error := err |}.

Record IParserCallback := {
  cb_progress : list (Z * Z);
  cb_errors : list string
}.

Definition emptyCallback : IParserCallback := {| cb_progress := []; cb_errors := [] |}.

Definition onProgress (pos total : Z) (c : IParserCallback) : IParserCallback :=
  {| cb_progress := cb_progress c ++ [(pos, total)]; cb_errors := cb_errors c |}.

Definition onError (err : string) (c : IParserCallback) : IParserCallback :=
  {| cb_progress := cb_progress c; cb_errors := cb_errors c ++ [err] |}.

(** ** The parser object

    The parser holds two pointers, [m_callbackObject] and [m_dataModel],
    and either may be null: [null_callbackObject] and [null_dataModel] say
    so.  The fields [m_callbackObject] and [m_dataModel] are the states of
    the two objects pointed to, which the member functions change in place;
    behind a null pointer there is no object, and [parse] returns before
    any member function looks at the field.

    [noMessageBytes] is the local [int] of [parse]; it lives here so that
    the loop bodies are functions on one state. *)

Record BinLogParser := {
  m_callbackObject : IParserCallback;
  m_dataModel : AP2DataPlot2DModel;
  m_dataBlock : list byte;
  m_dataPos : Z;
  m_messageType : Z;
  m_MessageCounter : Z;
  m_stop : bool;
  m_loadedLogType : MAV_TYPE;
  m_timeErrorCount : Z;
  m_lastValidTimeStamp : Z;
  m_logLoadingState : AP2DataPlotStatus;
  m_activeTimestamp : timeStampType;
  m_possibleTimestamps : list timeStampType;
  m_typeToDescriptorMap : gmap Z typeDescriptor;
  m_descriptorForDeferredStorage : list typeDescriptor;
  noMessageBytes : Z;
  null_callbackObject : bool;
  null_dataModel : bool
}.

Definition isNull {A} (pointer : option A) : bool :=
  match pointer with None => true | Some _ => false end.

(** The constructor [BinLogParser::BinLogParser(model, object)]; [None] is
    the null pointer, which the constructor accepts. *)
Definition newBinLogParser (model : option AP2DataPlot2DModel)
    (object : option IParserCallback) : BinLogParser :=
  {| m_callbackObject := default emptyCallback object;
     m_dataModel := default emptyModel model;
     m_dataBlock := [];
     m_dataPos := 0;
     m_messageType := 0;
     m_MessageCounter := 0;
     m_stop := false;
     m_loadedLogType := MAV_TYPE_GENERIC;
     m_timeErrorCount := 0;
     m_lastValidTimeStamp := 0;
     m_logLoadingState := emptyStatus;
     m_activeTimestamp := ts_default;
     m_possibleTimestamps :=
       [ {| ts_name := "TimeUS"; ts_divisor := 1000000 |};
         {| ts_name := "TimeMS"; ts_divisor := 1000 |} ];
     m_typeToDescriptorMap := ∅;
     m_descriptorForDeferredStorage := [];
     noMessageBytes := 0;
     null_callbackObject := isNull object;
     null_dataModel := isNull model |}.

(** A parser for a new sink and a new callback. *)
Definition newParser : BinLogParser :=
  newBinLogParser (Some emptyModel) (Some emptyCallback).

Definition with_callbackObject c (p : BinLogParser) : BinLogParser :=
  {| m_callbackObject := c; m_dataModel := m_dataModel p; m_dataBlock := m_dataBlock p;
     m_dataPos := m_dataPos p; m_messageType := m_messageType p;
     m_MessageCounter := m_MessageCounter p; m_stop := m_stop p;
     m_loadedLogType := m_loadedLogType p; m_timeErrorCount := m_timeErrorCount p;
     m_lastValidTimeStamp := m_lastValidTimeStamp p;
     m_logLoadingState := m_logLoadingState p; m_activeTimestamp := m_activeTimestamp p;
     m_possibleTimestamps := m_possibleTimestamps p;
     m_typeToDescriptorMap := m_typeToDescriptorMap p;
     m_descriptorForDeferredStorage := m_descriptorForDeferredStorage p;
     noMessageBytes := noMessageBytes p;
     null_callbackObject := null_callbackObject p;
     null_dataModel := null_dataModel p |}.

Definition with_dataModel m (p : BinLogParser) : BinLogParser :=
  {| m_callbackObject := m_callbackObject p; m_dataModel := m; m_dataBlock := m_dataBlock p;
     m_dataPos := m_dataPos p; m_messageType := m_messageType p;
     m_MessageCounter := m_MessageCounter p; m_stop := m_stop p;
     m_loadedLogType := m_loadedLogType p; m_timeErrorCount := m_timeErrorCount p;
     m_lastValidTimeStamp := m_lastValidTimeStamp p;
     m_logLoadingState := m_logLoadingState p; m_activeTimestamp := m_activeTimestamp p;
     m_possibleTimestamps := m_possibleTimestamps p;
     m_typeToDescriptorMap := m_typeToDescriptorMap p;
     m_descriptorForDeferredStorage := m_descriptorForDeferredStorage p;
     noMessageBytes := noMessageBytes p;
     null_callbackObject := null_callbackObject p;
     null_dataModel := null_dataModel p |}.

Definition with_dataBlock b (p : BinLogParser) : BinLogParser :=
  {| m_callbackObject := m_callbackObject p; m_dataModel := m_dataModel p; m_dataBlock := b;
     m_dataPos := m_dataPos p; m_messageType := m_messageType p;
     m_MessageCounter := m_MessageCounter p; m_stop := m_stop p;
     m_loadedLogType := m_loadedLogType p; m_timeErrorCount := m_timeErrorCount p;
     m_lastValidTimeStamp := m_lastValidTimeStamp p;
     m_logLoadingState := m_logLoadingState p; m_activeTimestamp := m_activeTimestamp p;
     m_possibleTimestamps := m_possibleTimestamps p;
     m_typeToDescriptorMap := m_typeToDescriptorMap p;
     m_descriptorForDeferredStorage := m_descriptorForDeferredStorage p;
     noMessageBytes := noMessageBytes p;
     null_callbackObject := null_callbackObject p;
     null_dataModel := null_dataModel p |}.

Definition with_dataPos n (p : BinLogParser) : BinLogParser :=
  {| m_callbackObject := m_callbackObject p; m_dataModel := m_dataModel p;
     m_dataBlock := m_dataBlock p;
     m_dataPos := n; m_messageType := m_messageType p;
     m_MessageCounter := m_MessageCounter p; m_stop := m_stop p;
     m_loadedLogType := m_loadedLogType p; m_timeErrorCount := m_timeErrorCount p;
     m_lastValidTimeStamp := m_lastValidTimeStamp p;
     m_logLoadingState := m_logLoadingState p; m_activeTimestamp := m_activeTimestamp p;
     m_possibleTimestamps := m_possibleTimestamps p;
     m_typeToDescriptorMap := m_typeToDescriptorMap p;
     m_descriptorForDeferredStorage := m_descriptorForDeferredStorage p;
     noMessageBytes := noMessageBytes p;
     null_callbackObject := null_callbackObject p;
     null_dataModel := null_dataModel p |}.

Definition with_messageType t (p : BinLogParser) : BinLogParser :=
  {| m_callbackObject := m_callbackObject p; m_dataModel := m_dataModel p;
     m_dataBlock := m_dataBlock p;
     m_dataPos := m_dataPos p; m_messageType := t;
     m_MessageCounter := m_MessageCounter p; m_stop := m_stop p;
     m_loadedLogType := m_loadedLogType p; m_timeErrorCount := m_timeErrorCount p;
     m_lastValidTimeStamp := m_lastValidTimeStamp p;
     m_logLoadingState := m_logLoadingState p; m_activeTimestamp := m_activeTimestamp p;
     m_possibleTimestamps := m_possibleTimestamps p;
     m_typeToDescriptorMap := m_typeToDescriptorMap p;
     m_descriptorForDeferredStorage := m_descriptorForDeferredStorage p;
     noMessageBytes := noMessageBytes p;
     null_callbackObject := null_callbackObject p;
     null_dataModel := null_dataModel p |}.

Definition with_MessageCounter n (p : BinLogParser) : BinLogParser :=
  {| m_callbackObject := m_callbackObject p; m_dataModel := m_dataModel p;
     m_dataBlock := m_dataBlock p;
     m_dataPos := m_dataPos p; m_messageType := m_messageType p;
     m_MessageCounter := n; m_stop := m_stop p;
     m_loadedLogType := m_loadedLogType p; m_timeErrorCount := m_timeErrorCount p;
     m_lastValidTimeStamp := m_lastValidTimeStamp p;
     m_logLoadingState := m_logLoadingState p; m_activeTimestamp := m_activeTimestamp p;
     m_possibleTimestamps := m_possibleTimestamps p;
     m_typeToDescriptorMap := m_typeToDescriptorMap p;
     m_descriptorForDeferredStorage := m_descriptorForDeferredStorage p;
     noMessageBytes := noMessageBytes p;
     null_callbackObject := null_callbackObject p;
     null_dataModel := null_dataModel p |}.

Definition with_loadedLogType t (p : BinLogParser) : BinLogParser :=
  {| m_callbackObject := m_callbackObject p; m_dataModel := m_dataModel p;
     m_dataBlock := m_dataBlock p;
     m_dataPos := m_dataPos p; m_messageType := m_messageType p;
     m_MessageCounter := m_MessageCounter p; m_stop := m_stop p;
     m_loadedLogType := t; m_timeErrorCount := m_timeErrorCount p;
     m_lastValidTimeStamp := m_lastValidTimeStamp p;
     m_logLoadingState := m_logLoadingState p; m_activeTimestamp := m_activeTimestamp p;
     m_possibleTimestamps := m_possibleTimestamps p;
     m_typeToDescriptorMap := m_typeToDescriptorMap p;
     m_descriptorForDeferredStorage := m_descriptorForDeferredStorage p;
     noMessageBytes := noMessageBytes p;
     null_callbackObject := null_callbackObject p;
     null_dataModel := null_dataModel p |}.

Definition with_timeErrorCount n (p : BinLogParser) : BinLogParser :=
  {| m_callbackObject := m_callbackObject p; m_dataModel := m_dataModel p;
     m_dataBlock := m_dataBlock p;
     m_dataPos := m_dataPos p; m_messageType := m_messageType p;
     m_MessageCounter := m_MessageCounter p; m_stop := m_stop p;
     m_loadedLogType := m_loadedLogType p; m_timeErrorCount := n;
     m_lastValidTimeStamp := m_lastValidTimeStamp p;
     m_logLoadingState := m_logLoadingState p; m_activeTimestamp := m_activeTimestamp p;
     m_possibleTimestamps := m_possibleTimestamps p;
     m_typeToDescriptorMap := m_typeToDescriptorMap p;
     m_descriptorForDeferredStorage := m_descriptorForDeferredStorage p;
     noMessageBytes := noMessageBytes p;
     null_callbackObject := null_callbackObject p;
     null_dataModel := null_dataModel p |}.

Definition with_lastValidTimeStamp n (p : BinLogParser) : BinLogParser :=
  {| m_callbackObject := m_callbackObject p; m_dataModel := m_dataModel p;
     m_dataBlock := m_dataBlock p;
     m_dataPos := m_dataPos p; m_messageType := m_messageType p;
     m_MessageCounter := m_MessageCounter p; m_stop := m_stop p;
     m_loadedLogType := m_loadedLogType p; m_timeErrorCount := m_timeErrorCount p;
     m_lastValidTimeStamp := n;
     m_logLoadingState := m_logLoadingState p; m_activeTimestamp := m_activeTimestamp p;
     m_possibleTimestamps := m_possibleTimestamps p;
     m_typeToDescriptorMap := m_typeToDescriptorMap p;
     m_descriptorForDeferredStorage := m_descriptorForDeferredStorage p;
     noMessageBytes := noMessageBytes p;
     null_callbackObject := null_callbackObject p;
     null_dataModel := null_dataModel p |}.

Definition with_logLoadingState s (p : BinLogParser) : BinLogParser :=
  {| m_callbackObject := m_callbackObject p; m_dataModel := m_dataModel p;
     m_dataBlock := m_dataBlock p;
     m_dataPos := m_dataPos p; m_messageType := m_messageType p;
     m_MessageCounter := m_MessageCounter p; m_stop := m_stop p;
     m_loadedLogType := m_loadedLogType p; m_timeErrorCount := m_timeErrorCount p;
     m_lastValidTimeStamp := m_lastValidTimeStamp p;
     m_logLoadingState := s; m_activeTimestamp := m_activeTimestamp p;
     m_possibleTimestamps := m_possibleTimestamps p;
     m_typeToDescriptorMap := m_typeToDescriptorMap p;
     m_descriptorForDeferredStorage := m_descriptorForDeferredStorage p;
     noMessageBytes := noMessageBytes p;
     null_callbackObject := null_callbackObject p;
     null_dataModel := null_dataModel p |}.

Definition with_activeTimestamp t (p : BinLogParser) : BinLogParser :=
  {| m_callbackObject := m_callbackObject p; m_dataModel := m_dataModel p;
     m_dataBlock := m_dataBlock p;
     m_dataPos := m_dataPos p; m_messageType := m_messageType p;
     m_MessageCounter := m_MessageCounter p; m_stop := m_stop p;
     m_loadedLogType := m_loadedLogType p; m_timeErrorCount := m_timeErrorCount p;
     m_lastValidTimeStamp := m_lastValidTimeStamp p;
     m_logLoadingState := m_logLoadingState p; m_activeTimestamp := t;
     m_possibleTimestamps := m_possibleTimestamps p;
     m_typeToDescriptorMap := m_typeToDescriptorMap p;
     m_descriptorForDeferredStorage := m_descriptorForDeferredStorage p;
     noMessageBytes := noMessageBytes p;
     null_callbackObject := null_callbackObject p;
     null_dataModel := null_dataModel p |}.

Definition with_typeToDescriptorMap m (p : BinLogParser) : BinLogParser :=
  {| m_callbackObject := m_callbackObject p; m_dataModel := m_dataModel p;
     m_dataBlock := m_dataBlock p;
     m_dataPos := m_dataPos p; m_messageType := m_messageType p;
     m_MessageCounter := m_MessageCounter p; m_stop := m_stop p;
     m_loadedLogType := m_loadedLogType p; m_timeErrorCount := m_timeErrorCount p;
     m_lastValidTimeStamp := m_lastValidTimeStamp p;
     m_logLoadingState := m_logLoadingState p; m_activeTimestamp := m_activeTimestamp p;
     m_possibleTimestamps := m_possibleTimestamps p;
     m_typeToDescriptorMap := m;
     m_descriptorForDeferredStorage := m_descriptorForDeferredStorage p;
     noMessageBytes := noMessageBytes p;
     null_callbackObject := null_callbackObject p;
     null_dataModel := null_dataModel p |}.

Definition with_descriptorForDeferredStorage q (p : BinLogParser) : BinLogParser :=
  {| m_callbackObject := m_callbackObject p; m_dataModel := m_dataModel p;
     m_dataBlock := m_dataBlock p;
     m_dataPos := m_dataPos p; m_messageType := m_messageType p;
     m_MessageCounter := m_MessageCounter p; m_stop := m_stop p;
     m_loadedLogType := m_loadedLogType p; m_timeErrorCount := m_timeErrorCount p;
     m_lastValidTimeStamp := m_lastValidTimeStamp p;
     m_logLoadingState := m_logLoadingState p; m_activeTimestamp := m_activeTimestamp p;
     m_possibleTimestamps := m_possibleTimestamps p;
     m_typeToDescriptorMap := m_typeToDescriptorMap p;
     m_descriptorForDeferredStorage := q;
     noMessageBytes := noMessageBytes p;
     null_callbackObject := null_callbackObject p;
     null_dataModel := null_dataModel p |}.

Definition with_noMessageBytes n (p : BinLogParser) : BinLogParser :=
  {| m_callbackObject := m_callbackObject p; m_dataModel := m_dataModel p;
     m_dataBlock := m_dataBlock p;
     m_dataPos := m_dataPos p; m_messageType := m_messageType p;
     m_MessageCounter := m_MessageCounter p; m_stop := m_stop p;
     m_loadedLogType := m_loadedLogType p; m_timeErrorCount := m_timeErrorCount p;
     m_lastValidTimeStamp := m_lastValidTimeStamp p;
     m_logLoadingState := m_logLoadingState p; m_activeTimestamp := m_activeTimestamp p;
     m_possibleTimestamps := m_possibleTimestamps p;
     m_typeToDescriptorMap := m_typeToDescriptorMap p;
     m_descriptorForDeferredStorage := m_descriptorForDeferredStorage p;
     noMessageBytes := n;
     null_callbackObject := null_callbackObject p;
     null_dataModel := null_dataModel p |}.

(** Diagnostics of the Status, with the message counter as the index:
    [static_cast<int>(m_MessageCounter)] for the data and the FMT incidents,
    the counter as it is for the time incidents. *)
Definition corruptDataRead (msg : Message) (p : BinLogParser) : BinLogParser :=
  with_logLoadingState
    (record_incident (CorruptData (to_int (m_MessageCounter p)) msg)
       (m_logLoadingState p)) p.

Definition corruptFMTRead (msg : Message) (p : BinLogParser) : BinLogParser :=
  with_logLoadingState
    (record_incident (CorruptFMT (to_int (m_MessageCounter p)) msg)
       (m_logLoadingState p)) p.

Definition corruptTimeRead (msg : Message) (p : BinLogParser) : BinLogParser :=
  with_logLoadingState
    (record_incident (CorruptTime (m_MessageCounter p) msg) (m_logLoadingState p)) p.

(** ** The data stream of one record

    [QDataStream] over the record body, little endian.  A read of [n] bytes
    yields their unsigned value; when fewer than [n] bytes are left the
    stream is exhausted and the value read is 0. *)

Definition littleEndian (bs : list byte) : Z :=
  foldr (fun b acc => u8 b + 256 * acc) 0 bs.

Definition readRaw (n : nat) (stream : list byte) : Z * list byte :=
  if decide (n <= length stream)%nat
  then (littleEndian (take n stream), drop n stream)
  else (0, []).

Definition toSigned (bits : Z) (v : Z) : Z :=
  if decide (v < 2 ^ (bits - 1)) then v else v - 2 ^ bits.

(** The loops of the codes [n], [N] and [Z]: [count] single bytes are read
    and the ones that are not zero are appended. *)
Fixpoint readChars (count : nat) (stream : list byte) : string * list byte :=
  match count with
  | O => (EmptyString, stream)
  | S k =>
      let '(ch, s1) := readRaw 1 stream in
      let '(val, s2) := readChars k s1 in
      (if decide (ch = 0) then val else String (ascii_of_N (Z.to_N ch)) val, s2)
  end.

Inductive Decoded :=
| Value (v : QVariant)
| NotANumber
| UnknownCode.

(** The decision ladder over the format characters. *)
Definition decodeField (typeCode : ascii) (stream : list byte) : Decoded * list byte :=
  if Ascii.eqb typeCode "b" then
    let '(v, s) := readRaw 1 stream in (Value (VInt (toSigned 8 v)), s)
  else if Ascii.eqb typeCode "B" then
    let '(v, s) := readRaw 1 stream in (Value (VUInt v), s)
  else if Ascii.eqb typeCode "h" then
    let '(v, s) := readRaw 2 stream in (Value (VInt (toSigned 16 v)), s)
  else if Ascii.eqb typeCode "H" then
    let '(v, s) := readRaw 2 stream in (Value (VUInt v), s)
  else if Ascii.eqb typeCode "i" then
    let '(v, s) := readRaw 4 stream in (Value (VInt (toSigned 32 v)), s)
  else if Ascii.eqb typeCode "I" then
    let '(v, s) := readRaw 4 stream in (Value (VUInt v), s)
  else if Ascii.eqb typeCode "f" then
    let '(v, s) := readRaw 4 stream in
    if isNaN v then (NotANumber, s) else (Value (VFloat v), s)
  else if Ascii.eqb typeCode "n" then
    let '(v, s) := readChars 4 stream in (Value (VString v), s)
  else if Ascii.eqb typeCode "N" then
    let '(v, s) := readChars 16 stream in (Value (VString v), s)
  else if Ascii.eqb typeCode "Z" then
    let '(v, s) := readChars 64 stream in (Value (VString v), s)
  else if Ascii.eqb typeCode "c" then
    let '(v, s) := readRaw 2 stream in (Value (VScaled (toSigned 16 v) 100), s)
  else if Ascii.eqb typeCode "C" then
    let '(v, s) := readRaw 2 stream in (Value (VScaled v 100), s)
  else if Ascii.eqb typeCode "e" then
    let '(v, s) := readRaw 4 stream in (Value (VScaled (toSigned 32 v) 100), s)
  else if Ascii.eqb typeCode "E" then
    let '(v, s) := readRaw 4 stream in (Value (VScaled v 100), s)
  else if Ascii.eqb typeCode "L" then
    let '(v, s) := readRaw 4 stream in (Value (VScaled (toSigned 32 v) 10000000), s)
  else if Ascii.eqb typeCode "M" then
    let '(v, s) := readRaw 1 stream in (Value (VInt (toSigned 8 v)), s)
  else if Ascii.eqb typeCode "q" then
    let '(v, s) := readRaw 8 stream in (Value (VInt (toSigned 64 v)), s)
  else if Ascii.eqb typeCode "Q" then
    let '(v, s) := readRaw 8 stream in (Value (VUInt v), s)
  else (UnknownCode, stream).

(** The [for] loop of [parseDataByDescriptor]: [i] is the index of the head
    of [format]; a NaN or an unknown code records the incident, clears the
    list and leaves the loop. *)
Fixpoint decodeFields (desc : typeDescriptor) (i : nat) (format : list ascii)
    (stream : list byte) (NameValuePairList : list NameValuePair) (p : BinLogParser)
    : list NameValuePair * BinLogParser :=
  match format with
  | [] => (NameValuePairList, p)
  | typeCode :: rest =>
      match decodeField typeCode stream with
      | (Value val, s) =>
          decodeFields desc (S i) rest s
            (NameValuePairList ++ [(getLabelAtIndex desc i, val)]) p
      | (NotANumber, _) =>
          ([], corruptDataRead (MsgCorruptElement (m_name desc)) p)
      | (UnknownCode, _) =>
          ([], corruptDataRead (MsgUnknownDataType typeCode (m_name desc)) p)
      end
  end.

(** [foreach ... if (desc.m_labels.contains(timeStamp.m_name)) ... break]. *)
Fixpoint findTimestamp (candidates : list timeStampType) (labels : list string)
    : option timeStampType :=
  match candidates with
  | [] => None
  | timeStamp :: rest =>
      if contains labels (ts_name timeStamp) then Some timeStamp
      else findTimestamp rest labels
  end.

(** The search loop of [detectMavType]. *)
Fixpoint findName (valuepairlist : list NameValuePair) (i : nat) : nat :=
  match valuepairlist with
  | [] => O
  | entry :: rest =>
      if decide (fst entry = "Name"%string) then i else findName rest (S i)
  end.

Inductive Flow :=
| Continue (p : BinLogParser)
| Break (p : BinLogParser)
| Return (p : BinLogParser).

(** How a loop, or [parse], was left: the guard failed, a record was cut
    short, the sink failed, or, for [parse] alone, a pointer was null. *)
Inductive LoopExit := GuardFalse | ShortRead | Fatal | NullPointer.

Inductive Outcome :=
| Done (e : LoopExit) (p : BinLogParser)
| Undefined
| OutOfFuel.

(** ** Notions used to state the properties *)

(** Every field of [format] decodes to a value: the values and the rest of
    the stream. *)
Fixpoint decodeValues (format : list ascii) (stream : list byte)
    : option (list QVariant * list byte) :=
  match format with
  | [] => Some ([], stream)
  | typeCode :: rest =>
      match decodeField typeCode stream with
      | (Value val, s) =>
          match decodeValues rest s with
          | Some (vals, s') => Some (val :: vals, s')
          | None => None
          end
      | _ => None
      end
  end.

(** The labels that [decodeFields] gives to the fields [i], [i+1], ... *)
Fixpoint labelled (desc : typeDescriptor) (i : nat) (vals : list QVariant)
    : list NameValuePair :=
  match vals with
  | [] => []
  | val :: rest => (getLabelAtIndex desc i, val) :: labelled desc (S i) rest
  end.

(** ** Sample streams *)

Definition pad (n : nat) (s : string) : list byte :=
  take n (list_byte_of_string s ++ repeat x00 n).

Definition fmtRecord (id len : byte) (name format labels : string) : list byte :=
  [xa3; x95; x80; id; len] ++ pad 4 name ++ pad 16 format ++ pad 64 labels.

Definition sinkAccepts : AP2DataPlot2DModel -> option string := fun _ => None.
Definition sinkAcceptsType : AP2DataPlot2DModel -> SinkType -> option string :=
  fun _ _ => None.
Definition sinkAcceptsRow : AP2DataPlot2DModel -> SinkRow -> option string :=
  fun _ _ => None.
Definition noConversion : QVariant -> Z := fun _ => 0.

Definition timeUS : timeStampType := {| ts_name := "TimeUS"; ts_divisor := 1000000 |}.

(** An attitude record: a 64-bit time and a float. *)
Definition descATT : typeDescriptor :=
  {| m_ID := 130; m_length := 15; m_name := "ATT"; m_format := "Qf";
     m_labels := ["TimeUS"; "Roll"]; m_hasTimeStamp := true; m_timeStampIndex := 0 |}.

(** A parser that knows [descATT] and has one ATT record buffered whose
    float is the NaN 0x7FC00000. *)
Definition parserNaN : BinLogParser :=
  with_dataBlock
    [xa3; x95; x82; x40; x42; x0f; x00; x00; x00; x00; x00; x00; x00; xc0; x7f]
    (with_activeTimestamp timeUS
       (with_typeToDescriptorMap {[ 130 := descATT ]} newParser)).

(** The same parser after the header of the record. *)
Definition parserNaNBody : BinLogParser :=
  with_messageType 130 (with_dataPos 3 parserNaN).

(** The id that the sample runs give to the STRT message. *)
Definition sampleSTRT : Z := 10.

Definition finalState (o : Outcome) : option BinLogParser :=
  match o with
  | Done _ p => Some p
  | _ => None
  end.

(** The FMT record of a type TEST with a byte and a 64-bit time. *)
Definition fmtTEST : list byte := fmtRecord x81 x0c "TEST" "BQ" "X,TimeUS".

(** A parser whose buffer ends 9 bytes into that FMT record. *)
Definition parserShortFMT : BinLogParser := with_dataBlock (take 9 fmtTEST) newParser.

(** A parser that knows [descATT]. *)
Definition parserATT : BinLogParser :=
  with_activeTimestamp timeUS (with_typeToDescriptorMap {[ 130 := descATT ]} newParser).

(** One stray byte, the header of an ATT record and 3 of its 12 body
    bytes; and the other 9 body bytes. *)
Definition attHead : list byte := [x00; xa3; x95; x82; x40; x42; x0f].
Definition attRest : list byte := [x00; x00; x00; x00; x00; x00; x00; x80; x3f].

(** The parser with [attHead] buffered. *)
Definition parserShortData : BinLogParser := with_dataBlock attHead parserATT.

(** Two bytes that are no header, 0xA3 0x00, before the FMT record. *)
Definition parserGarbage : BinLogParser :=
  with_dataBlock ([xa3; x00] ++ fmtTEST) newParser.

(** The FMT record that describes the FMT records themselves. *)
Definition fmtFMT : list byte :=
  fmtRecord x80 x59 "FMT" "BBnNZ" "Type,Length,Name,Format,Columns".

(** The descriptors of the two FMT records, as [parseFMTMessage] yields
    them. *)
Definition descFMT : typeDescriptor :=
  {| m_ID := 128; m_length := 89; m_name := "FMT"; m_format := "BBnNZ";
     m_labels := ["Type"; "Length"; "Name"; "Format"; "Columns"];
     m_hasTimeStamp := false; m_timeStampIndex := 0 |}.

Definition descTEST : typeDescriptor :=
  {| m_ID := 129; m_length := 12; m_name := "TEST"; m_format := "BQ";
     m_labels := ["X"; "TimeUS"]; m_hasTimeStamp := false; m_timeStampIndex := 0 |}.

(** A record of type TEST: X = 42, TimeUS = 1000000. *)
Definition dataTEST : list byte :=
  [xa3; x95; x81; x2a; x40; x42; x0f; x00; x00; x00; x00; x00].

(** A parser that has queued [descFMT] and no active timestamp yet. *)
Definition parserQueued : BinLogParser :=
  with_descriptorForDeferredStorage [descFMT] newParser.

(** The same parser with the FMT record of TEST buffered. *)
Definition parserDiscovery : BinLogParser := with_dataBlock fmtTEST parserQueued.

(** A type PING without a time: one byte. *)
Definition descPING : typeDescriptor :=
  {| m_ID := 131; m_length := 4; m_name := "PING"; m_format := "B";
     m_labels := ["SEQ"]; m_hasTimeStamp := false; m_timeStampIndex := 0 |}.

Definition fmtPING : list byte := fmtRecord x83 x04 "PING" "B" "SEQ".

(** A second record of type TEST, one microsecond before [dataTEST]. *)
Definition dataTESTearlier : list byte :=
  [xa3; x95; x81; x2b; x3f; x42; x0f; x00; x00; x00; x00; x00].

(** A parser with the active timestamp TimeUS and an empty registry. *)
Definition parserActive : BinLogParser := with_activeTimestamp timeUS newParser.

(** Three FMT records and two records of TEST, the second with the earlier
    time. *)
Definition streamBackwards : list byte :=
  fmtFMT ++ fmtTEST ++ fmtPING ++ dataTEST ++ dataTESTearlier.


(** ** Notions for the field decoder *)

(** The number of bytes that [decodeField] takes from the stream for a
    format character: the width of the C type that the branch reads. *)
Definition fieldSize (typeCode : ascii) : option nat :=
  if Ascii.eqb typeCode "b" then Some 1%nat
  else if Ascii.eqb typeCode "B" then Some 1%nat
  else if Ascii.eqb typeCode "h" then Some 2%nat
  else if Ascii.eqb typeCode "H" then Some 2%nat
  else if Ascii.eqb typeCode "i" then Some 4%nat
  else if Ascii.eqb typeCode "I" then Some 4%nat
  else if Ascii.eqb typeCode "f" then Some 4%nat
  else if Ascii.eqb typeCode "n" then Some 4%nat
  else if Ascii.eqb typeCode "N" then Some 16%nat
  else if Ascii.eqb typeCode "Z" then Some 64%nat
  else if Ascii.eqb typeCode "c" then Some 2%nat
  else if Ascii.eqb typeCode "C" then Some 2%nat
  else if Ascii.eqb typeCode "e" then Some 4%nat
  else if Ascii.eqb typeCode "E" then Some 4%nat
  else if Ascii.eqb typeCode "L" then Some 4%nat
  else if Ascii.eqb typeCode "M" then Some 1%nat
  else if Ascii.eqb typeCode "q" then Some 8%nat
  else if Ascii.eqb typeCode "Q" then Some 8%nat
  else None.


(** ** Further sample streams *)

(** A parameter record: a 64-bit time, a name of 16 characters and a
    float. *)
Definition fmtPARM : list byte := fmtRecord x85 x1f "PARM" "QNf" "TimeUS,Name,Value".

(** The parameter RATE_RLL_P = 1.0 at the time 1. *)
Definition dataPARM : list byte :=
  [xa3; x95; x85] ++ [x01; x00; x00; x00; x00; x00; x00; x00]
  ++ pad 16 "RATE_RLL_P" ++ [x00; x00; x80; x3f].

(** The descriptor of PARM is queued, flushed by the FMT record of PING,
    and then used for one record. *)
Definition streamPARM : list byte := fmtPARM ++ fmtPING ++ dataPARM.

(** A record of type PING: SEQ = 7. *)
Definition dataPING : list byte := [xa3; x95; x83; x07].

(** A log of 8302 bytes: the FMT records of TEST and PING, 2001 records of
    PING, the FMT record of PARM, which begins at the offset 8182, and one
    record of PARM.  The first [read(8192)] ends 10 bytes into the FMT
    record of PARM. *)
Definition logBoundary : list byte :=
  fmtTEST ++ fmtPING ++ concat (repeat dataPING (Z.to_nat 2001)) ++ fmtPARM ++ dataPARM.

(** The blocks that the successive [read(8192)] return for a log, until
    [atEnd] holds. *)
Fixpoint blocksFrom (fuel : nat) (log : list byte) : list (list byte) :=
  match fuel, log with
  | S k, _ :: _ => take (Z.to_nat 8192) log :: blocksFrom k (drop (Z.to_nat 8192) log)
  | _, _ => []
  end.

Definition blocksOf (log : list byte) : list (list byte) := blocksFrom (length log) log.

(** A type whose two fields are both labelled TimeUS, and a record of it
    with the values 5 and 7. *)
Definition fmtTWICE : list byte := fmtRecord x86 x13 "TT" "QQ" "TimeUS,TimeUS".

Definition dataTWICE : list byte :=
  [xa3; x95; x86] ++ [x05; x00; x00; x00; x00; x00; x00; x00]
  ++ [x07; x00; x00; x00; x00; x00; x00; x00].

(** A parser with the active timestamp TimeUS that has the body of a PING
    record, the byte 7, at the cursor. *)
Definition parserPINGBody : BinLogParser := with_dataBlock [x07] parserActive.

(** ** Notions for the loops *)

(** The progress calls of a run over [chunks] that is not cut short: one
    for every block, with the position of the file before the block is
    read. *)
Fixpoint progressOf (pos total : Z) (chunks : list (list byte)) : list (Z * Z) :=
  match chunks with
  | [] => []
  | chunk :: rest => (pos, total) :: progressOf (pos + size chunk) total rest
  end.

(** Whether a pass of the loop body, or a loop, ended without a failure of
    the sink. *)
Definition flowOk (f : Flow) : bool :=
  match f with Return _ => false | _ => true end.

Definition exitOk (e : LoopExit) : bool :=
  match e with Fatal => false | _ => true end.

(** ** Stopping *)

Definition with_stop b (p : BinLogParser) : BinLogParser :=
  {| m_callbackObject := m_callbackObject p; m_dataModel := m_dataModel p;
     m_dataBlock := m_dataBlock p;
     m_dataPos := m_dataPos p; m_messageType := m_messageType p;
     m_MessageCounter := m_MessageCounter p; m_stop := b;
     m_loadedLogType := m_loadedLogType p; m_timeErrorCount := m_timeErrorCount p;
     m_lastValidTimeStamp := m_lastValidTimeStamp p;
     m_logLoadingState := m_logLoadingState p; m_activeTimestamp := m_activeTimestamp p;
     m_possibleTimestamps := m_possibleTimestamps p;
     m_typeToDescriptorMap := m_typeToDescriptorMap p;
     m_descriptorForDeferredStorage := m_descriptorForDeferredStorage p;
     noMessageBytes := noMessageBytes p;
     null_callbackObject := null_callbackObject p;
     null_dataModel := null_dataModel p |}.

(** [BinLogParser::stopParsing]. *)
Definition stopParsing (p : BinLogParser) : BinLogParser := with_stop true p.

(** ** Further sample descriptors and a sink that takes no row *)

Definition descGPS : typeDescriptor :=
  {| m_ID := 132; m_length := 12; m_name := "GPS"; m_format := "BIf";
     m_labels := ["Status"; "TimeMS"; "Lat"];
     m_hasTimeStamp := false; m_timeStampIndex := 0 |}.

(** The STRT descriptor of the older logs: no fields. *)
Definition descSTRT : typeDescriptor :=
  {| m_ID := 10; m_length := 3; m_name := "STRT"; m_format := ""; m_labels := [];
     m_hasTimeStamp := false; m_timeStampIndex := 0 |}.

(** A descriptor whose second format character is not in the alphabet. *)
Definition descODD : typeDescriptor :=
  {| m_ID := 134; m_length := 5; m_name := "ODD"; m_format := "Bx";
     m_labels := ["A"; "B"]; m_hasTimeStamp := false; m_timeStampIndex := 0 |}.


(** A sink that takes no type. *)
Definition sinkRejectsType : AP2DataPlot2DModel -> SinkType -> option string :=
  fun _ _ => Some "full"%string.

(** A parser that knows [descATT] and has, behind one stray byte and the
    header, a whole ATT record with the time 1000000 and the roll 1.0. *)
Definition parserATTBody : BinLogParser :=
  with_dataPos 4 (with_dataBlock (attHead ++ attRest) parserATT).

(** ** Notions for the resynchronisation *)

(** What one failed header test on the first byte does: the cursor moves by
    one byte, the message type is cleared and one non-message byte is
    counted. *)
Definition skipByte (p : BinLogParser) : BinLogParser :=
  with_noMessageBytes (int_incr (noMessageBytes p))
    (with_messageType 0 (with_dataPos (m_dataPos p + 1) p)).
(** ** The parser *)

Section Parser.

(** Declared in BinLogParser.h: the look-behind kept at a refill, which is
    also the guard of the record loop (the spec gives MIN_HEADER_SIZE = 3),
    and the id of the STRT message. *)
Variable s_MinHeaderSize : Z.
Variable s_STRTMessageType : Z.

(** The sink decides by itself whether an operation succeeds: [Some err] is
    a failure with the text that [getError] then returns. *)
Variable startTransaction_err : AP2DataPlot2DModel -> option string.
Variable endTransaction_err : AP2DataPlot2DModel -> option string.
Variable addType_err : AP2DataPlot2DModel -> SinkType -> option string.
Variable addRow_err : AP2DataPlot2DModel -> SinkRow -> option string.

(** [QVariant::toULongLong] on a float, a scaled value or a string rounds or
    parses; that conversion is Qt's and stays open here. *)
Variable toULongLong_inexact : QVariant -> Z.

Definition toULongLong (v : QVariant) : Z :=
  match v with
  | VInt z => z mod 2 ^ 64
  | VUInt z => z mod 2 ^ 64
  | _ => toULongLong_inexact v mod 2 ^ 64
  end.

(** *** The sink *)

Definition startTransaction (m : AP2DataPlot2DModel) : bool * AP2DataPlot2DModel :=
  let m1 := {| dm_types := dm_types m; dm_rows := dm_rows m;
               dm_started := S (dm_started m); dm_ended := dm_ended m;
               dm_allRowsHaveTime := dm_allRowsHaveTime m; dm_error := dm_error m |} in
  match startTransaction_err m with
  | None => (true, m1)
  | Some err => (false, dm_fail err m1)
  end.

Definition endTransaction (m : AP2DataPlot2DModel) : bool * AP2DataPlot2DModel :=
  let m1 := {| dm_types := dm_types m; dm_rows := dm_rows m;
               dm_started := dm_started m; dm_ended := S (dm_ended m);
               dm_allRowsHaveTime := dm_allRowsHaveTime m; dm_error := dm_error m |} in
  match endTransaction_err m with
  | None => (true, m1)
  | Some err => (false, dm_fail err m1)
  end.

Definition addType (t : SinkType) (m : AP2DataPlot2DModel) : bool * AP2DataPlot2DModel :=
  match addType_err m t with
  | None =>
      (true, {| dm_types := dm_types m ++ [t]; dm_rows := dm_rows m;
                dm_started := dm_started m; dm_ended := dm_ended m;
                dm_allRowsHaveTime := dm_allRowsHaveTime m; dm_error := dm_error m |})
  | Some err => (false, dm_fail err m)
  end.

Definition addRow (r : SinkRow) (m : AP2DataPlot2DModel) : bool * AP2DataPlot2DModel :=
  match addRow_err m r with
  | None =>
      (true, {| dm_types := dm_types m; dm_rows := dm_rows m ++ [r];
                dm_started := dm_started m; dm_ended := dm_ended m;
                dm_allRowsHaveTime := dm_allRowsHaveTime m; dm_error := dm_error m |})
  | Some err => (false, dm_fail err m)
  end.

Definition setAllRowsHaveTime (name : string) (divisor : Z) (m : AP2DataPlot2DModel)
    : AP2DataPlot2DModel :=
  {| dm_types := dm_types m; dm_rows := dm_rows m;
     dm_started := dm_started m; dm_ended := dm_ended m;
     dm_allRowsHaveTime := Some (name, divisor); dm_error := dm_error m |}.

(** The three lines of every fatal sink failure: keep the error text, end
    the transaction, report the text. *)
Definition fatal (p : BinLogParser) : BinLogParser :=
  let currentError := dm_error (m_dataModel p) in
  let p1 := with_dataModel (snd (endTransaction (m_dataModel p))) p in
  with_callbackObject (onError currentError (m_callbackObject p1)) p1.

(** *** Framing *)

Definition headerIsValid (p : BinLogParser) : option (bool * BinLogParser) :=
  b1 ← at_ (m_dataBlock p) (m_dataPos p);
  let p1 := with_dataPos (m_dataPos p + 1) p in
  if decide (u8 b1 = s_StartByte1) then
    b2 ← at_ (m_dataBlock p1) (m_dataPos p1);
    let p2 := with_dataPos (m_dataPos p1 + 1) p1 in
    if decide (u8 b2 = s_StartByte2) then
      b3 ← at_ (m_dataBlock p2) (m_dataPos p2);
      let p3 := with_dataPos (m_dataPos p2 + 1) p2 in
      Some (true, with_messageType (u8 b3) p3)
    else Some (false, with_messageType 0 p2)
  else Some (false, with_messageType 0 p1).

Definition parseFMTMessage (desc : typeDescriptor) (p : BinLogParser)
    : option (bool * typeDescriptor * BinLogParser) :=
  bID ← at_ (m_dataBlock p) (m_dataPos p);
  bLen ← at_ (m_dataBlock p) (m_dataPos p + 1);
  let p1 := with_dataPos (m_dataPos p + 2) p in
  let ID := u8 bID in
  let len := u8 bLen in
  if decide (size (m_dataBlock p1) - m_dataPos p1 < len - s_HeaderOffset - 2) then
    Some (false,
          {| m_ID := ID; m_length := len; m_name := m_name desc;
             m_format := m_format desc; m_labels := m_labels desc;
             m_hasTimeStamp := m_hasTimeStamp desc;
             m_timeStampIndex := m_timeStampIndex desc |}, p1)
  else
    let pos0 := m_dataPos p1 in
    let name := toQString (mid (m_dataBlock p1) pos0 s_FMTNameSize) in
    let pos1 := pos0 + s_FMTNameSize in
    let format := toQString (mid (m_dataBlock p1) pos1 s_FMTFormatSize) in
    let pos2 := pos1 + s_FMTFormatSize in
    let tmpStr := toQString (mid (m_dataBlock p1) pos2 s_FMTLabelsSize) in
    let labels := if decide (qsize tmpStr > 0) then split tmpStr else m_labels desc in
    let pos3 := pos2 + s_FMTLabelsSize in
    Some (true,
          {| m_ID := ID; m_length := len; m_name := name;
             m_format := format; m_labels := labels;
             m_hasTimeStamp := m_hasTimeStamp desc;
             m_timeStampIndex := m_timeStampIndex desc |},
          with_dataPos 0 (with_dataBlock (remove0 (m_dataBlock p1) pos3) p1)).

(** *** The descriptor registry *)

Definition sinkTypeOf (desc : typeDescriptor) : SinkType :=
  {| sk_name := m_name desc; sk_id := m_ID desc; sk_length := m_length desc;
     sk_format := m_format desc; sk_labels := m_labels desc |}.

Definition storeDescriptor (desc : typeDescriptor) (p : BinLogParser) : bool * BinLogParser :=
  if isValid s_STRTMessageType desc then
    match m_typeToDescriptorMap p !! m_ID desc with
    | None =>
        let p1 := with_typeToDescriptorMap (<[m_ID desc := desc]> (m_typeToDescriptorMap p)) p in
        if decide (m_ID desc <> s_FMTMessageType) then
          let desc1 :=
            if hasNoTimestamp desc then addTimeStampField (m_activeTimestamp p1) desc
            else desc in
          let '(ok, m) := addType (sinkTypeOf desc1) (m_dataModel p1) in
          if ok then
            let p2 := with_dataModel m p1 in
            (true, with_MessageCounter (m_MessageCounter p2 + 1) p2)
          else (false, fatal (with_dataModel m p1))
        else (true, p1)
    | Some _ =>
        (true, corruptFMTRead (MsgDoubledEntry (m_name desc)) p)
    end
  else (true, corruptFMTRead (MsgCorruptOrMissing (m_name desc) (m_ID desc)) p).

(** *** The field decoder *)

Definition parseDataByDescriptor (NameValuePairList : list NameValuePair)
    (desc : typeDescriptor) (p : BinLogParser)
    : bool * list NameValuePair * BinLogParser :=
  if decide (size (m_dataBlock p) - m_dataPos p < m_length desc - s_HeaderOffset) then
    (false, NameValuePairList, p)
  else
    let data := mid (m_dataBlock p) (m_dataPos p) (m_length desc - s_HeaderOffset) in
    let '(l, p1) :=
      decodeFields desc 0 (list_ascii_of_string (m_format desc)) data [] p in
    (true, l,
     with_dataPos 0
       (with_dataBlock
          (remove0 (m_dataBlock p1) (m_length desc + m_dataPos p1 - s_HeaderOffset)) p1)).

(** *** Timestamps *)

Definition readTimeStamp (valuepairlist : list NameValuePair) (timeStampIndex : Z)
    (p : BinLogParser) : option (list NameValuePair * BinLogParser) :=
  if decide (0 <= timeStampIndex) then
    entry ← valuepairlist !! Z.to_nat timeStampIndex;
    let tempVal := toULongLong (snd entry) in
    if decide (tempVal >= m_lastValidTimeStamp p) then
      Some (valuepairlist, with_lastValidTimeStamp tempVal p)
    else
      let p1 :=
        if decide (m_timeErrorCount p < 50) then with_timeErrorCount (m_timeErrorCount p + 1) p
        else if decide (m_timeErrorCount p < 51) then with_timeErrorCount (m_timeErrorCount p + 1) p
        else p in
      let p2 := corruptTimeRead (MsgTimeNotIncreasing (m_lastValidTimeStamp p1) tempVal) p1 in
      Some (<[Z.to_nat timeStampIndex := (fst entry, VUInt (m_lastValidTimeStamp p2))]> valuepairlist,
            p2)
  else None.

Definition storeNameValuePairList (NameValuePairList : list NameValuePair)
    (desc : typeDescriptor) (p : BinLogParser)
    : option (bool * list NameValuePair * BinLogParser) :=
  '(l, p1) ←
    (if hasNoTimestamp desc then
       Some ((ts_name (m_activeTimestamp p), VUInt (m_lastValidTimeStamp p)) :: NameValuePairList, p)
     else readTimeStamp NameValuePairList (m_timeStampIndex desc) p);
  let row := {| row_type := m_name desc; row_values := l;
                row_timeLabel := ts_name (m_activeTimestamp p1) |} in
  let '(ok, m) := addRow row (m_dataModel p1) in
  if ok then
    let p2 := with_dataModel m p1 in
    let p3 := with_MessageCounter (m_MessageCounter p2 + 1) p2 in
    Some (true, l, with_logLoadingState (validDataRead (m_logLoadingState p3)) p3)
  else Some (false, l, fatal (with_dataModel m p1)).

Definition checkForValidTimestamp (desc : typeDescriptor) (p : BinLogParser) : BinLogParser :=
  let p1 :=
    match findTimestamp (m_possibleTimestamps p) (m_labels desc) with
    | Some timeStamp => with_activeTimestamp timeStamp p
    | None => p
    end in
  let desc1 :=
    if ts_valid (m_activeTimestamp p1) then finalize (m_activeTimestamp p1) desc else desc in
  with_descriptorForDeferredStorage (m_descriptorForDeferredStorage p1 ++ [desc1]) p1.

(** The [foreach] of [extendedStoreDescriptor]: every deferred descriptor is
    stored, whatever the earlier ones returned. *)
Fixpoint storeDeferred (queue : list typeDescriptor) (rc : bool) (p : BinLogParser)
    : bool * BinLogParser :=
  match queue with
  | [] => (rc, p)
  | descriptor :: rest =>
      let '(localRc, p1) := storeDescriptor descriptor p in
      storeDeferred rest (rc && localRc) p1
  end.

Definition extendedStoreDescriptor (desc : typeDescriptor) (p : BinLogParser)
    : bool * BinLogParser :=
  let '(rc, p1) := storeDeferred (m_descriptorForDeferredStorage p) true p in
  let p2 := with_descriptorForDeferredStorage [] p1 in
  if rc then storeDescriptor desc p2 else (rc, p2).

(** *** The vehicle kind *)

Definition detectMavType (valuepairlist : list NameValuePair) (p : BinLogParser)
    : option BinLogParser :=
  let nameIndex := findName valuepairlist 0 in
  entry ← valuepairlist !! nameIndex;
  let v := snd entry in
  let p1 :=
    if variantEqText v "RATE_RLL_P" || variantEqText v "H_SWASH_PLATE"
       || variantEqText v "ATC_RAT_RLL_P"
    then with_loadedLogType MAV_TYPE_QUADROTOR p
    else if variantEqText v "PTCH2SRV_P" then with_loadedLogType MAV_TYPE_FIXED_WING p
    else if variantEqText v "SKID_STEER_OUT" then with_loadedLogType MAV_TYPE_GROUND_ROVER p
    else p in
  Some (match m_loadedLogType p1 with
        | MAV_TYPE_GENERIC => p1
        | t => with_logLoadingState (setMavType t (m_logLoadingState p1)) p1
        end).

(** *** The record loop and the refill loop of [parse] *)

(** The FMT branch of the loop body, after [parseFMTMessage] succeeded. *)
Definition fmtBranch (descriptor : typeDescriptor) (p : BinLogParser) : Flow :=
  let descriptor1 :=
    if decide (m_name descriptor = "GPS"%string)
    then replaceLabelName "TimeMS" "GPSTimeMS" descriptor else descriptor in
  if ts_valid (m_activeTimestamp p) then
    let descriptor2 := finalize (m_activeTimestamp p) descriptor1 in
    let '(rc, p1) := extendedStoreDescriptor descriptor2 p in
    if rc then Continue p1 else Return p1
  else Continue (checkForValidTimestamp descriptor1 p).

(** The data branch of the loop body, for the descriptor that the registry
    holds for the message type. *)
Definition dataBranch (descriptor : typeDescriptor) (p : BinLogParser) : option Flow :=
  let '(parsed, NameValuePairList, p1) := parseDataByDescriptor [] descriptor p in
  if parsed then
    if decide (lsize NameValuePairList >= 1) then
      '(stored, NameValuePairList1, p2) ←
        storeNameValuePairList NameValuePairList descriptor p1;
      if (stored : bool) then
        if decide (m_loadedLogType p2 = MAV_TYPE_GENERIC
                   /\ m_name descriptor = "PARM"%string)
        then p3 ← detectMavType NameValuePairList1 p2; Some (Continue p3)
        else Some (Continue p2)
      else Some (Return p2)
    else Some (Continue (corruptDataRead MsgNoValues p1))
  else Some (Break p1).

(** One pass through the body of the inner [while]. *)
Definition parseBody (p : BinLogParser) : option Flow :=
  '(valid, p1) ← headerIsValid p;
  if negb valid then Some (Continue (with_noMessageBytes (int_incr (noMessageBytes p1)) p1))
  else if decide (m_messageType p1 = s_FMTMessageType) then
    '(parsed, descriptor, p2) ← parseFMTMessage newDescriptor p1;
    if (parsed : bool) then Some (fmtBranch descriptor p2) else Some (Break p2)
  else
    match m_typeToDescriptorMap p1 !! m_messageType p1 with
    | Some descriptor => dataBranch descriptor p1
    | None =>
        Some (Continue (corruptDataRead (MsgNoDescriptor (m_messageType p1)) p1))
    end.

Definition recordGuard (p : BinLogParser) : bool :=
  bool_decide (size (m_dataBlock p) - m_dataPos p > s_MinHeaderSize) && negb (m_stop p).

(** The inner [while]; [fuel] bounds the number of passes. *)
Fixpoint recordLoop (fuel : nat) (p : BinLogParser) : Outcome :=
  if recordGuard p then
    match fuel with
    | O => OutOfFuel
    | S k =>
        match parseBody p with
        | None => Undefined
        | Some (Continue p1) => recordLoop k p1
        | Some (Break p1) => Done ShortRead p1
        | Some (Return p1) => Done Fatal p1
        end
    end
  else Done GuardFalse p.

(** The head of the outer [while]: drop the bytes more than
    [s_MinHeaderSize] behind the cursor, append the next read, rewind. *)
Definition refill (chunk : list byte) (p : BinLogParser) : BinLogParser :=
  let p1 :=
    if decide (m_dataPos p > s_MinHeaderSize)
    then with_dataBlock (remove0 (m_dataBlock p) (m_dataPos p - s_MinHeaderSize)) p
    else p in
  with_dataPos 0 (with_dataBlock (m_dataBlock p1 ++ chunk) p1).

(** The outer [while].  The log file is the list of the blocks that the
    successive [read(8192)] return; [atEnd] holds when none is left.  [pos]
    and [total] are [logfile.pos()] and [logfile.size()]. *)
Fixpoint readLoop (pos total : Z) (chunks : list (list byte)) (p : BinLogParser) : Outcome :=
  match chunks with
  | [] => Done GuardFalse p
  | chunk :: rest =>
      if m_stop p then Done GuardFalse p
      else
        let p1 := with_callbackObject (onProgress pos total (m_callbackObject p)) p in
        let p2 := refill chunk p1 in
        match recordLoop (S (length (m_dataBlock p2))) p2 with
        | Done Fatal p3 => Done Fatal p3
        | Done _ p3 => readLoop (pos + size chunk) total rest p3
        | Undefined => Undefined
        | OutOfFuel => OutOfFuel
        end
  end.

(** [parse]: it returns at once when the data model or the callback is
    missing; otherwise it runs the loops between the start and the end of
    one transaction of the sink. *)
Definition parse (chunks : list (list byte)) (p : BinLogParser) : Outcome :=
  if null_dataModel p || null_callbackObject p then Done NullPointer p
  else
  let '(started, m) := startTransaction (m_dataModel p) in
  let p0 := with_dataModel m p in
  if negb started then
    Done Fatal (with_callbackObject (onError (dm_error m) (m_callbackObject p0)) p0)
  else
    match readLoop 0 (size (concat chunks)) chunks (with_noMessageBytes 0 p0) with
    | Done Fatal p1 => Done Fatal p1
    | Done _ p1 =>
        let p2 :=
          if decide (noMessageBytes p1 > 0)
          then with_logLoadingState
                 (setNoMessageBytes (noMessageBytes p1) (m_logLoadingState p1)) p1
          else p1 in
        let '(ended, m2) := endTransaction (m_dataModel p2) in
        let p3 := with_dataModel m2 p2 in
        if negb ended then
          Done Fatal (with_callbackObject (onError (dm_error m2) (m_callbackObject p3)) p3)
        else
          Done GuardFalse
            (with_dataModel
               (setAllRowsHaveTime (ts_name (m_activeTimestamp p3))
                  (ts_divisor (m_activeTimestamp p3)) (m_dataModel p3)) p3)
    | Undefined => Undefined
    | OutOfFuel => OutOfFuel
    end.

(** ** Notions used to state the properties of the parser *)

(** What a run of the parser only ever extends. *)
Record extends (p p' : BinLogParser) : Prop := {
  ext_registry : m_typeToDescriptorMap p ⊆ m_typeToDescriptorMap p';
  ext_lastValid : m_lastValidTimeStamp p <= m_lastValidTimeStamp p';
  ext_stop : m_stop p' = m_stop p;
  ext_possible : m_possibleTimestamps p' = m_possibleTimestamps p;
  ext_active :
    ts_valid (m_activeTimestamp p) = true -> m_activeTimestamp p' = m_activeTimestamp p;
  ext_progress :
    cb_progress (m_callbackObject p) `prefix_of` cb_progress (m_callbackObject p');
  ext_rows : dm_rows (m_dataModel p) `prefix_of` dm_rows (m_dataModel p');
  ext_types : dm_types (m_dataModel p) `prefix_of` dm_types (m_dataModel p');
  ext_incidents :
    incidents (m_logLoadingState p) `prefix_of` incidents (m_logLoadingState p')
}.

(** The parser that a pass of the loop body leaves. *)
Definition flowState (f : Flow) : BinLogParser :=
  match f with Continue p | Break p | Return p => p end.

(** What [storeDescriptor] forwards to the sink. *)
Definition forwarded (timeStamp : timeStampType) (desc : typeDescriptor) : SinkType :=
  sinkTypeOf (if hasNoTimestamp desc then addTimeStampField timeStamp desc else desc).

(** The descriptors of a queue that [storeDescriptor] puts into the
    registry when they are stored one after the other: the valid ones whose
    id is not taken by then, in the order of the queue. *)
Fixpoint inserted (registry : gmap Z typeDescriptor) (queue : list typeDescriptor)
    : list typeDescriptor :=
  match queue with
  | [] => []
  | d :: rest =>
      if isValid s_STRTMessageType d && bool_decide (registry !! m_ID d = None)
      then d :: inserted (<[m_ID d := d]> registry) rest
      else inserted registry rest
  end.

(** The registry with the descriptors of a list under their ids. *)
Definition registered (registry : gmap Z typeDescriptor) (l : list typeDescriptor)
    : gmap Z typeDescriptor :=
  foldl (fun r d => <[m_ID d := d]> r) registry l.

(** The descriptors that are forwarded to the sink: all but the one of the
    FMT records. *)
Definition toSink (l : list typeDescriptor) : list typeDescriptor :=
  filter (fun d => m_ID d <> s_FMTMessageType) l.

(** The sink is asked for the type of the descriptor and refuses it. *)
Definition refused (p : BinLogParser) (d : typeDescriptor) : Prop :=
  isValid s_STRTMessageType d = true
  /\ m_typeToDescriptorMap p !! m_ID d = None
  /\ m_ID d <> s_FMTMessageType
  /\ addType_err (m_dataModel p) (forwarded (m_activeTimestamp p) d) <> None.

(** The buffer and the cursor are the same. *)
Definition sameBuffer (p p' : BinLogParser) : Prop :=
  m_dataBlock p' = m_dataBlock p /\ m_dataPos p' = m_dataPos p.

(** The value of the first field with a given label. *)
Fixpoint valueOf (label : string) (l : list NameValuePair) : option QVariant :=
  match l with
  | [] => None
  | entry :: rest =>
      if decide (fst entry = label) then Some (snd entry) else valueOf label rest
  end.

(** The timestamp of a row of the sink: the raw integer of the field that
    carries the time label of the row. *)
Definition rowTime (r : SinkRow) : option Z :=
  toULongLong <$> valueOf (row_timeLabel r) (row_values r).

(** The rows are in time order, from [lo] on. *)
Fixpoint rowsOrdered (lo : Z) (rows : list SinkRow) : Prop :=
  match rows with
  | [] => True
  | r :: rest => exists t, rowTime r = Some t /\ lo <= t /\ rowsOrdered t rest
  end.

Definition rowsBelow (hi : Z) (rows : list SinkRow) : Prop :=
  Forall (fun r => exists t, rowTime r = Some t /\ t <= hi) rows.

(** A descriptor agrees with a timestamp convention: its flag is set
    exactly when its labels have the name, and the index is the first
    position of the name. *)
Definition finalizedFor (timeStamp : timeStampType) (d : typeDescriptor) : Prop :=
  if m_hasTimeStamp d
  then m_timeStampIndex d = indexOf (m_labels d) (ts_name timeStamp)
       /\ m_timeStampIndex d <> -1
  else ts_name timeStamp ∉ m_labels d.

Definition unflagged (candidates : list timeStampType) (d : typeDescriptor) : Prop :=
  findTimestamp candidates (m_labels d) = None /\ m_hasTimeStamp d = false.

Record Inv (p : BinLogParser) : Prop := {
  inv_pos : 0 <= m_dataPos p;
  inv_last : 0 <= m_lastValidTimeStamp p < 2 ^ 64;
  inv_possible : Forall (fun t => ts_valid t = true) (m_possibleTimestamps p);
  inv_registry : forall id d,
    m_typeToDescriptorMap p !! id = Some d ->
    m_ID d = id /\ isValid s_STRTMessageType d = true
    /\ finalizedFor (m_activeTimestamp p) d;
  inv_pending :
    if ts_valid (m_activeTimestamp p)
    then Forall (finalizedFor (m_activeTimestamp p)) (m_descriptorForDeferredStorage p)
    else Forall (unflagged (m_possibleTimestamps p)) (m_descriptorForDeferredStorage p)
         /\ m_typeToDescriptorMap p = ∅;
  inv_rows :
    rowsOrdered 0 (dm_rows (m_dataModel p))
    /\ rowsBelow (m_lastValidTimeStamp p) (dm_rows (m_dataModel p))
}.


(** The number of CorruptTime incidents of a Status. *)
Definition countTime (l : list Incident) : Z := lsize (List.filter isCorruptTime l).

(** The bookkeeping that every step of a run keeps: the message counter and
    the count of valid rows follow the sink, the vehicle kind is detected
    once, the count of time errors saturates, and the active timestamp comes
    from the candidates. *)
Record accounts (p p' : BinLogParser) : Prop := {
  acc_counter :
    m_MessageCounter p' - m_MessageCounter p =
    (lsize (dm_types (m_dataModel p')) - lsize (dm_types (m_dataModel p)))
    + (lsize (dm_rows (m_dataModel p')) - lsize (dm_rows (m_dataModel p)));
  acc_valid :
    validData (m_logLoadingState p') - validData (m_logLoadingState p) =
    lsize (dm_rows (m_dataModel p')) - lsize (dm_rows (m_dataModel p));
  acc_kind :
    m_loadedLogType p <> MAV_TYPE_GENERIC ->
    m_loadedLogType p' = m_loadedLogType p
    /\ statusMavType (m_logLoadingState p') = statusMavType (m_logLoadingState p);
  acc_generic :
    m_loadedLogType p' = MAV_TYPE_GENERIC ->
    statusMavType (m_logLoadingState p') = statusMavType (m_logLoadingState p);
  acc_detected :
    m_loadedLogType p = MAV_TYPE_GENERIC ->
    m_loadedLogType p' <> MAV_TYPE_GENERIC ->
    statusMavType (m_logLoadingState p') = m_loadedLogType p';
  acc_timeErr : m_timeErrorCount p <= m_timeErrorCount p';
  acc_timeCap : m_timeErrorCount p <= 51 -> m_timeErrorCount p' <= 51;
  acc_timeInc :
    m_timeErrorCount p' - m_timeErrorCount p <=
    countTime (incidents (m_logLoadingState p')) - countTime (incidents (m_logLoadingState p));
  acc_possible : m_possibleTimestamps p' = m_possibleTimestamps p;
  acc_active :
    m_activeTimestamp p' = m_activeTimestamp p
    \/ (ts_valid (m_activeTimestamp p) = false
        /\ m_activeTimestamp p' ∈ m_possibleTimestamps p)
}.

(** The number of bytes of the buffer from the cursor on. *)
Definition unread (p : BinLogParser) : Z :=
  Z.max 0 (size (m_dataBlock p) - m_dataPos p).

(** Whether the header test at the cursor fails: 1 if it does. *)
Definition failedHeader (p : BinLogParser) : nat :=
  match headerIsValid p with
  | Some (false, _) => 1
  | _ => 0
  end.

(** What a step does to the callback and to the transaction of the sink:
    [ok] tells whether the sink accepted everything, [n] is the number of
    times that a non-message byte was counted and [calls] are the progress
    calls that were made.  An error is reported exactly when the
    transaction is ended in the step. *)
Record effects (ok : bool) (n : nat) (calls : list (Z * Z)) (p p' : BinLogParser) : Prop := {
  eff_progress :
    cb_progress (m_callbackObject p') = cb_progress (m_callbackObject p) ++ calls;
  eff_nomsg : noMessageBytes p' = Nat.iter n int_incr (noMessageBytes p);
  eff_status :
    statusNoMessageBytes (m_logLoadingState p')
    = statusNoMessageBytes (m_logLoadingState p);
  eff_started : dm_started (m_dataModel p') = dm_started (m_dataModel p);
  eff_rowsHaveTime :
    dm_allRowsHaveTime (m_dataModel p') = dm_allRowsHaveTime (m_dataModel p);
  eff_errors : cb_errors (m_callbackObject p) `prefix_of` cb_errors (m_callbackObject p');
  eff_balance :
    lsize (cb_errors (m_callbackObject p')) - lsize (cb_errors (m_callbackObject p)) =
    Z.of_nat (dm_ended (m_dataModel p')) - Z.of_nat (dm_ended (m_dataModel p));
  eff_sink :
    if ok
    then lsize (cb_errors (m_callbackObject p')) = lsize (cb_errors (m_callbackObject p))
    else lsize (cb_errors (m_callbackObject p)) < lsize (cb_errors (m_callbackObject p'))
}.

(** A float that is a number. *)
Definition isNumber (v : QVariant) : Prop :=
  match v with VFloat bits => isNaN bits = false | _ => True end.

(** A type of the sink is what [storeDescriptor] forwards for the
    descriptor that the registry holds for its id. *)
Definition typeOK (p : BinLogParser) (t : SinkType) : Prop :=
  sk_id t <> s_FMTMessageType
  /\ exists d, m_typeToDescriptorMap p !! sk_id t = Some d
               /\ t = forwarded (m_activeTimestamp p) d.

(** A row of the sink carries the active time label, holds no NaN, and has
    the name and the labels of a type of the sink. *)
Definition rowOK (p : BinLogParser) (r : SinkRow) : Prop :=
  row_timeLabel r = ts_name (m_activeTimestamp p)
  /\ Forall (fun entry : NameValuePair => isNumber (snd entry)) (row_values r)
  /\ exists t, t ∈ dm_types (m_dataModel p) /\ sk_name t = row_type r
               /\ sk_labels t = (row_values r).*1.

Record SinkInv (p : BinLogParser) : Prop := {
  snk_types : Forall (typeOK p) (dm_types (m_dataModel p));
  snk_nodup : NoDup (sk_id <$> dm_types (m_dataModel p));
  snk_rows : Forall (rowOK p) (dm_rows (m_dataModel p));
  snk_pending : ts_valid (m_activeTimestamp p) = false -> dm_rows (m_dataModel p) = []
}.

(** Every descriptor of the registry, but the one of the FMT records, has
    been forwarded to the sink. *)
Definition Complete (p : BinLogParser) : Prop :=
  forall id d,
    m_typeToDescriptorMap p !! id = Some d -> id <> s_FMTMessageType ->
    forwarded (m_activeTimestamp p) d ∈ dm_types (m_dataModel p).

(** The registry, the active timestamp and the content of the sink are the
    same. *)
Definition sameSink (p p' : BinLogParser) : Prop :=
  m_typeToDescriptorMap p' = m_typeToDescriptorMap p
  /\ m_activeTimestamp p' = m_activeTimestamp p
  /\ dm_types (m_dataModel p') = dm_types (m_dataModel p)
  /\ dm_rows (m_dataModel p') = dm_rows (m_dataModel p).

(** ** Properties *)

(** *** What the member functions leave alone *)

Lemma size_nonneg (block : list byte) : 0 <= size block.
Proof. unfold size. lia. Qed.

Lemma size_app (a b : list byte) : size (a ++ b) = size a + size b.
Proof. unfold size. rewrite length_app. lia. Qed.

Lemma size_drop (n : nat) (block : list byte) :
  (n <= length block)%nat -> size (drop n block) = size block - Z.of_nat n.
Proof. intros Hn. unfold size. rewrite length_drop. lia. Qed.

Lemma at_Some (block : list byte) (pos : Z) (b : byte) :
  at_ block pos = Some b -> 0 <= pos < size block.
Proof.
  unfold at_, size. intros H. destruct (decide (0 <= pos)) as [Hpos|]; [|discriminate].
  apply lookup_lt_Some in H. lia.
Qed.

Lemma at_defined (block : list byte) (pos : Z) :
  0 <= pos < size block -> exists b, at_ block pos = Some b.
Proof.
  unfold at_, size. intros [H0 H1]. destruct (decide (0 <= pos)); [|lia].
  destruct (lookup_lt_is_Some_2 block (Z.to_nat pos)) as [b Hb]; [lia|]. eauto.
Qed.

(** The decoding loop touches the Status only. *)
Lemma decodeFields_frame desc format : forall i stream acc p,
  exists s, snd (decodeFields desc i format stream acc p) = with_logLoadingState s p.
Proof.
  induction format as [|typeCode rest IH]; intros i stream acc p; simpl.
  - exists (m_logLoadingState p). by destruct p.
  - destruct (decodeField typeCode stream) as [[val| |] s].
    + apply IH.
    + eexists. reflexivity.
    + eexists. reflexivity.
Qed.

Lemma headerIsValid_frame p valid p' :
  headerIsValid p = Some (valid, p') ->
  exists n t, p' = with_messageType t (with_dataPos (m_dataPos p + n) p)
    /\ 0 <= m_dataPos p /\ m_dataPos p + n <= size (m_dataBlock p)
    /\ (if valid then n = 3 /\ t = m_messageType p' else (n = 1 \/ n = 2) /\ t = 0).
Proof.
  unfold headerIsValid. intros H.
  destruct (at_ (m_dataBlock p) (m_dataPos p)) as [b1|] eqn:E1; [|discriminate].
  apply at_Some in E1. simpl in H.
  destruct (decide (u8 b1 = s_StartByte1)).
  - destruct (at_ (m_dataBlock p) (m_dataPos p + 1)) as [b2|] eqn:E2; [|discriminate].
    apply at_Some in E2. simpl in H.
    destruct (decide (u8 b2 = s_StartByte2)).
    + destruct (at_ (m_dataBlock p) (m_dataPos p + 1 + 1)) as [b3|] eqn:E3; [|discriminate].
      apply at_Some in E3. simpl in H. inversion H; subst; clear H.
      exists 3, (u8 b3). simpl. repeat split; try lia.
      f_equal. destruct p; simpl. unfold with_dataPos; simpl. f_equal. lia.
    + inversion H; subst; clear H. exists 2, 0. simpl. repeat split; try lia.
      f_equal. destruct p; simpl. unfold with_dataPos; simpl. f_equal. lia.
  - inversion H; subst; clear H. exists 1, 0. simpl. repeat split; try lia.
Qed.

(** *** The body of a data record is consumed whole *)

Lemma parseDataByDescriptor_short l desc p :
  size (m_dataBlock p) - m_dataPos p < m_length desc - s_HeaderOffset ->
  parseDataByDescriptor l desc p = (false, l, p).
Proof.
  intros H. unfold parseDataByDescriptor. by destruct (decide _); [|lia].
Qed.

Lemma parseDataByDescriptor_full l desc p :
  m_length desc - s_HeaderOffset <= size (m_dataBlock p) - m_dataPos p ->
  exists l' s,
    parseDataByDescriptor l desc p =
      (true, l',
       with_dataPos 0
         (with_dataBlock
            (drop (Z.to_nat (m_dataPos p + (m_length desc - s_HeaderOffset))) (m_dataBlock p))
            (with_logLoadingState s p)))
    /\ (l', with_logLoadingState s p) =
       decodeFields desc 0 (list_ascii_of_string (m_format desc))
         (mid (m_dataBlock p) (m_dataPos p) (m_length desc - s_HeaderOffset)) [] p.
Proof.
  intros H. unfold parseDataByDescriptor. destruct (decide _); [lia|].
  destruct (decodeFields_frame desc (list_ascii_of_string (m_format desc)) 0
              (mid (m_dataBlock p) (m_dataPos p) (m_length desc - s_HeaderOffset)) [] p)
    as [s Hs].
  destruct (decodeFields _ _ _ _ _ _) as [l' p1]. simpl in Hs. subst p1.
  exists l', s. split; [|reflexivity]. simpl. unfold remove0.
  do 3 f_equal. f_equal. lia.
Qed.

(** *** What a run of the parser only ever extends *)

Lemma extends_refl p : extends p p.
Proof. split; done. Qed.

Lemma extends_trans p1 p2 p3 : extends p1 p2 -> extends p2 p3 -> extends p1 p3.
Proof.
  intros [] []. split; try (etrans; eassumption); try congruence; try lia.
  intros Hv. rewrite <- ext_active0 by done. apply ext_active1. by rewrite ext_active0.
Qed.

Ltac ext_now :=
  split; simpl;
  try solve [ done | lia | apply prefix_app_r; done
            | apply insert_subseteq; done ].

Lemma extends_fatal p : extends p (fatal p).
Proof.
  unfold fatal, endTransaction. destruct (endTransaction_err _); ext_now.
Qed.

Lemma extends_decodeFields desc format i stream acc p :
  extends p (snd (decodeFields desc i format stream acc p)).
Proof.
  revert i stream acc. induction format as [|c rest IH]; intros i stream acc; simpl.
  - apply extends_refl.
  - destruct (decodeField c stream) as [[v| |] s]; [apply IH| |]; ext_now.
Qed.

Lemma extends_headerIsValid p valid p' :
  headerIsValid p = Some (valid, p') -> extends p p'.
Proof.
  intros H. apply headerIsValid_frame in H as (n & t & -> & _). ext_now.
Qed.

Lemma parseFMTMessage_frame desc p parsed desc' p' :
  parseFMTMessage desc p = Some (parsed, desc', p') ->
  m_hasTimeStamp desc' = m_hasTimeStamp desc
  /\ m_timeStampIndex desc' = m_timeStampIndex desc
  /\ 0 <= m_length desc' <= 255
  /\ 0 <= m_dataPos p /\ m_dataPos p + 2 <= size (m_dataBlock p)
  /\ if parsed
     then p' = with_dataPos 0
                 (with_dataBlock
                    (drop (Z.to_nat (m_dataPos p + 86)) (m_dataBlock p)) p)
          /\ m_length desc' - 5 <= size (m_dataBlock p) - (m_dataPos p + 2)
     else p' = with_dataPos (m_dataPos p + 2) p
          /\ size (m_dataBlock p) - (m_dataPos p + 2) < m_length desc' - 5.
Proof.
  unfold parseFMTMessage. intros H.
  destruct (at_ (m_dataBlock p) (m_dataPos p)) as [bID|] eqn:E1; [|discriminate].
  destruct (at_ (m_dataBlock p) (m_dataPos p + 1)) as [bLen|] eqn:E2; [|discriminate].
  apply at_Some in E1, E2. simpl in H.
  assert (Hu : 0 <= u8 bLen <= 255) by (unfold u8; destruct bLen; simpl; lia).
  unfold s_HeaderOffset, s_FMTNameSize, s_FMTFormatSize, s_FMTLabelsSize in H.
  destruct (decide _) as [Hs|Hs] in H; inversion H; subst; clear H; simpl;
    unfold s_HeaderOffset in Hs; simpl in Hs.
  - split_and!; try done; lia.
  - split_and!; try done; try lia.
    destruct p; cbn. unfold with_dataPos, with_dataBlock, remove0; cbn.
    do 2 f_equal. lia.
Qed.

Lemma extends_parseFMTMessage desc p parsed desc' p' :
  parseFMTMessage desc p = Some (parsed, desc', p') -> extends p p'.
Proof.
  intros H. apply parseFMTMessage_frame in H as (_ & _ & _ & _ & _ & H).
  destruct parsed; destruct H as [-> _]; ext_now.
Qed.

Lemma extends_storeDescriptor desc p :
  extends p (snd (storeDescriptor desc p)).
Proof.
  unfold storeDescriptor.
  destruct (isValid _ desc); [|ext_now].
  destruct (m_typeToDescriptorMap p !! m_ID desc) eqn:E; [ext_now|].
  destruct (decide _); [|ext_now].
  unfold addType. simpl.
  destruct (addType_err _ _); simpl.
  - eapply extends_trans; [|apply extends_fatal]. ext_now.
  - ext_now.
Qed.

Lemma extends_storeDeferred queue : forall rc p,
  extends p (snd (storeDeferred queue rc p)).
Proof.
  induction queue as [|d rest IH]; intros rc p; simpl.
  - apply extends_refl.
  - pose proof (extends_storeDescriptor d p) as H.
    destruct (storeDescriptor d p) as [localRc p1]. simpl in H.
    eapply extends_trans; [exact H|apply IH].
Qed.

Lemma extends_extendedStoreDescriptor desc p :
  extends p (snd (extendedStoreDescriptor desc p)).
Proof.
  unfold extendedStoreDescriptor.
  pose proof (extends_storeDeferred (m_descriptorForDeferredStorage p) true p) as H.
  destruct (storeDeferred _ _ _) as [rc p1]. simpl in H.
  assert (H2 : extends p (with_descriptorForDeferredStorage [] p1)).
  { eapply extends_trans; [exact H|]. ext_now. }
  destruct rc; [|exact H2].
  eapply extends_trans; [exact H2|apply extends_storeDescriptor].
Qed.

Lemma extends_parseDataByDescriptor l desc p :
  extends p (snd (parseDataByDescriptor l desc p)).
Proof.
  unfold parseDataByDescriptor. destruct (decide _); [apply extends_refl|].
  pose proof (extends_decodeFields desc (list_ascii_of_string (m_format desc)) 0
                (mid (m_dataBlock p) (m_dataPos p) (m_length desc - s_HeaderOffset)) [] p) as H.
  destruct (decodeFields _ _ _ _ _ _) as [l' p1]. simpl in *.
  eapply extends_trans; [exact H|]. ext_now.
Qed.

Lemma extends_readTimeStamp l idx p l' p' :
  readTimeStamp l idx p = Some (l', p') -> extends p p'.
Proof.
  unfold readTimeStamp. intros H.
  destruct (decide (0 <= idx)); [|discriminate].
  destruct (l !! Z.to_nat idx) as [entry|]; [|discriminate]. simpl in H.
  destruct (decide (_ >= _)); inversion H; subst; clear H; [ext_now|].
  repeat destruct (decide _); ext_now.
Qed.

Lemma extends_storeNameValuePairList l desc p stored l' p' :
  storeNameValuePairList l desc p = Some (stored, l', p') -> extends p p'.
Proof.
  unfold storeNameValuePairList. intros H.
  assert (Hstep : forall l1 p1, extends p p1 ->
            (let row := {| row_type := m_name desc; row_values := l1;
                           row_timeLabel := ts_name (m_activeTimestamp p1) |} in
             let '(ok, m) := addRow row (m_dataModel p1) in
             if ok then
               let p2 := with_dataModel m p1 in
               let p3 := with_MessageCounter (m_MessageCounter p2 + 1) p2 in
               Some (true, l1, with_logLoadingState (validDataRead (m_logLoadingState p3)) p3)
             else Some (false, l1, fatal (with_dataModel m p1)))
            = Some (stored, l', p') -> extends p p').
  { intros l1 p1 Hext. unfold addRow. simpl.
    destruct (addRow_err _ _); simpl; intros Heq; inversion Heq; subst; clear Heq.
    - eapply extends_trans; [exact Hext|].
      eapply extends_trans; [|apply extends_fatal]. ext_now.
    - eapply extends_trans; [exact Hext|]. ext_now. }
  destruct (hasNoTimestamp desc).
  - simpl in H. eapply Hstep; [apply extends_refl|exact H].
  - destruct (readTimeStamp l (m_timeStampIndex desc) p) as [[l1 p1]|] eqn:E; [|discriminate].
    simpl in H. eapply Hstep; [|exact H]. eapply extends_readTimeStamp; eauto.
Qed.

Lemma extends_checkForValidTimestamp desc p :
  ts_valid (m_activeTimestamp p) = false ->
  extends p (checkForValidTimestamp desc p).
Proof.
  intros Hv. unfold checkForValidTimestamp.
  destruct (findTimestamp _ _); split; simpl; try done; congruence.
Qed.

Lemma extends_detectMavType l p p' :
  detectMavType l p = Some p' -> extends p p'.
Proof.
  unfold detectMavType. intros H.
  destruct (l !! findName l 0) as [entry|]; [|discriminate]. simpl in H.
  inversion H; subst; clear H.
  repeat match goal with
         | |- context [if ?b then _ else _] => destruct b
         end; simpl; try destruct (m_loadedLogType p); ext_now.
Qed.

Lemma extends_fmtBranch descriptor p : extends p (flowState (fmtBranch descriptor p)).
Proof.
  unfold fmtBranch.
  destruct (ts_valid (m_activeTimestamp p)) eqn:Hv.
  - match goal with
    | |- context [extendedStoreDescriptor ?d p] =>
        pose proof (extends_extendedStoreDescriptor d p) as H;
        destruct (extendedStoreDescriptor d p) as [[] p1]
    end; exact H.
  - simpl. by apply extends_checkForValidTimestamp.
Qed.

Lemma extends_dataBranch descriptor p f :
  dataBranch descriptor p = Some f -> extends p (flowState f).
Proof.
  unfold dataBranch. intros H.
  pose proof (extends_parseDataByDescriptor [] descriptor p) as H1.
  destruct (parseDataByDescriptor [] descriptor p) as [[parsed l] p1]. simpl in H1.
  destruct parsed; [|by inversion H; subst].
  destruct (decide (lsize l >= 1)).
  - destruct (storeNameValuePairList l descriptor p1) as [[[stored l1] p2]|] eqn:E;
      [|discriminate].
    apply extends_storeNameValuePairList in E. simpl in H.
    destruct stored.
    + destruct (decide _).
      * destruct (detectMavType l1 p2) as [p3|] eqn:E3; [|discriminate].
        apply extends_detectMavType in E3. inversion H; subst; simpl.
        eauto using extends_trans.
      * inversion H; subst; simpl. eauto using extends_trans.
    + inversion H; subst; simpl. eauto using extends_trans.
  - inversion H; subst; simpl. eapply extends_trans; [exact H1|]. ext_now.
Qed.

Lemma extends_parseBody p f : parseBody p = Some f -> extends p (flowState f).
Proof.
  unfold parseBody. intros H.
  destruct (headerIsValid p) as [[valid p1]|] eqn:E; [|discriminate].
  apply extends_headerIsValid in E. simpl in H.
  destruct valid; simpl in H.
  - destruct (decide (m_messageType p1 = s_FMTMessageType)).
    + destruct (parseFMTMessage newDescriptor p1) as [[[parsed d] p2]|] eqn:E2;
        [|discriminate].
      apply extends_parseFMTMessage in E2. simpl in H.
      destruct parsed; inversion H; subst; simpl; [|eauto using extends_trans].
      eapply extends_trans; [|apply extends_fmtBranch]. eauto using extends_trans.
    + destruct (m_typeToDescriptorMap p1 !! m_messageType p1) as [d|].
      * apply extends_dataBranch in H. eauto using extends_trans.
      * inversion H; subst; simpl. eapply extends_trans; [exact E|]. ext_now.
  - inversion H; subst; simpl. eapply extends_trans; [exact E|]. ext_now.
Qed.

Lemma extends_recordLoop fuel : forall p e p',
  recordLoop fuel p = Done e p' -> extends p p'.
Proof.
  induction fuel as [|k IH]; intros p e p' H; simpl in H.
  - destruct (recordGuard p); [discriminate|]. inversion H; subst. apply extends_refl.
  - destruct (recordGuard p); [|inversion H; subst; apply extends_refl].
    destruct (parseBody p) as [[p1|p1|p1]|] eqn:E; try discriminate;
      apply extends_parseBody in E; simpl in E.
    + eauto using extends_trans.
    + by inversion H; subst.
    + by inversion H; subst.
Qed.

Lemma extends_refill chunk p : extends p (refill chunk p).
Proof. unfold refill. destruct (decide _); ext_now. Qed.

Lemma extends_readLoop chunks : forall pos total p e p',
  readLoop pos total chunks p = Done e p' -> extends p p'.
Proof.
  induction chunks as [|chunk rest IH]; intros pos total p e p' H; cbn [readLoop] in H.
  - inversion H; subst. apply extends_refl.
  - destruct (m_stop p); [inversion H; subst; apply extends_refl|].
    match type of H with
    | context [recordLoop ?n ?q] =>
        destruct (recordLoop n q) as [e1 p3| |] eqn:E; try discriminate;
        assert (Hq : extends p q)
          by (eapply extends_trans; [|apply extends_refill]; ext_now)
    end.
    apply extends_recordLoop in E.
    destruct e1.
    + apply IH in H. eauto using extends_trans.
    + apply IH in H. eauto using extends_trans.
    + inversion H; subst. eauto using extends_trans.
    + apply IH in H. eauto using extends_trans.
Qed.

(** *** The cursor after a data record *)

Lemma headerIsValid_at p b3 :
  at_ (m_dataBlock p) (m_dataPos p) = Some xa3 ->
  at_ (m_dataBlock p) (m_dataPos p + 1) = Some x95 ->
  at_ (m_dataBlock p) (m_dataPos p + 2) = Some b3 ->
  headerIsValid p
  = Some (true, with_messageType (u8 b3) (with_dataPos (m_dataPos p + 3) p)).
Proof.
  intros H1 H2 H3. unfold headerIsValid. rewrite H1. simpl.
  rewrite H2. simpl.
  replace (m_dataPos p + 1 + 1) with (m_dataPos p + 2) by lia. rewrite H3. simpl.
  do 2 f_equal. destruct p; unfold with_messageType, with_dataPos; simpl. f_equal. lia.
Qed.

(** C9.  When the header of a data record has been read and at least
    [m_length - 3] bytes are buffered behind it, [parseDataByDescriptor]
    returns [true] and removes the buffer up to the end of the body, whatever
    the format decodes to (a NaN or an unknown code included): the number of
    bytes behind the cursor is the earlier one less [m_length - 3], and the
    cursor stands on the byte that follows the body.  When a header starts
    there, the next header read is valid: the record, discarded or not,
    causes no resynchronization. *)
Theorem parseDataByDescriptor_consumes_body l desc p :
  s_HeaderOffset <= m_dataPos p ->
  0 <= m_length desc ->
  m_length desc - s_HeaderOffset <= size (m_dataBlock p) - m_dataPos p ->
  exists l' p',
    parseDataByDescriptor l desc p = (true, l', p')
    /\ m_dataPos p' = 0
    /\ m_dataBlock p' =
       drop (Z.to_nat (m_dataPos p + (m_length desc - s_HeaderOffset))) (m_dataBlock p)
    /\ size (m_dataBlock p') - m_dataPos p' =
       size (m_dataBlock p) - m_dataPos p - (m_length desc - s_HeaderOffset)
    /\ (forall i, 0 <= i ->
          at_ (m_dataBlock p') (m_dataPos p' + i) =
          at_ (m_dataBlock p) (m_dataPos p + (m_length desc - s_HeaderOffset) + i))
    /\ (forall b3,
          let next := m_dataPos p + (m_length desc - s_HeaderOffset) in
          at_ (m_dataBlock p) next = Some xa3 ->
          at_ (m_dataBlock p) (next + 1) = Some x95 ->
          at_ (m_dataBlock p) (next + 2) = Some b3 ->
          headerIsValid p'
          = Some (true, with_messageType (u8 b3) (with_dataPos 3 p'))).
Proof.
  intros Hpos Hlen Hbuf.
  destruct (parseDataByDescriptor_full l desc p Hbuf) as (l' & s & Heq & _).
  eexists l', _. split; [exact Heq|]. simpl.
  unfold s_HeaderOffset in *.
  assert (Hat : forall i, 0 <= i ->
            at_ (drop (Z.to_nat (m_dataPos p + (m_length desc - 3))) (m_dataBlock p)) (0 + i) =
            at_ (m_dataBlock p) (m_dataPos p + (m_length desc - 3) + i)).
  { intros i Hi. unfold at_.
    destruct (decide (0 <= 0 + i)); [|lia].
    destruct (decide (0 <= m_dataPos p + (m_length desc - 3) + i)); [|lia].
    rewrite lookup_drop. f_equal. lia. }
  split; [reflexivity|]. split; [reflexivity|]. split; [|split].
  - rewrite size_drop; [lia|]. unfold size in *. lia.
  - exact Hat.
  - intros b3 H1 H2 H3.
    pose proof (Hat 0 ltac:(lia)) as A0. pose proof (Hat 1 ltac:(lia)) as A1.
    pose proof (Hat 2 ltac:(lia)) as A2.
    change (0 + 0) with 0 in A0.
    rewrite Z.add_0_r in A0.
    rewrite (headerIsValid_at _ b3); simpl.
    + reflexivity.
    + by rewrite A0.
    + by rewrite A1.
    + by rewrite A2.
Qed.

(** *** A NaN discards the record *)

Lemma decodeFields_values desc pre : forall i stream acc p rest vals s,
  decodeValues pre stream = Some (vals, s) ->
  decodeFields desc i (pre ++ rest) stream acc p =
  decodeFields desc (i + length pre) rest s (acc ++ labelled desc i vals) p.
Proof.
  induction pre as [|typeCode pre IH]; intros i stream acc p rest vals s H; simpl in *.
  - inversion H; subst. simpl. rewrite app_nil_r. by replace (i + 0)%nat with i by lia.
  - destruct (decodeField typeCode stream) as [[val| |] s1]; try discriminate.
    destruct (decodeValues pre s1) as [[vals1 s2]|] eqn:E; [|discriminate].
    inversion H; subst. rewrite (IH (S i) s1 _ p rest vals1 s E).
    simpl. rewrite <- app_assoc. simpl.
    by replace (i + S (length pre))%nat with (S (i + length pre)) by lia.
Qed.

Lemma decodeField_f_NaN stream :
  isNaN (fst (readRaw 4 stream)) = true ->
  fst (decodeField "f" stream) = NotANumber.
Proof.
  intros H. unfold decodeField.
  repeat match goal with
         | |- context [Ascii.eqb ?a ?b] =>
             let r := eval vm_compute in (Ascii.eqb a b) in
             change (Ascii.eqb a b) with r
         end.
  cbv beta iota.
  destruct (readRaw 4 stream) as [v s]. cbn [fst] in H. rewrite H. reflexivity.
Qed.

(** C3, as the code has it.  Let the format of a registered descriptor be
    [pre ++ "f" :: post], let the fields of [pre] decode to values and let the
    four bytes after them be a NaN.  Then the decoder clears the list and
    leaves the loop at that field, whatever [post] is, with one CorruptData
    incident; the loop body of [parse] finds the list empty and records a
    second CorruptData incident ("No values within data message").  No row
    reaches the sink, the count of valid rows stays, and the record is
    consumed. *)
Theorem nan_record_is_discarded desc p pre post vals s :
  m_length desc - s_HeaderOffset <= size (m_dataBlock p) - m_dataPos p ->
  list_ascii_of_string (m_format desc) = pre ++ "f"%char :: post ->
  decodeValues pre (mid (m_dataBlock p) (m_dataPos p) (m_length desc - s_HeaderOffset))
    = Some (vals, s) ->
  isNaN (fst (readRaw 4 s)) = true ->
  fst (parseDataByDescriptor [] desc p) = (true, [])
  /\ exists p',
      dataBranch desc p = Some (Continue p')
      /\ m_dataModel p' = m_dataModel p
      /\ validData (m_logLoadingState p') = validData (m_logLoadingState p)
      /\ incidents (m_logLoadingState p') =
         incidents (m_logLoadingState p)
         ++ [CorruptData (to_int (m_MessageCounter p)) (MsgCorruptElement (m_name desc));
             CorruptData (to_int (m_MessageCounter p)) MsgNoValues]
      /\ m_dataBlock p' =
         drop (Z.to_nat (m_dataPos p + (m_length desc - s_HeaderOffset))) (m_dataBlock p)
      /\ m_dataPos p' = 0.
Proof.
  intros Hbuf Hfmt Hpre Hnan.
  destruct (parseDataByDescriptor_full [] desc p Hbuf) as (l' & st & Heq & Hdec).
  rewrite Hfmt in Hdec.
  rewrite (decodeFields_values desc pre 0 _ [] p _ vals s Hpre) in Hdec.
  simpl in Hdec. pose proof (decodeField_f_NaN s Hnan) as Hf.
  destruct (decodeField "f" s) as [d s1]. simpl in Hf. subst d.
  inversion Hdec as [[Hl Hst]]. subst l'.
  split; [by rewrite Heq|].
  unfold dataBranch. rewrite Heq. simpl.
  eexists. split; [reflexivity|]. simpl.
  subst st. simpl. rewrite <- app_assoc. simpl. done.
Qed.

(** *** The registry *)

Lemma extends_parse chunks p e p' : parse chunks p = Done e p' -> extends p p'.
Proof.
  unfold parse, startTransaction. intros H.
  destruct (null_dataModel p || null_callbackObject p);
    [inversion H; subst; apply extends_refl|].
  destruct (startTransaction_err (m_dataModel p)); simpl in H.
  - inversion H; subst. ext_now.
  - match type of H with
    | context [readLoop ?a ?b ?c ?q] =>
        destruct (readLoop a b c q) as [e1 p1| |] eqn:E; try discriminate;
        assert (Hq : extends p q) by ext_now
    end.
    apply extends_readLoop in E.
    assert (H1 : extends p p1) by eauto using extends_trans.
    assert (Hfin : forall q1, extends p q1 ->
              (let '(ended, m2) := endTransaction (m_dataModel q1) in
               let p3 := with_dataModel m2 q1 in
               if negb ended
               then Done Fatal
                      (with_callbackObject (onError (dm_error m2) (m_callbackObject p3)) p3)
               else Done GuardFalse
                      (with_dataModel
                         (setAllRowsHaveTime (ts_name (m_activeTimestamp p3))
                            (ts_divisor (m_activeTimestamp p3)) (m_dataModel p3)) p3))
              = Done e p' -> extends p p').
    { intros q1 Hq1. unfold endTransaction.
      destruct (endTransaction_err (m_dataModel q1)); simpl; intros Heq;
        inversion Heq; subst; (eapply extends_trans; [exact Hq1|]); ext_now. }
    destruct e1.
    + eapply Hfin; [|exact H]. destruct (decide _); [|exact H1].
      eapply extends_trans; [exact H1|]. ext_now.
    + eapply Hfin; [|exact H]. destruct (decide _); [|exact H1].
      eapply extends_trans; [exact H1|]. ext_now.
    + by inversion H; subst.
    + eapply Hfin; [|exact H]. destruct (decide _); [|exact H1].
      eapply extends_trans; [exact H1|]. ext_now.
Qed.

(** C7.  [storeDescriptor] inserts the candidate exactly when it passes
    [isValid] and the registry has no descriptor for its id.  A candidate
    whose id is taken changes nothing but the Status, which gets a
    CorruptFMT incident (for a valid candidate "Doubled entry found. Using
    the first one."), so the first descriptor stays.  And whatever a run of
    [parse] does, a descriptor that the registry holds is still there,
    unchanged, at the end. *)
Theorem registry_storage_policy :
  (forall desc p,
     m_typeToDescriptorMap (snd (storeDescriptor desc p)) =
     if isValid s_STRTMessageType desc
        && bool_decide (m_typeToDescriptorMap p !! m_ID desc = None)
     then <[m_ID desc := desc]> (m_typeToDescriptorMap p)
     else m_typeToDescriptorMap p)
  /\ (forall desc p first,
        m_typeToDescriptorMap p !! m_ID desc = Some first ->
        exists msg,
          storeDescriptor desc p = (true, corruptFMTRead msg p)
          /\ (isValid s_STRTMessageType desc = true -> msg = MsgDoubledEntry (m_name desc))
          /\ m_typeToDescriptorMap (snd (storeDescriptor desc p)) !! m_ID desc = Some first
          /\ m_dataModel (snd (storeDescriptor desc p)) = m_dataModel p
          /\ incidents (m_logLoadingState (snd (storeDescriptor desc p))) =
             incidents (m_logLoadingState p)
             ++ [CorruptFMT (to_int (m_MessageCounter p)) msg])
  /\ (forall chunks p e p' id desc,
        parse chunks p = Done e p' ->
        m_typeToDescriptorMap p !! id = Some desc ->
        m_typeToDescriptorMap p' !! id = Some desc).
Proof.
  split_and!.
  - intros desc p. unfold storeDescriptor.
    destruct (isValid _ desc); simpl; [|done].
    destruct (m_typeToDescriptorMap p !! m_ID desc) eqn:E; simpl; [done|].
    destruct (decide _); [|done].
    unfold addType. by destruct (addType_err _ _).
  - intros desc p first Hin. unfold storeDescriptor. rewrite Hin.
    destruct (isValid _ desc); eexists; (split; [reflexivity|]); simpl; done.
  - intros chunks p e p' id desc Hrun Hin.
    apply extends_parse in Hrun. destruct Hrun as [Hreg].
    eapply lookup_weaken; eauto.
Qed.

(** *** The vehicle kind *)

Lemma findName_absent l : forall i,
  Forall (fun entry : NameValuePair => fst entry <> "Name"%string) l -> findName l i = O.
Proof.
  induction l as [|entry rest IH]; intros i H; simpl; [done|].
  inversion H; subst. destruct (decide _); [done|]. by apply IH.
Qed.

Lemma storeNameValuePairList_length l desc p stored l1 p1 :
  storeNameValuePairList l desc p = Some (stored, l1, p1) ->
  (length l <= length l1)%nat.
Proof.
  unfold storeNameValuePairList. intros H.
  assert (Hl : forall l2 p2,
            (if hasNoTimestamp desc
             then Some ((ts_name (m_activeTimestamp p), VUInt (m_lastValidTimeStamp p)) :: l, p)
             else readTimeStamp l (m_timeStampIndex desc) p) = Some (l2, p2) ->
            (length l <= length l2)%nat).
  { intros l2 p2. destruct (hasNoTimestamp desc).
    - intros Heq. inversion Heq; subst. simpl. lia.
    - unfold readTimeStamp. destruct (decide _); [|discriminate].
      destruct (l !! _); [|discriminate]. simpl.
      destruct (decide _); intros Heq; inversion Heq; subst; [done|].
      by rewrite length_insert. }
  destruct (if hasNoTimestamp desc then _ else _) as [[l2 p2]|]; [|discriminate].
  specialize (Hl l2 p2 eq_refl). simpl in H.
  destruct (addRow _ _) as [[] m]; inversion H; subst; done.
Qed.

(** C10.  On a row without a field labelled "Name" the search leaves
    [nameIndex] at 0 and [detectMavType] inspects the value of the first
    field: the result is the one for the row cut down to that field, and a
    first value equal to one of the five parameter names sets the vehicle
    kind.  The first field exists wherever [parse] calls the heuristic: the
    row has at least one value before it is stored, and storing it removes
    none. *)
Theorem detectMavType_falls_back_to_first_field :
  (forall first rest p,
     Forall (fun entry : NameValuePair => fst entry <> "Name"%string) (first :: rest) ->
     exists p',
       detectMavType (first :: rest) p = Some p'
       /\ detectMavType [first] p = Some p'
       /\ (snd first = VString "RATE_RLL_P" \/ snd first = VString "H_SWASH_PLATE"
           \/ snd first = VString "ATC_RAT_RLL_P" ->
           m_loadedLogType p' = MAV_TYPE_QUADROTOR
           /\ statusMavType (m_logLoadingState p') = MAV_TYPE_QUADROTOR)
       /\ (snd first = VString "PTCH2SRV_P" ->
           m_loadedLogType p' = MAV_TYPE_FIXED_WING
           /\ statusMavType (m_logLoadingState p') = MAV_TYPE_FIXED_WING)
       /\ (snd first = VString "SKID_STEER_OUT" ->
           m_loadedLogType p' = MAV_TYPE_GROUND_ROVER
           /\ statusMavType (m_logLoadingState p') = MAV_TYPE_GROUND_ROVER)
       /\ ((forall s, snd first <> VString s) -> m_loadedLogType p' = m_loadedLogType p))
  /\ (forall l desc p stored l1 p1,
        lsize l >= 1 ->
        storeNameValuePairList l desc p = Some (stored, l1, p1) ->
        lsize l1 >= 1 /\ exists p2, detectMavType l1 p1 = Some p2).
Proof.
  split.
  - intros first rest p Hno.
    unfold detectMavType. rewrite (findName_absent _ 0 Hno).
    assert (H1 : findName [first] 0 = O).
    { apply findName_absent. inversion Hno; subst. by constructor. }
    rewrite H1. simpl. eexists. split; [reflexivity|]. split; [reflexivity|].
    split_and!.
    + intros [-> | [-> | ->]]; simpl; done.
    + intros ->; simpl; done.
    + intros ->; simpl; done.
    + intros Hs. destruct (snd first) as [v|v|bits|raw divisor|text] eqn:E; simpl;
        first [ by destruct (Hs text)
              | destruct (m_loadedLogType p) eqn:Ep; simpl; congruence ].
  - intros l desc p stored l1 p1 Hl H.
    apply storeNameValuePairList_length in H. unfold lsize in *.
    split; [lia|].
    unfold detectMavType.
    destruct l1 as [|first rest]; [simpl in H; lia|].
    assert (Hin : is_Some ((first :: rest) !! findName (first :: rest) 0)).
    { apply lookup_lt_is_Some_2.
      assert (Hgen : forall (l : list NameValuePair) i,
                l <> [] -> (findName l i < i + length l)%nat).
      { clear. induction l as [|e r IH]; intros i Hne; [done|]. simpl.
        destruct (decide _); [lia|].
        destruct r as [|e2 r2]; [simpl; lia|].
        specialize (IH (S i) ltac:(done)). simpl in *. lia. }
      specialize (Hgen (first :: rest) O ltac:(done)). simpl in *. lia. }
    destruct Hin as [entry Hentry]. rewrite Hentry. simpl. eauto.
Qed.

(** *** The synthetic timestamp *)

Lemma isValid_length desc :
  isValid s_STRTMessageType desc = true -> m_length desc > 0 /\ m_ID desc <> 255.
Proof.
  unfold isValid. intros H.
  repeat destruct (decide _) in H;
    repeat (apply andb_prop in H as [H ?]);
    repeat match goal with
           | H : bool_decide _ = true |- _ => apply bool_decide_eq_true in H
           | H : negb (bool_decide _) = true |- _ =>
               apply negb_true_iff, bool_decide_eq_false in H
           end; done.
Qed.

Lemma isValid_data desc :
  isValid s_STRTMessageType desc = true ->
  m_ID desc <> s_FMTMessageType ->
  qsize (m_format desc) = lsize (m_labels desc).
Proof.
  unfold isValid. intros H Hid.
  destruct (decide (m_ID desc = s_FMTMessageType)); [done|].
  destruct (decide _) in H;
    repeat (apply andb_prop in H as [H ?]);
    repeat match goal with
           | H : bool_decide _ = true |- _ => apply bool_decide_eq_true in H
           end; done.
Qed.

Lemma length_list_ascii_of_string s :
  length (list_ascii_of_string s) = String.length s.
Proof. induction s as [|c s IH]; simpl; congruence. Qed.

Lemma indexOf_absent labels name : name ∉ labels -> indexOf labels name = -1.
Proof.
  induction labels as [|y rest IH]; intros H; simpl; [done|].
  apply not_elem_of_cons in H as [Hne Hrest].
  destruct (decide (y = name)); [congruence|].
  rewrite (IH Hrest). done.
Qed.

Lemma indexOf_range labels name :
  indexOf labels name = -1 \/ 0 <= indexOf labels name < lsize labels.
Proof.
  unfold lsize. induction labels as [|y rest IH]; simpl; [by left|].
  destruct (decide (y = name)); [right; lia|].
  destruct (decide (indexOf rest name = -1)); [by left|]. right. lia.
Qed.

Lemma indexOf_lookup labels name i :
  indexOf labels name = i -> i <> -1 ->
  labels !! Z.to_nat i = Some name
  /\ forall j, (j < Z.to_nat i)%nat -> forall y, labels !! j = Some y -> y <> name.
Proof.
  revert i. induction labels as [|y rest IH]; intros i Hi Hne; simpl in *; [congruence|].
  destruct (decide (y = name)) as [->|Hy].
  - subst i. split; [done|]. intros j Hj. simpl in Hj. lia.
  - destruct (decide (indexOf rest name = -1)) as [|Hr]; [congruence|].
    destruct (IH _ eq_refl Hr) as [Hl Hb].
    destruct (indexOf_range rest name) as [|Hrange]; [done|].
    subst i. replace (Z.to_nat (indexOf rest name + 1)) with (S (Z.to_nat (indexOf rest name))) by lia.
    split; [done|].
    intros [|j] Hj z Hz; simpl in Hz; [congruence|]. apply (Hb j); [lia|done].
Qed.

Lemma finalize_absent timeStamp desc :
  ts_name timeStamp ∉ m_labels desc -> finalize timeStamp desc = desc.
Proof.
  intros H. unfold finalize. rewrite (indexOf_absent _ _ H). by destruct (decide _).
Qed.

Lemma filter_none {A} (P : A -> Prop) `{forall x, Decision (P x)} (l : list A) :
  Forall (fun x => ~ P x) l -> filter P l = [].
Proof.
  induction 1 as [|x l Hx Hl IH]; [done|]. by rewrite filter_cons_False.
Qed.

(** The labels of the decoded fields are labels of the descriptor, as long
    as the format is not longer than the label list. *)
Lemma decodeFields_labels desc format : forall i stream acc p,
  (i + length format <= length (m_labels desc))%nat ->
  Forall (fun entry : NameValuePair => fst entry ∈ m_labels desc) acc ->
  Forall (fun entry : NameValuePair => fst entry ∈ m_labels desc)
    (fst (decodeFields desc i format stream acc p)).
Proof.
  induction format as [|c rest IH]; intros i stream acc p Hlen Hacc; simpl in *; [done|].
  destruct (decodeField c stream) as [[v| |] s]; simpl; try by constructor.
  apply IH; [lia|]. apply Forall_app. split; [done|]. constructor; [|done]. simpl.
  unfold getLabelAtIndex.
  destruct (lookup_lt_is_Some_2 (m_labels desc) i) as [y Hy]; [lia|].
  rewrite Hy. by eapply list_elem_of_lookup_2.
Qed.


(** *** Short reads *)

Lemma with_dataBlock_id p : with_dataBlock (m_dataBlock p) p = p.
Proof. by destruct p. Qed.

Lemma fmtBranch_not_Break descriptor p p' :
  Some (fmtBranch descriptor p) = Some (Break p') -> False.
Proof.
  unfold fmtBranch. destruct (ts_valid _); [|discriminate].
  destruct (extendedStoreDescriptor _ _) as [[] p1]; discriminate.
Qed.

(** What a short read leaves and what the refill behind it keeps.  When
    the loop body is left on a short read the parser is the one before the
    header but for the cursor, which stands 3 bytes (data record) or 5
    bytes (FMT record: header, id and length) behind the start of the
    header, and for the message type.  The next refill keeps the buffer
    from [s_MinHeaderSize] bytes before that cursor on, appends the new
    block and rewinds the cursor to 0: the buffer resumes exactly at the
    header when the bytes read from the record are exactly
    [s_MinHeaderSize], and inside the record when they are more. *)
Lemma short_read_then_refill p p' chunk :
  parseBody p = Some (Break p') ->
  let consumed := if decide (m_messageType p' = s_FMTMessageType) then 5 else 3 in
  p' = with_messageType (m_messageType p') (with_dataPos (m_dataPos p + consumed) p)
  /\ 0 <= m_dataPos p
  /\ m_dataPos (refill chunk p') = 0
  /\ m_dataBlock (refill chunk p') =
     drop (Z.to_nat (m_dataPos p + consumed - s_MinHeaderSize)) (m_dataBlock p) ++ chunk
  /\ (consumed <= s_MinHeaderSize ->
      exists k, (k <= Z.to_nat (m_dataPos p))%nat
                /\ m_dataBlock (refill chunk p') = drop k (m_dataBlock p) ++ chunk)
  /\ (consumed = s_MinHeaderSize ->
      m_dataBlock (refill chunk p') = drop (Z.to_nat (m_dataPos p)) (m_dataBlock p) ++ chunk).
Proof.
  intros H consumed.
  assert (Hp : p' = with_messageType (m_messageType p') (with_dataPos (m_dataPos p + consumed) p)
               /\ 0 <= m_dataPos p).
  { unfold parseBody in H.
    destruct (headerIsValid p) as [[valid p1]|] eqn:E; [|discriminate].
    apply headerIsValid_frame in E as (n & t & -> & Hpos & _ & Hn). simpl in H.
    destruct valid; simpl in H; [|discriminate]. destruct Hn as [-> _].
    destruct (decide (_ = s_FMTMessageType)) as [Hfmt|Hfmt] in H.
    - match type of H with
      | context [parseFMTMessage ?d ?q] =>
          destruct (parseFMTMessage d q) as [[[parsed d'] p2]|] eqn:E2; [|discriminate]
      end.
      apply parseFMTMessage_frame in E2 as (_ & _ & _ & _ & _ & E2). simpl in H.
      destruct parsed; [by apply fmtBranch_not_Break in H|].
      destruct E2 as [-> _]. inversion H; subst; clear H. simpl.
      subst consumed. simpl. split; [|done].
      destruct p; unfold with_messageType, with_dataPos; simpl. f_equal. lia.
    - destruct (m_typeToDescriptorMap _ !! _) as [d|] eqn:El; [|discriminate].
      unfold dataBranch in H.
      match type of H with
      | context [parseDataByDescriptor [] d ?q] => set (q0 := q) in *
      end.
      destruct (decide (size (m_dataBlock q0) - m_dataPos q0
                        < m_length d - s_HeaderOffset)) as [Hs|Hs].
      + rewrite (parseDataByDescriptor_short [] d q0 Hs) in H.
        inversion H; subst; clear H. subst consumed q0. simpl in *.
        rewrite decide_False by done. done.
      + exfalso.
        destruct (parseDataByDescriptor_full [] d q0) as (l1 & st & Hfull & _); [lia|].
        rewrite Hfull in H.
        destruct (decide (lsize l1 >= 1)); [|discriminate].
        destruct (storeNameValuePairList _ _ _) as [[[[] l2] p3]|]; simpl in H;
          try discriminate.
        destruct (decide _); [|discriminate].
        destruct (detectMavType _ _); discriminate. }
  destruct Hp as [Hp Hpos]. split; [exact Hp|]. split; [exact Hpos|].
  clearbody consumed.
  assert (Hb : m_dataBlock p' = m_dataBlock p) by (by rewrite Hp).
  assert (Hc : m_dataPos p' = m_dataPos p + consumed) by (by rewrite Hp).
  assert (Hblock : m_dataBlock (refill chunk p') =
            drop (Z.to_nat (m_dataPos p + consumed - s_MinHeaderSize)) (m_dataBlock p) ++ chunk).
  { unfold refill. rewrite Hc. destruct (decide _) as [Hgt|Hle]; simpl.
    - rewrite Hb. done.
    - rewrite Hb.
      replace (Z.to_nat (m_dataPos p + consumed - s_MinHeaderSize)) with O by lia. done. }
  split_and!.
  - unfold refill. by destruct (decide _).
  - exact Hblock.
  - intros Hle. exists (Z.to_nat (m_dataPos p + consumed - s_MinHeaderSize)).
    split; [lia|exact Hblock].
  - intros Heq. rewrite Hblock. do 2 f_equal. lia.
Qed.

(** *** Discovery of the timestamp and the deferred queue *)

Lemma findTimestamp_Some candidates labels timeStamp :
  findTimestamp candidates labels = Some timeStamp ->
  timeStamp ∈ candidates /\ ts_name timeStamp ∈ labels.
Proof.
  induction candidates as [|t rest IH]; simpl; [discriminate|].
  unfold contains. destruct (bool_decide (ts_name t ∈ labels)) eqn:E.
  - intros H. inversion H; subst. apply bool_decide_eq_true in E.
    split; [apply list_elem_of_here|done].
  - intros H. destruct (IH H). split; [by apply list_elem_of_further|done].
Qed.

Lemma findTimestamp_None candidates labels :
  findTimestamp candidates labels = None ->
  forall t, t ∈ candidates -> ts_name t ∉ labels.
Proof.
  induction candidates as [|t0 rest IH]; simpl; intros H t Hin.
  - by apply not_elem_of_nil in Hin.
  - unfold contains in H. destruct (bool_decide (ts_name t0 ∈ labels)) eqn:E; [discriminate|].
    apply bool_decide_eq_false in E.
    apply elem_of_cons in Hin as [->|Hin]; [done|]. by apply IH.
Qed.

Lemma storeDescriptor_types desc p :
  m_activeTimestamp (snd (storeDescriptor desc p)) = m_activeTimestamp p
  /\ (dm_types (m_dataModel (snd (storeDescriptor desc p))) = dm_types (m_dataModel p)
      \/ dm_types (m_dataModel (snd (storeDescriptor desc p))) =
         dm_types (m_dataModel p) ++ [forwarded (m_activeTimestamp p) desc]).
Proof.
  unfold storeDescriptor.
  destruct (isValid _ desc); [|by split; [|left]].
  destruct (m_typeToDescriptorMap p !! m_ID desc); [by split; [|left]|].
  destruct (decide _); [|by split; [|left]].
  unfold addType. simpl. destruct (addType_err _ _); simpl.
  - unfold fatal, endTransaction. simpl. destruct (endTransaction_err _); by split; [|left].
  - split; [done|]. by right.
Qed.

Lemma storeDeferred_types queue : forall rc p,
  m_activeTimestamp (snd (storeDeferred queue rc p)) = m_activeTimestamp p
  /\ exists sub,
      sub `sublist_of` queue
      /\ dm_types (m_dataModel (snd (storeDeferred queue rc p))) =
         dm_types (m_dataModel p) ++ map (forwarded (m_activeTimestamp p)) sub.
Proof.
  induction queue as [|d rest IH]; intros rc p; simpl.
  - split; [done|]. exists []. split; [done|]. by rewrite app_nil_r.
  - destruct (storeDescriptor_types d p) as [Ha Ht].
    destruct (storeDescriptor d p) as [localRc p1]. simpl in *.
    destruct (IH (rc && localRc) p1) as [Ha1 (sub & Hsub & Hty)].
    split; [congruence|]. rewrite Hty, Ha.
    destruct Ht as [-> | ->].
    + exists sub. split; [by apply sublist_cons|done].
    + exists (d :: sub). split; [by apply sublist_skip|].
      by rewrite <- app_assoc.
Qed.

Lemma storeDeferred_rc queue : forall rc p,
  fst (storeDeferred queue rc p) = true -> rc = true.
Proof.
  induction queue as [|d rest IH]; intros rc p; simpl; [done|].
  destruct (storeDescriptor d p) as [localRc p1]. intros H.
  apply IH in H. by apply andb_prop in H as [? _].
Qed.


(** *** The invariant of a parse *)

Lemma Inv_newParser : Inv newParser.
Proof.
  split; simpl.
  - lia.
  - lia.
  - repeat constructor.
  - intros id d H. by rewrite lookup_empty in H.
  - split; [constructor|done].
  - split; [done|constructor].
Qed.

Lemma toULongLong_range v : 0 <= toULongLong v < 2 ^ 64.
Proof. unfold toULongLong. destruct v; apply Z.mod_pos_bound; lia. Qed.

Lemma rowsBelow_mono hi hi' rows : hi <= hi' -> rowsBelow hi rows -> rowsBelow hi' rows.
Proof.
  intros Hle Hb. unfold rowsBelow in *. eapply Forall_impl; [exact Hb|].
  intros r (t & Ht & Hbt). exists t. split; [done|lia].
Qed.

Lemma rowsOrdered_snoc rows : forall lo hi r,
  rowsOrdered lo rows -> rowsBelow hi rows -> lo <= hi ->
  rowTime r = Some hi ->
  rowsOrdered lo (rows ++ [r]).
Proof.
  induction rows as [|r0 rest IH]; intros lo hi r Hord Hbelow Hlo Hr; simpl.
  - exists hi. done.
  - destruct Hord as (t & Ht & Hlt & Hrest).
    inversion Hbelow as [|? ? (t' & Ht' & Hb) Hbrest]; subst.
    exists t. split; [done|]. split; [done|].
    apply (IH t hi r); try done. congruence.
Qed.

Lemma rowsBelow_snoc hi rows r :
  rowsBelow hi rows -> rowTime r = Some hi -> rowsBelow hi (rows ++ [r]).
Proof.
  intros Hb Hr. apply Forall_app. split; [done|]. constructor; [|constructor].
  exists hi. split; [done|lia].
Qed.

Lemma rowsOrdered_consecutive before : forall lo r1 r2 after,
  rowsOrdered lo (before ++ r1 :: r2 :: after) ->
  exists t1 t2, rowTime r1 = Some t1 /\ rowTime r2 = Some t2 /\ t1 <= t2.
Proof.
  induction before as [|r0 rest IH]; intros lo r1 r2 after H; simpl in H.
  - destruct H as (t1 & Ht1 & _ & t2 & Ht2 & Hle & _). eauto.
  - destruct H as (t & _ & _ & H). eauto.
Qed.

(** Finalizing a fresh descriptor makes it agree with the convention. *)
Lemma indexOf_present labels name : indexOf labels name <> -1 -> name ∈ labels.
Proof.
  induction labels as [|y rest IH]; simpl; [done|].
  destruct (decide (y = name)) as [->|]; [intros _; apply list_elem_of_here|].
  destruct (decide (indexOf rest name = -1)); [done|].
  intros _. apply list_elem_of_further. by apply IH.
Qed.

Lemma indexOf_minus_one labels name : indexOf labels name = -1 -> name ∉ labels.
Proof.
  induction labels as [|y rest IH]; simpl; [intros _; apply not_elem_of_nil|].
  destruct (decide (y = name)); [lia|].
  destruct (decide (indexOf rest name = -1)) as [Hr|Hr].
  - intros _. apply not_elem_of_cons. split; [done|]. by apply IH.
  - destruct (indexOf_range rest name); lia.
Qed.

Lemma finalize_finalizedFor timeStamp d :
  m_hasTimeStamp d = false -> finalizedFor timeStamp (finalize timeStamp d).
Proof.
  intros Hflag. unfold finalize, finalizedFor.
  destruct (decide (indexOf (m_labels d) (ts_name timeStamp) <> -1)) as [Hne|He]; simpl.
  - done.
  - rewrite Hflag. apply indexOf_minus_one.
    destruct (decide (indexOf (m_labels d) (ts_name timeStamp) = -1)); done.
Qed.

Lemma unflagged_finalizedFor candidates timeStamp d :
  timeStamp ∈ candidates -> unflagged candidates d -> finalizedFor timeStamp d.
Proof.
  intros Hin [Hnone Hflag]. unfold finalizedFor. rewrite Hflag.
  eapply findTimestamp_None; eauto.
Qed.

Lemma Inv_fields p p' :
  Inv p ->
  0 <= m_dataPos p' ->
  m_lastValidTimeStamp p' = m_lastValidTimeStamp p ->
  m_possibleTimestamps p' = m_possibleTimestamps p ->
  m_typeToDescriptorMap p' = m_typeToDescriptorMap p ->
  m_activeTimestamp p' = m_activeTimestamp p ->
  m_descriptorForDeferredStorage p' = m_descriptorForDeferredStorage p ->
  dm_rows (m_dataModel p') = dm_rows (m_dataModel p) ->
  Inv p'.
Proof.
  intros [] Hpos Hlast Hposs Hreg Hact Hdef Hrows.
  split; rewrite ?Hlast, ?Hposs, ?Hreg, ?Hact, ?Hdef, ?Hrows; done.
Qed.

Ltac inv_same H := apply (Inv_fields _ _ H); simpl; try done; try lia.

Lemma Inv_fatal p : Inv p -> Inv (fatal p).
Proof.
  intros H. inv_same H; [apply H|].
  unfold endTransaction. by destruct (endTransaction_err _).
Qed.

Lemma Inv_headerIsValid p valid p' :
  Inv p -> headerIsValid p = Some (valid, p') -> Inv p'.
Proof.
  intros Hinv H. apply headerIsValid_frame in H as (n & t & -> & Hpos & _ & Hn).
  inv_same Hinv. destruct valid; lia.
Qed.

Lemma Inv_parseFMTMessage desc p parsed desc' p' :
  Inv p -> parseFMTMessage desc p = Some (parsed, desc', p') -> Inv p'.
Proof.
  intros Hinv H. apply parseFMTMessage_frame in H as (_ & _ & _ & Hpos & _ & H).
  destruct parsed; destruct H as [-> _]; inv_same Hinv.
Qed.

Lemma Inv_storeDescriptor desc p :
  Inv p ->
  ts_valid (m_activeTimestamp p) = true ->
  finalizedFor (m_activeTimestamp p) desc ->
  Inv (snd (storeDescriptor desc p)).
Proof.
  intros Hinv Hv Hfin. unfold storeDescriptor.
  destruct (isValid _ desc) eqn:Hvalid; [|inv_same Hinv; apply Hinv].
  destruct (m_typeToDescriptorMap p !! m_ID desc) eqn:E; [inv_same Hinv; apply Hinv|].
  assert (Hins : Inv (with_typeToDescriptorMap
                        (<[m_ID desc:=desc]> (m_typeToDescriptorMap p)) p)).
  { destruct Hinv. split; simpl; try done.
    - intros id d. rewrite lookup_insert. destruct (decide (m_ID desc = id)) as [<-|].
      + intros Heq. inversion Heq; subst. done.
      + apply inv_registry0.
    - rewrite Hv in *. done. }
  destruct (decide _); [|exact Hins].
  unfold addType. simpl. destruct (addType_err _ _); simpl.
  - apply Inv_fatal. inv_same Hins. apply Hins.
  - inv_same Hins. apply Hins.
Qed.

Lemma storeDescriptor_active desc p :
  m_activeTimestamp (snd (storeDescriptor desc p)) = m_activeTimestamp p.
Proof. apply storeDescriptor_types. Qed.

Lemma Inv_storeDeferred queue : forall rc p,
  Inv p ->
  ts_valid (m_activeTimestamp p) = true ->
  Forall (finalizedFor (m_activeTimestamp p)) queue ->
  Inv (snd (storeDeferred queue rc p))
  /\ m_activeTimestamp (snd (storeDeferred queue rc p)) = m_activeTimestamp p.
Proof.
  induction queue as [|d rest IH]; intros rc p Hinv Hv Hq; simpl; [done|].
  rewrite Forall_cons in Hq. destruct Hq as [Hd Hrest].
  pose proof (Inv_storeDescriptor d p Hinv Hv Hd) as H1.
  pose proof (storeDescriptor_active d p) as Ha.
  destruct (storeDescriptor d p) as [localRc p1]. simpl in *.
  destruct (IH (rc && localRc) p1 H1) as [H2 Ha2]; [by rewrite Ha|by rewrite Ha|].
  split; [done|congruence].
Qed.

Lemma Inv_extendedStoreDescriptor desc p :
  Inv p ->
  ts_valid (m_activeTimestamp p) = true ->
  finalizedFor (m_activeTimestamp p) desc ->
  Inv (snd (extendedStoreDescriptor desc p)).
Proof.
  intros Hinv Hv Hfin. unfold extendedStoreDescriptor.
  assert (Hq : Forall (finalizedFor (m_activeTimestamp p)) (m_descriptorForDeferredStorage p)).
  { destruct Hinv. by rewrite Hv in inv_pending0. }
  destruct (Inv_storeDeferred (m_descriptorForDeferredStorage p) true p Hinv Hv Hq)
    as [H1 Ha].
  destruct (storeDeferred _ _ _) as [rc p1]. simpl in *.
  assert (H2 : Inv (with_descriptorForDeferredStorage [] p1)).
  { destruct H1. split; simpl; try done. rewrite Ha, Hv in *. constructor. }
  destruct rc; [|exact H2].
  apply Inv_storeDescriptor; simpl; [done|by rewrite Ha|by rewrite Ha].
Qed.

Lemma Inv_checkForValidTimestamp desc p :
  Inv p ->
  ts_valid (m_activeTimestamp p) = false ->
  m_hasTimeStamp desc = false ->
  Inv (checkForValidTimestamp desc p).
Proof.
  intros Hinv Hv Hflag. unfold checkForValidTimestamp.
  destruct Hinv. rewrite Hv in inv_pending0. destruct inv_pending0 as [Hq Hempty].
  destruct (findTimestamp (m_possibleTimestamps p) (m_labels desc)) as [timeStamp|] eqn:E.
  - destruct (findTimestamp_Some _ _ _ E) as [Hin _].
    assert (Hvalid : ts_valid timeStamp = true).
    { rewrite Forall_forall in inv_possible0. by apply inv_possible0. }
    simpl. rewrite Hvalid. split; simpl; try done.
    + intros id d. rewrite Hempty, lookup_empty. done.
    + rewrite Hvalid. apply Forall_app. split.
      * eapply Forall_impl; [exact Hq|]. intros d. by apply unflagged_finalizedFor.
      * constructor; [|constructor]. by apply finalize_finalizedFor.
  - rewrite Hv. split; simpl; try done.
    rewrite Hv. split; [|done]. apply Forall_app. split; [done|].
    constructor; [|constructor]. done.
Qed.

Lemma replaceLabelName_flag oldName newName d :
  m_hasTimeStamp (replaceLabelName oldName newName d) = m_hasTimeStamp d.
Proof. done. Qed.

Lemma Inv_fmtBranch descriptor p :
  Inv p -> m_hasTimeStamp descriptor = false ->
  Inv (flowState (fmtBranch descriptor p)).
Proof.
  intros Hinv Hflag. unfold fmtBranch.
  set (d1 := if decide (m_name descriptor = "GPS"%string) then _ else descriptor).
  assert (Hd1 : m_hasTimeStamp d1 = false) by (subst d1; by destruct (decide _)).
  destruct (ts_valid (m_activeTimestamp p)) eqn:Hv.
  - pose proof (Inv_extendedStoreDescriptor (finalize (m_activeTimestamp p) d1) p Hinv Hv
                  (finalize_finalizedFor _ _ Hd1)) as H.
    destruct (extendedStoreDescriptor _ _) as [[] p1]; exact H.
  - simpl. by apply Inv_checkForValidTimestamp.
Qed.

(** The decoded list is empty, or it has one labelled value per format
    character. *)
Lemma decodeFields_shape desc format : forall i stream acc p,
  fst (decodeFields desc i format stream acc p) = []
  \/ exists vals,
       fst (decodeFields desc i format stream acc p) = acc ++ labelled desc i vals
       /\ length vals = length format.
Proof.
  induction format as [|c rest IH]; intros i stream acc p; simpl.
  - right. exists []. simpl. by rewrite app_nil_r.
  - destruct (decodeField c stream) as [[v| |] s]; simpl; [|by left|by left].
    destruct (IH (S i) s (acc ++ [(getLabelAtIndex desc i, v)]) p) as [H|(vals & H & Hl)].
    + by left.
    + right. exists (v :: vals). simpl. rewrite H, <- app_assoc. simpl. split; [done|lia].
Qed.

Lemma labelled_fst desc vals : forall i,
  (i + length vals <= length (m_labels desc))%nat ->
  (labelled desc i vals).*1 = take (length vals) (drop i (m_labels desc)).
Proof.
  induction vals as [|v rest IH]; intros i Hlen; simpl in *; [done|].
  unfold getLabelAtIndex.
  destruct (lookup_lt_is_Some_2 (m_labels desc) i) as [y Hy]; [lia|].
  rewrite Hy. rewrite (drop_S _ _ _ Hy). simpl. f_equal. apply IH. lia.
Qed.

Lemma valueOf_indexOf name l :
  indexOf (l.*1) name <> -1 ->
  valueOf name l = snd <$> l !! Z.to_nat (indexOf (l.*1) name).
Proof.
  induction l as [|entry rest IH]; [done|].
  rewrite fmap_cons. cbn [valueOf indexOf].
  destruct (decide (fst entry = name)); [done|].
  destruct (decide (indexOf (rest.*1) name = -1)) as [|Hr]; [done|].
  intros _. rewrite (IH Hr).
  destruct (indexOf_range (rest.*1) name) as [|Hrange]; [done|].
  replace (Z.to_nat (indexOf (rest.*1) name + 1))
    with (S (Z.to_nat (indexOf (rest.*1) name))) by lia.
  done.
Qed.

Lemma readTimeStamp_spec l idx p l' p' :
  readTimeStamp l idx p = Some (l', p') ->
  exists entry,
    0 <= idx /\ l !! Z.to_nat idx = Some entry
    /\ if decide (toULongLong (snd entry) >= m_lastValidTimeStamp p)
       then l' = l
            /\ p' = with_lastValidTimeStamp (toULongLong (snd entry)) p
       else l' = <[Z.to_nat idx := (fst entry, VUInt (m_lastValidTimeStamp p))]> l
            /\ m_lastValidTimeStamp p' = m_lastValidTimeStamp p
            /\ incidents (m_logLoadingState p') =
               incidents (m_logLoadingState p)
               ++ [CorruptTime (m_MessageCounter p)
                     (MsgTimeNotIncreasing (m_lastValidTimeStamp p)
                        (toULongLong (snd entry)))]
            /\ m_dataModel p' = m_dataModel p
            /\ m_activeTimestamp p' = m_activeTimestamp p
            /\ m_typeToDescriptorMap p' = m_typeToDescriptorMap p
            /\ m_descriptorForDeferredStorage p' = m_descriptorForDeferredStorage p
            /\ m_possibleTimestamps p' = m_possibleTimestamps p
            /\ m_dataPos p' = m_dataPos p
            /\ m_dataBlock p' = m_dataBlock p.
Proof.
  unfold readTimeStamp. intros H.
  destruct (decide (0 <= idx)); [|discriminate].
  destruct (l !! Z.to_nat idx) as [entry|] eqn:E; [|discriminate]. simpl in H.
  exists entry. split; [done|]. split; [done|].
  destruct (decide (_ >= _)); inversion H; subst; clear H; [done|].
  repeat destruct (decide (m_timeErrorCount p < _)); simpl; done.
Qed.

(** After [readTimeStamp] the field at the index reads as the last valid
    timestamp, the labels are the same, and the invariant holds. *)
Lemma readTimeStamp_Inv l idx p l' p' :
  Inv p ->
  readTimeStamp l idx p = Some (l', p') ->
  Inv p'
  /\ l'.*1 = l.*1
  /\ m_lastValidTimeStamp p <= m_lastValidTimeStamp p'
  /\ m_activeTimestamp p' = m_activeTimestamp p
  /\ m_dataModel p' = m_dataModel p
  /\ 0 <= idx
  /\ toULongLong <$> (snd <$> l' !! Z.to_nat idx) = Some (m_lastValidTimeStamp p').
Proof.
  intros Hinv H. apply readTimeStamp_spec in H as (entry & Hidx & Hentry & H).
  destruct (decide _) as [Hge|Hlt].
  - destruct H as [-> ->]. simpl. split_and!; try done; try lia.
    + destruct Hinv. split; simpl; try done.
      * apply toULongLong_range.
      * destruct inv_rows0 as [Ho Hb]. split; [done|].
        eapply rowsBelow_mono; [|exact Hb]. lia.
    + by rewrite Hentry.
  - destruct H as (-> & Hlast & _ & Hdm & Hact & Hreg & Hdef & Hposs & Hpos & _).
    split_and!; try done; try lia.
    + apply (Inv_fields p p' Hinv); try done; try congruence.
      rewrite Hpos. apply Hinv.
    + rewrite list_fmap_insert. simpl. apply list_insert_id.
      by rewrite list_lookup_fmap, Hentry.
    + rewrite list_lookup_insert_eq by (by eapply lookup_lt_Some).
      simpl. rewrite Hlast. f_equal. apply Z.mod_small. apply Hinv.
Qed.

Lemma Inv_parseDataByDescriptor l desc p :
  Inv p -> Inv (snd (parseDataByDescriptor l desc p)).
Proof.
  intros Hinv. unfold parseDataByDescriptor. destruct (decide _); [done|].
  pose proof (decodeFields_frame desc (list_ascii_of_string (m_format desc)) 0
                (mid (m_dataBlock p) (m_dataPos p) (m_length desc - s_HeaderOffset)) [] p)
    as [s Hs].
  destruct (decodeFields _ _ _ _ _ _) as [l' p1]. simpl in *. subst p1.
  inv_same Hinv.
Qed.

Lemma Inv_detectMavType l p p' : Inv p -> detectMavType l p = Some p' -> Inv p'.
Proof.
  unfold detectMavType. intros Hinv H.
  destruct (l !! findName l 0) as [entry|]; [|discriminate]. simpl in H.
  inversion H; subst; clear H.
  repeat match goal with
         | |- context [if ?b then _ else _] => destruct b
         end; simpl; try destruct (m_loadedLogType p); inv_same Hinv; apply Hinv.
Qed.

Lemma Inv_storeNameValuePairList l desc p stored l1 p' :
  Inv p ->
  finalizedFor (m_activeTimestamp p) desc ->
  (m_hasTimeStamp desc = true -> l.*1 = m_labels desc) ->
  storeNameValuePairList l desc p = Some (stored, l1, p') ->
  Inv p'.
Proof.
  intros Hinv Hfin Hlabels H. unfold storeNameValuePairList in H.
  assert (Hpre : exists l2 p2,
            (if hasNoTimestamp desc
             then Some ((ts_name (m_activeTimestamp p), VUInt (m_lastValidTimeStamp p)) :: l, p)
             else readTimeStamp l (m_timeStampIndex desc) p) = Some (l2, p2)
            /\ Inv p2
            /\ m_dataModel p2 = m_dataModel p
            /\ toULongLong <$> valueOf (ts_name (m_activeTimestamp p2)) l2
               = Some (m_lastValidTimeStamp p2)).
  { destruct (if hasNoTimestamp desc then _ else _) as [[l2 p2]|] eqn:E; [|discriminate].
    exists l2, p2. split; [done|]. unfold hasNoTimestamp, finalizedFor in *.
    destruct (m_hasTimeStamp desc) eqn:Hflag; simpl in E.
    - destruct Hfin as [Hidx Hne].
      destruct (readTimeStamp_Inv _ _ _ _ _ Hinv E) as (H2 & Hfst & _ & Hact & Hdm & H0 & Hval).
      split; [done|]. split; [done|].
      rewrite Hact, valueOf_indexOf; rewrite Hfst, Hlabels by done; rewrite <- Hidx; done.
    - inversion E; subst; clear E. split; [done|]. split; [done|]. simpl.
      rewrite decide_True by done. simpl. f_equal. apply Z.mod_small. apply Hinv. }
  destruct Hpre as (l2 & p2 & Heq & H2 & Hdm & Htime). rewrite Heq in H. simpl in H.
  unfold addRow in H. destruct (addRow_err _ _); simpl in H; inversion H; subst; clear H.
  - apply Inv_fatal. inv_same H2. apply H2.
  - destruct H2. split; simpl; try done.
    destruct inv_rows0 as [Ho Hb]. split.
    + eapply rowsOrdered_snoc; eauto. lia.
    + by apply rowsBelow_snoc.
Qed.

(** *** What leaves the buffer alone *)

Lemma sameBuffer_trans p1 p2 p3 : sameBuffer p1 p2 -> sameBuffer p2 p3 -> sameBuffer p1 p3.
Proof. intros [] []. split; congruence. Qed.

Lemma sameBuffer_fatal p : sameBuffer p (fatal p).
Proof. by split. Qed.

Lemma sameBuffer_storeDescriptor desc p : sameBuffer p (snd (storeDescriptor desc p)).
Proof.
  unfold storeDescriptor.
  destruct (isValid _ desc); [|by split].
  destruct (m_typeToDescriptorMap p !! m_ID desc); [by split|].
  destruct (decide _); [|by split].
  unfold addType. simpl. destruct (addType_err _ _); by split.
Qed.

Lemma sameBuffer_storeDeferred queue : forall rc p,
  sameBuffer p (snd (storeDeferred queue rc p)).
Proof.
  induction queue as [|d rest IH]; intros rc p; simpl; [by split|].
  pose proof (sameBuffer_storeDescriptor d p) as H.
  destruct (storeDescriptor d p) as [localRc p1]. simpl in H.
  eapply sameBuffer_trans; [exact H|apply IH].
Qed.

Lemma sameBuffer_fmtBranch descriptor p : sameBuffer p (flowState (fmtBranch descriptor p)).
Proof.
  unfold fmtBranch. destruct (ts_valid _).
  - unfold extendedStoreDescriptor.
    pose proof (sameBuffer_storeDeferred (m_descriptorForDeferredStorage p) true p) as H.
    destruct (storeDeferred _ _ _) as [rc p1]. simpl in H.
    destruct rc; simpl.
    + match goal with
      | |- context [storeDescriptor ?d ?q] =>
          pose proof (sameBuffer_storeDescriptor d q) as H2;
          destruct (storeDescriptor d q) as [[] p2]
      end; destruct H, H2; simpl in *; split; congruence.
    + exact H.
  - unfold checkForValidTimestamp. simpl. by destruct (findTimestamp _ _).
Qed.

Lemma sameBuffer_storeNameValuePairList l desc p stored l1 p' :
  storeNameValuePairList l desc p = Some (stored, l1, p') -> sameBuffer p p'.
Proof.
  unfold storeNameValuePairList. intros H.
  assert (Hpre : forall l2 p2,
            (if hasNoTimestamp desc
             then Some ((ts_name (m_activeTimestamp p), VUInt (m_lastValidTimeStamp p)) :: l, p)
             else readTimeStamp l (m_timeStampIndex desc) p) = Some (l2, p2) ->
            sameBuffer p p2).
  { intros l2 p2. destruct (hasNoTimestamp desc).
    - intros Heq. inversion Heq; subst. by split.
    - intros Heq. apply readTimeStamp_spec in Heq as (entry & _ & _ & Heq).
      destruct (decide _).
      + destruct Heq as [_ ->]. by split.
      + destruct Heq as (_ & _ & _ & _ & _ & _ & _ & _ & Hpos & Hblock). by split. }
  destruct (if hasNoTimestamp desc then _ else _) as [[l2 p2]|]; [|discriminate].
  specialize (Hpre l2 p2 eq_refl). simpl in H.
  unfold addRow in H. destruct (addRow_err _ _); simpl in H; inversion H; subst; clear H;
    destruct Hpre; split; simpl; congruence.
Qed.

Lemma sameBuffer_detectMavType l p p' : detectMavType l p = Some p' -> sameBuffer p p'.
Proof.
  unfold detectMavType. intros H.
  destruct (l !! findName l 0) as [entry|]; [|discriminate]. simpl in H.
  inversion H; subst; clear H.
  repeat match goal with
         | |- context [if ?b then _ else _] => destruct b
         end; simpl; try destruct (m_loadedLogType p); by split.
Qed.

(** *** The invariant along the loops, and the measure of the record loop *)

Lemma dataBranch_Continue descriptor p p' :
  dataBranch descriptor p = Some (Continue p') ->
  m_length descriptor - s_HeaderOffset <= size (m_dataBlock p) - m_dataPos p
  /\ m_dataPos p' = 0
  /\ m_dataBlock p' =
     drop (Z.to_nat (m_dataPos p + (m_length descriptor - s_HeaderOffset))) (m_dataBlock p).
Proof.
  unfold dataBranch. intros H.
  destruct (decide (size (m_dataBlock p) - m_dataPos p
                    < m_length descriptor - s_HeaderOffset)) as [Hs|Hs].
  { by rewrite (parseDataByDescriptor_short [] descriptor p Hs) in H. }
  destruct (parseDataByDescriptor_full [] descriptor p) as (l1 & st & Hfull & _); [lia|].
  rewrite Hfull in H. split; [lia|].
  match type of H with
  | context [storeNameValuePairList l1 descriptor ?q] => set (q0 := q) in *
  end.
  assert (Hq0 : m_dataPos q0 = 0
                /\ m_dataBlock q0 =
                   drop (Z.to_nat (m_dataPos p + (m_length descriptor - s_HeaderOffset)))
                     (m_dataBlock p)) by done.
  clearbody q0.
  destruct (decide (lsize l1 >= 1)).
  - destruct (storeNameValuePairList l1 descriptor q0) as [[[stored l2] p2]|] eqn:E;
      [|discriminate].
    apply sameBuffer_storeNameValuePairList in E as [Hb Hp]. simpl in H.
    destruct stored; [|discriminate].
    destruct (decide _).
    + destruct (detectMavType l2 p2) as [p3|] eqn:E3; [|discriminate].
      apply sameBuffer_detectMavType in E3 as [Hb3 Hp3].
      inversion H; subst. destruct Hq0. split; congruence.
    + inversion H; subst. destruct Hq0. split; congruence.
  - inversion H; subst. simpl. done.
Qed.

Lemma Inv_dataBranch id descriptor p f :
  Inv p ->
  m_typeToDescriptorMap p !! id = Some descriptor ->
  id <> s_FMTMessageType ->
  dataBranch descriptor p = Some f ->
  Inv (flowState f).
Proof.
  intros Hinv Hreg Hid H. unfold dataBranch in H.
  destruct (inv_registry p Hinv id descriptor Hreg) as (Hkey & Hvalid & Hfin).
  destruct (decide (size (m_dataBlock p) - m_dataPos p
                    < m_length descriptor - s_HeaderOffset)) as [Hs|Hs].
  { rewrite (parseDataByDescriptor_short [] descriptor p Hs) in H.
    by inversion H; subst. }
  destruct (parseDataByDescriptor_full [] descriptor p) as (l1 & st & Hfull & Hdec); [lia|].
  rewrite Hfull in H.
  match type of H with
  | context [storeNameValuePairList l1 descriptor ?q] => set (q0 := q) in *
  end.
  assert (Hq0 : Inv q0) by (subst q0; inv_same Hinv).
  assert (Ha0 : m_activeTimestamp q0 = m_activeTimestamp p) by done.
  clearbody q0.
  destruct (decide (lsize l1 >= 1)) as [Hl|Hl].
  - destruct (storeNameValuePairList l1 descriptor q0) as [[[stored l2] p2]|] eqn:E;
      [|discriminate].
    assert (H2 : Inv p2).
    { eapply Inv_storeNameValuePairList; [exact Hq0| |  |exact E].
      - by rewrite Ha0.
      - intros _.
        pose proof (decodeFields_shape descriptor (list_ascii_of_string (m_format descriptor)) 0
                      (mid (m_dataBlock p) (m_dataPos p) (m_length descriptor - s_HeaderOffset))
                      [] p) as Hshape.
        rewrite <- Hdec in Hshape. simpl in Hshape.
        destruct Hshape as [->|(vals & -> & Hlen)]; [unfold lsize in Hl; simpl in Hl; lia|].
        rewrite length_list_ascii_of_string in Hlen.
        assert (Heq : length vals = length (m_labels descriptor)).
        { pose proof (isValid_data descriptor Hvalid ltac:(congruence)) as Hd.
          unfold qsize, lsize in Hd. lia. }
        rewrite labelled_fst by lia. rewrite Heq. simpl. apply firstn_all. }
    simpl in H. destruct stored; [|by inversion H; subst].
    destruct (decide _).
    + destruct (detectMavType l2 p2) as [p3|] eqn:E3; [|discriminate].
      inversion H; subst. simpl. eapply Inv_detectMavType; eauto.
    + by inversion H; subst.
  - inversion H; subst. simpl. inv_same Hq0. apply Hq0.
Qed.

Lemma Inv_parseBody p f : Inv p -> parseBody p = Some f -> Inv (flowState f).
Proof.
  intros Hinv H. unfold parseBody in H.
  destruct (headerIsValid p) as [[valid p1]|] eqn:E; [|discriminate].
  pose proof (Inv_headerIsValid _ _ _ Hinv E) as H1. simpl in H.
  destruct valid; simpl in H.
  - destruct (decide (m_messageType p1 = s_FMTMessageType)).
    + destruct (parseFMTMessage newDescriptor p1) as [[[parsed d] p2]|] eqn:E2;
        [|discriminate].
      pose proof (Inv_parseFMTMessage _ _ _ _ _ H1 E2) as H2.
      apply parseFMTMessage_frame in E2 as (Hflag & _). simpl in H.
      destruct parsed; inversion H; subst; simpl; [|done].
      by apply Inv_fmtBranch.
    + destruct (m_typeToDescriptorMap p1 !! m_messageType p1) as [d|] eqn:El.
      * eapply Inv_dataBranch; eauto.
      * inversion H; subst; simpl. inv_same H1. apply H1.
  - inversion H; subst; simpl. inv_same H1. apply H1.
Qed.

(** A pass that continues has moved the cursor forward in the stream: fewer
    bytes lie behind it. *)
Lemma parseBody_decreases p p1 :
  Inv p -> parseBody p = Some (Continue p1) ->
  0 < size (m_dataBlock p) - m_dataPos p
  /\ size (m_dataBlock p1) - m_dataPos p1 < size (m_dataBlock p) - m_dataPos p.
Proof.
  intros Hinv H. unfold parseBody in H.
  destruct (headerIsValid p) as [[valid q]|] eqn:E; [|discriminate].
  pose proof (Inv_headerIsValid _ _ _ Hinv E) as Hq.
  apply headerIsValid_frame in E as (n & t & Hqeq & Hpos & Hsize & Hn). simpl in H.
  assert (Hqb : m_dataBlock q = m_dataBlock p) by (by rewrite Hqeq).
  assert (Hqp : m_dataPos q = m_dataPos p + n) by (by rewrite Hqeq).
  destruct valid; simpl in H.
  - destruct Hn as [-> _].
    destruct (decide (m_messageType q = s_FMTMessageType)).
    + destruct (parseFMTMessage newDescriptor q) as [[[parsed d] p2]|] eqn:E2;
        [|discriminate].
      apply parseFMTMessage_frame in E2 as (_ & _ & _ & _ & _ & E2). simpl in H.
      destruct parsed; [|discriminate]. destruct E2 as [-> _].
      inversion H as [Hf]. pose proof (sameBuffer_fmtBranch d
        (with_dataPos 0 (with_dataBlock (drop (Z.to_nat (m_dataPos q + 86)) (m_dataBlock q)) q)))
        as [Hb Hp].
      rewrite Hf in Hb, Hp. simpl in Hb, Hp. rewrite Hb, Hp, Hqb, Hqp.
      unfold size in *. split; [lia|]. rewrite length_drop. lia.
    + destruct (m_typeToDescriptorMap q !! m_messageType q) as [d|] eqn:El.
      * destruct (inv_registry q Hq _ _ El) as (_ & Hvalid & _).
        apply isValid_length in Hvalid as [Hlen _].
        apply dataBranch_Continue in H as (Hbuf & Hp & Hb).
        rewrite Hb, Hp, Hqb, Hqp in *. unfold s_HeaderOffset in *.
        split; [lia|]. unfold size in *. rewrite length_drop. lia.
      * inversion H; subst; simpl. lia.
  - inversion H; subst; simpl. destruct Hn as [[->| ->] _]; lia.
Qed.

Lemma Inv_recordLoop fuel : forall p e p',
  Inv p -> recordLoop fuel p = Done e p' -> Inv p'.
Proof.
  induction fuel as [|k IH]; intros p e p' Hinv H; simpl in H.
  - destruct (recordGuard p); [discriminate|]. by inversion H; subst.
  - destruct (recordGuard p); [|by inversion H; subst].
    destruct (parseBody p) as [[p1|p1|p1]|] eqn:E; try discriminate;
      apply (Inv_parseBody _ _ Hinv) in E; simpl in E.
    + eauto.
    + by inversion H; subst.
    + by inversion H; subst.
Qed.

(** Enough fuel: one unit per byte behind the cursor and one to spare. *)
Lemma recordLoop_fuel fuel : forall p,
  Inv p ->
  (Z.to_nat (size (m_dataBlock p) - m_dataPos p) < fuel)%nat ->
  recordLoop fuel p <> OutOfFuel.
Proof.
  induction fuel as [|k IH]; intros p Hinv Hfuel; [lia|]. simpl.
  destruct (recordGuard p); [|done].
  destruct (parseBody p) as [[p1|p1|p1]|] eqn:E; try done.
  pose proof (Inv_parseBody _ _ Hinv E) as H1.
  apply (parseBody_decreases _ _ Hinv) in E as [Hpos Hlt].
  apply IH; [done|lia].
Qed.

Lemma Inv_refill chunk p : Inv p -> Inv (refill chunk p).
Proof. intros H. unfold refill. destruct (decide _); inv_same H. Qed.

Lemma Inv_readLoop chunks : forall pos total p e p',
  Inv p -> readLoop pos total chunks p = Done e p' -> Inv p'.
Proof.
  induction chunks as [|chunk rest IH]; intros pos total p e p' Hinv H; cbn [readLoop] in H.
  - by inversion H; subst.
  - destruct (m_stop p); [by inversion H; subst|].
    match type of H with
    | context [recordLoop ?n ?q] =>
        assert (Hq : Inv q) by (apply Inv_refill; inv_same Hinv; apply Hinv);
        destruct (recordLoop n q) as [e1 p3| |] eqn:E; try discriminate
    end.
    apply (Inv_recordLoop _ _ _ _ Hq) in E.
    destruct e1; [eauto|eauto|by inversion H; subst|eauto].
Qed.

Lemma readLoop_fuel chunks : forall pos total p,
  Inv p -> readLoop pos total chunks p <> OutOfFuel.
Proof.
  induction chunks as [|chunk rest IH]; intros pos total p Hinv; cbn [readLoop]; [done|].
  destruct (m_stop p); [done|].
  match goal with
  | |- context [recordLoop ?n ?q] =>
      assert (Hq : Inv q) by (apply Inv_refill; inv_same Hinv; apply Hinv);
      assert (Hpos : m_dataPos q = 0) by (unfold refill; by destruct (decide _));
      pose proof (recordLoop_fuel n q Hq) as Hfuel;
      destruct (recordLoop n q) as [e1 p3| |] eqn:E
  end.
  - apply (Inv_recordLoop _ _ _ _ Hq) in E. destruct e1; [by apply IH|by apply IH|done|by apply IH].
  - done.
  - exfalso. apply Hfuel; [|done]. rewrite Hpos. unfold size. lia.
Qed.

(** *** No read outside a container *)

Lemma findName_bound (l : list NameValuePair) : forall i,
  l <> [] -> (findName l i < i + length l)%nat.
Proof.
  induction l as [|e r IH]; intros i Hne; [done|]. simpl.
  destruct (decide _); [lia|].
  destruct r as [|e2 r2]; [simpl; lia|].
  specialize (IH (S i) ltac:(done)). simpl in *. lia.
Qed.

Lemma detectMavType_defined l p : l <> [] -> exists p', detectMavType l p = Some p'.
Proof.
  intros Hne. unfold detectMavType.
  destruct (lookup_lt_is_Some_2 l (findName l 0)) as [entry Hentry].
  { pose proof (findName_bound l 0 Hne). lia. }
  rewrite Hentry. simpl. eauto.
Qed.

Lemma storeNameValuePairList_defined l desc p :
  (m_hasTimeStamp desc = true ->
   finalizedFor (m_activeTimestamp p) desc /\ l.*1 = m_labels desc) ->
  exists stored l1 p', storeNameValuePairList l desc p = Some (stored, l1, p').
Proof.
  intros Hnative. unfold storeNameValuePairList, hasNoTimestamp.
  destruct (m_hasTimeStamp desc) eqn:Hflag; simpl.
  - destruct (Hnative eq_refl) as [Hfin Hlab]. unfold finalizedFor in Hfin.
    rewrite Hflag in Hfin. destruct Hfin as [Hidx Hne].
    destruct (indexOf_range (m_labels desc) (ts_name (m_activeTimestamp p)))
      as [Habs|Hrange]; [congruence|].
    unfold readTimeStamp. rewrite <- Hidx in Hrange.
    destruct (decide (0 <= m_timeStampIndex desc)); [|lia].
    destruct (lookup_lt_is_Some_2 l (Z.to_nat (m_timeStampIndex desc))) as [entry Hentry].
    { rewrite <- (length_fmap fst l), Hlab. unfold lsize in Hrange. lia. }
    rewrite Hentry. simpl.
    destruct (decide (_ >= _)); simpl; unfold addRow; destruct (addRow_err _ _); simpl; eauto.
  - unfold addRow. destruct (addRow_err _ _); simpl; eauto.
Qed.

Lemma dataBranch_defined id descriptor p :
  Inv p ->
  m_typeToDescriptorMap p !! id = Some descriptor ->
  id <> s_FMTMessageType ->
  exists f, dataBranch descriptor p = Some f.
Proof.
  intros Hinv Hreg Hid. unfold dataBranch.
  destruct (inv_registry p Hinv id descriptor Hreg) as (Hkey & Hvalid & Hfin).
  destruct (decide (size (m_dataBlock p) - m_dataPos p
                    < m_length descriptor - s_HeaderOffset)) as [Hs|Hs].
  { rewrite (parseDataByDescriptor_short [] descriptor p Hs). eauto. }
  destruct (parseDataByDescriptor_full [] descriptor p) as (l1 & st & Hfull & Hdec); [lia|].
  rewrite Hfull.
  match goal with
  | |- context [storeNameValuePairList l1 descriptor ?q] => set (q0 := q) in *
  end.
  assert (Ha0 : m_activeTimestamp q0 = m_activeTimestamp p) by done.
  clearbody q0.
  destruct (decide (lsize l1 >= 1)) as [Hl|Hl]; [|eauto].
  destruct (storeNameValuePairList_defined l1 descriptor q0) as (stored & l2 & p2 & Hst).
  { intros _. rewrite Ha0. split; [done|].
    pose proof (decodeFields_shape descriptor (list_ascii_of_string (m_format descriptor)) 0
                  (mid (m_dataBlock p) (m_dataPos p) (m_length descriptor - s_HeaderOffset))
                  [] p) as Hshape.
    rewrite <- Hdec in Hshape. simpl in Hshape.
    destruct Hshape as [->|(vals & -> & Hlen)]; [unfold lsize in Hl; simpl in Hl; lia|].
    rewrite length_list_ascii_of_string in Hlen.
    assert (Heq : length vals = length (m_labels descriptor)).
    { pose proof (isValid_data descriptor Hvalid ltac:(congruence)) as Hd.
      unfold qsize, lsize in Hd. lia. }
    rewrite labelled_fst by lia. rewrite Heq. simpl. apply firstn_all. }
  rewrite Hst. simpl. destruct stored; [|eauto].
  destruct (decide _); [|eauto].
  destruct (detectMavType_defined l2 p2) as [p3 Hp3].
  { apply storeNameValuePairList_length in Hst. unfold lsize in Hl.
    destruct l2; [simpl in Hst; lia|done]. }
  rewrite Hp3. simpl. eauto.
Qed.

(** With a guard of at least four bytes every read of the loop body is
    inside the buffer. *)
Lemma parseBody_defined p :
  4 <= s_MinHeaderSize ->
  Inv p ->
  recordGuard p = true ->
  exists f, parseBody p = Some f.
Proof.
  intros Hmin Hinv Hguard. unfold recordGuard in Hguard.
  apply andb_prop in Hguard as [Hguard _]. apply bool_decide_eq_true in Hguard.
  pose proof (inv_pos p Hinv) as Hpos.
  destruct (at_defined (m_dataBlock p) (m_dataPos p)) as [b1 H1]; [lia|].
  destruct (at_defined (m_dataBlock p) (m_dataPos p + 1)) as [b2 H2]; [lia|].
  destruct (at_defined (m_dataBlock p) (m_dataPos p + 1 + 1)) as [b3 H3]; [lia|].
  destruct (at_defined (m_dataBlock p) (m_dataPos p + 3)) as [b4 H4]; [lia|].
  destruct (at_defined (m_dataBlock p) (m_dataPos p + 3 + 1)) as [b5 H5]; [lia|].
  assert (Hh : exists valid q, headerIsValid p = Some (valid, q)).
  { unfold headerIsValid. rewrite H1. simpl. destruct (decide _); [|eauto].
    rewrite H2. simpl. destruct (decide _); [|eauto]. rewrite H3. simpl. eauto. }
  destruct Hh as (valid & q & Hh). unfold parseBody. rewrite Hh. simpl.
  pose proof (Inv_headerIsValid _ _ _ Hinv Hh) as Hq.
  apply headerIsValid_frame in Hh as (n & t & Hqeq & _ & _ & Hn).
  destruct valid; simpl; [|eauto]. destruct Hn as [-> _].
  destruct (decide (m_messageType q = s_FMTMessageType)).
  - assert (Hf : exists r, parseFMTMessage newDescriptor q = Some r).
    { unfold parseFMTMessage. rewrite Hqeq. simpl. rewrite H4, H5. simpl.
      destruct (decide _); eauto. }
    destruct Hf as ([[parsed d] p2] & Hf). rewrite Hf. simpl. destruct parsed; eauto.
  - destruct (m_typeToDescriptorMap q !! m_messageType q) as [d|] eqn:El; [|eauto].
    eapply dataBranch_defined; eauto.
Qed.

Lemma recordLoop_total fuel : forall p,
  4 <= s_MinHeaderSize ->
  Inv p ->
  (Z.to_nat (size (m_dataBlock p) - m_dataPos p) < fuel)%nat ->
  exists e p', recordLoop fuel p = Done e p'.
Proof.
  induction fuel as [|k IH]; intros p Hmin Hinv Hfuel; [lia|]. simpl.
  destruct (recordGuard p) eqn:G; [|eauto].
  destruct (parseBody_defined p Hmin Hinv G) as [f Hf]. rewrite Hf.
  destruct f as [p1|p1|p1]; [|eauto|eauto].
  pose proof (Inv_parseBody _ _ Hinv Hf) as H1.
  apply (parseBody_decreases _ _ Hinv) in Hf as [Hpos Hlt].
  apply IH; [done|done|lia].
Qed.

Lemma readLoop_total chunks : forall pos total p,
  4 <= s_MinHeaderSize ->
  Inv p ->
  exists e p', readLoop pos total chunks p = Done e p'.
Proof.
  induction chunks as [|chunk rest IH]; intros pos total p Hmin Hinv; cbn [readLoop]; [eauto|].
  destruct (m_stop p); [eauto|].
  match goal with
  | |- context [recordLoop ?n ?q] =>
      assert (Hq : Inv q) by (apply Inv_refill; inv_same Hinv; apply Hinv);
      assert (Hpos : m_dataPos q = 0) by (unfold refill; by destruct (decide _));
      destruct (recordLoop_total n q Hmin Hq) as (e1 & p3 & E)
  end.
  { rewrite Hpos. unfold size. lia. }
  rewrite E. apply (Inv_recordLoop _ _ _ _ Hq) in E.
  destruct e1; [by apply IH|by apply IH|eauto|by apply IH].
Qed.

(** *** The synthetic timestamp, stored and emitted *)

(** A row of a descriptor with a native timestamp is stored with the
    fields that were decoded: [readTimeStamp] may overwrite the value of
    one of them, no field is added. *)
Lemma storeNameValuePairList_native native q l :
  hasNoTimestamp native = false ->
  0 <= m_timeStampIndex native < lsize l ->
  exists stored l1 q1,
    storeNameValuePairList l native q = Some (stored, l1, q1)
    /\ l1.*1 = l.*1
    /\ (stored = true ->
        dm_rows (m_dataModel q1) =
        dm_rows (m_dataModel q)
        ++ [ {| row_type := m_name native; row_values := l1;
                row_timeLabel := ts_name (m_activeTimestamp q) |} ]).
Proof.
  intros Hnative Hidx.
  unfold storeNameValuePairList. rewrite Hnative. unfold readTimeStamp.
  destruct (decide (0 <= m_timeStampIndex native)); [|lia].
  destruct (lookup_lt_is_Some_2 l (Z.to_nat (m_timeStampIndex native))) as [entry El].
  { unfold lsize in Hidx. lia. }
  rewrite El. simpl.
  assert (Hfst : forall v,
            (<[Z.to_nat (m_timeStampIndex native) := (fst entry, v)]> l).*1 = l.*1).
  { intros v. rewrite list_fmap_insert. simpl. apply list_insert_id.
    by rewrite list_lookup_fmap, El. }
  destruct (decide (_ >= _)); simpl; unfold addRow; simpl;
    destruct (addRow_err _ _); simpl;
    do 3 eexists; (split; [reflexivity|]); (split; [done || apply Hfst|]); try done;
    repeat destruct (decide _); done.
Qed.

(** C6, as the code has it.  Let a valid descriptor with a fresh id other
    than FMT carry no timestamp flag and lack the label of the active
    timestamp (finalizing leaves such a descriptor as it is).  When the
    sink accepts it, [storeDescriptor] keeps the descriptor itself in the
    registry, format and length untouched, and forwards to the sink the
    copy with the label of the active timestamp in front of the labels, [Q]
    in front of the format and the length plus 8.  Every record of the type
    whose body is buffered is decoded with the registry copy, and
    [storeNameValuePairList] hands the sink the row with the pair of that
    label and the last valid timestamp in front of the decoded values; no
    other field of the row has that label, so such a row carries the
    timestamp exactly once.  A row of a descriptor with a native timestamp
    gets no field added: it has the labels that were decoded, so it carries
    the timestamp as often as the descriptor names it.  In a consistent
    parser the descriptors of the registry without the flag are the ones
    that lack the label. *)
Theorem synthetic_timestamp_field desc p :
  isValid s_STRTMessageType desc = true ->
  m_ID desc <> s_FMTMessageType ->
  m_typeToDescriptorMap p !! m_ID desc = None ->
  m_hasTimeStamp desc = false ->
  ts_name (m_activeTimestamp p) ∉ m_labels desc ->
  finalize (m_activeTimestamp p) desc = desc
  /\ (addType_err (m_dataModel p)
        (sinkTypeOf (addTimeStampField (m_activeTimestamp p) desc)) = None ->
      exists p',
        storeDescriptor desc p = (true, p')
        /\ m_typeToDescriptorMap p' !! m_ID desc = Some desc
        /\ dm_types (m_dataModel p') =
           dm_types (m_dataModel p)
           ++ [ {| sk_name := m_name desc; sk_id := m_ID desc;
                   sk_length := m_length desc + 8;
                   sk_format := String "Q" (m_format desc);
                   sk_labels := ts_name (m_activeTimestamp p) :: m_labels desc |} ])
  /\ (forall q,
        m_activeTimestamp q = m_activeTimestamp p ->
        m_length desc - s_HeaderOffset <= size (m_dataBlock q) - m_dataPos q ->
        exists l q1,
          parseDataByDescriptor [] desc q = (true, l, q1)
          /\ Forall (fun entry : NameValuePair => fst entry ∈ m_labels desc) l
          /\ let l1 := (ts_name (m_activeTimestamp p), VUInt (m_lastValidTimeStamp q)) :: l in
             let row := {| row_type := m_name desc; row_values := l1;
                           row_timeLabel := ts_name (m_activeTimestamp p) |} in
             length (filter (fun entry : NameValuePair =>
                               fst entry = ts_name (m_activeTimestamp p)) l1) = 1%nat
             /\ (addRow_err (m_dataModel q) row = None ->
                 exists q2,
                   storeNameValuePairList l desc q1 = Some (true, l1, q2)
                   /\ dm_rows (m_dataModel q2) = dm_rows (m_dataModel q) ++ [row])
             /\ (addRow_err (m_dataModel q) row <> None ->
                 exists q2,
                   storeNameValuePairList l desc q1 = Some (false, l1, q2)
                   /\ dm_rows (m_dataModel q2) = dm_rows (m_dataModel q)))
  /\ (forall native q l,
        hasNoTimestamp native = false ->
        0 <= m_timeStampIndex native < lsize l ->
        exists stored l1 q1,
          storeNameValuePairList l native q = Some (stored, l1, q1)
          /\ l1.*1 = l.*1
          /\ (stored = true ->
              dm_rows (m_dataModel q1) =
              dm_rows (m_dataModel q)
              ++ [ {| row_type := m_name native; row_values := l1;
                      row_timeLabel := ts_name (m_activeTimestamp q) |} ]))
  /\ (forall native q,
        isValid s_STRTMessageType native = true ->
        m_ID native <> s_FMTMessageType ->
        hasNoTimestamp native = false ->
        0 <= m_timeStampIndex native < lsize (m_labels native) ->
        m_length native - s_HeaderOffset <= size (m_dataBlock q) - m_dataPos q ->
        exists l q1,
          parseDataByDescriptor [] native q = (true, l, q1)
          /\ (l = [] \/
              exists stored l1 q2,
                storeNameValuePairList l native q1 = Some (stored, l1, q2)
                /\ l1.*1 = m_labels native
                /\ (stored = true ->
                    dm_rows (m_dataModel q2) =
                    dm_rows (m_dataModel q)
                    ++ [ {| row_type := m_name native; row_values := l1;
                            row_timeLabel := ts_name (m_activeTimestamp q) |} ])))
  /\ (forall q id d,
        Inv q ->
        m_typeToDescriptorMap q !! id = Some d ->
        (hasNoTimestamp d = true <-> ts_name (m_activeTimestamp q) ∉ m_labels d)).
Proof.
  intros Hvalid Hid Hfresh Hflag Hlack. split_and!.
  - by apply finalize_absent.
  - intros Hok. unfold storeDescriptor. rewrite Hvalid, Hfresh.
    destruct (decide (m_ID desc <> s_FMTMessageType)); [|done].
    unfold hasNoTimestamp. rewrite Hflag. simpl.
    unfold addType. simpl. rewrite Hok. simpl.
    eexists. split; [reflexivity|]. simpl. split; [apply lookup_insert_eq|done].
  - intros q Hact Hbuf.
    destruct (parseDataByDescriptor_full [] desc q Hbuf) as (l & st & Hfull & Hdec).
    pose proof (decodeFields_labels desc (list_ascii_of_string (m_format desc)) 0
                  (mid (m_dataBlock q) (m_dataPos q) (m_length desc - s_HeaderOffset)) [] q)
      as Hlab.
    rewrite <- Hdec in Hlab. simpl in Hlab.
    assert (Hlabels : Forall (fun entry : NameValuePair => fst entry ∈ m_labels desc) l).
    { apply Hlab; [|constructor].
      rewrite length_list_ascii_of_string.
      pose proof (isValid_data desc Hvalid Hid) as Heq. unfold qsize, lsize in Heq. lia. }
    eexists l, _. split; [exact Hfull|]. split; [exact Hlabels|]. simpl.
    split_and!.
    + rewrite filter_cons_True by done. simpl. f_equal.
      apply length_zero_iff_nil, filter_none.
      eapply Forall_impl; [exact Hlabels|]. simpl. intros entry Hin Heq.
      apply Hlack. by rewrite <- Heq.
    + intros Hok. unfold storeNameValuePairList, hasNoTimestamp. rewrite Hflag. simpl.
      rewrite Hact. unfold addRow. simpl. rewrite Hok. simpl.
      eexists. split; [reflexivity|]. done.
    + intros Hno. unfold storeNameValuePairList, hasNoTimestamp. rewrite Hflag. simpl.
      rewrite Hact. unfold addRow. simpl.
      destruct (addRow_err _ _) as [err|]; [|done]. simpl.
      eexists. split; [reflexivity|].
      unfold fatal, endTransaction. simpl. by destruct (endTransaction_err _).
  - apply storeNameValuePairList_native.
  - intros native q Hv Hnid Hnative Hidx Hbuf.
    destruct (parseDataByDescriptor_full [] native q Hbuf) as (l & st & Hfull & Hdec).
    eexists l, _. split; [exact Hfull|].
    pose proof (decodeFields_shape native (list_ascii_of_string (m_format native)) 0
                  (mid (m_dataBlock q) (m_dataPos q) (m_length native - s_HeaderOffset))
                  [] q) as Hshape.
    rewrite <- Hdec in Hshape. simpl in Hshape.
    destruct Hshape as [->|(vals & -> & Hlen)]; [by left|]. right.
    rewrite length_list_ascii_of_string in Hlen.
    pose proof (isValid_data native Hv Hnid) as Hsize. unfold qsize, lsize in Hsize.
    assert (Hlab : (labelled native 0 vals).*1 = m_labels native).
    { rewrite labelled_fst by lia. rewrite drop_0. apply firstn_all2. lia. }
    match goal with
    | |- context [storeNameValuePairList ?l0 native ?q0] =>
        destruct (storeNameValuePairList_native native q0 l0 Hnative)
          as (stored & l1 & q2 & Hst & Hfst & Hrows)
    end.
    { unfold lsize in *. rewrite <- (length_fmap fst), Hlab. lia. }
    exists stored, l1, q2. split; [exact Hst|]. split; [congruence|]. exact Hrows.
  - intros q id d Hq Hd.
    destruct (inv_registry q Hq id d Hd) as (_ & _ & Hfin).
    unfold finalizedFor, hasNoTimestamp in *.
    destruct (m_hasTimeStamp d); simpl.
    + destruct Hfin as [Hidx Hne]. split; [done|]. intros Hno. exfalso. apply Hno.
      apply indexOf_present. by rewrite <- Hidx.
    + done.
Qed.

Lemma Inv_parse chunks p e p' : Inv p -> parse chunks p = Done e p' -> Inv p'.
Proof.
  unfold parse, startTransaction. intros Hinv H.
  destruct (null_dataModel p || null_callbackObject p); [by inversion H; subst|].
  destruct (startTransaction_err (m_dataModel p)); simpl in H.
  - inversion H; subst. inv_same Hinv. apply Hinv.
  - match type of H with
    | context [readLoop ?a ?b ?c ?q] =>
        assert (Hq : Inv q) by (inv_same Hinv; apply Hinv);
        destruct (readLoop a b c q) as [e1 p1| |] eqn:E; try discriminate
    end.
    apply (Inv_readLoop _ _ _ _ _ _ Hq) in E.
    assert (Hfin : forall q1, Inv q1 ->
              (let '(ended, m2) := endTransaction (m_dataModel q1) in
               let p3 := with_dataModel m2 q1 in
               if negb ended
               then Done Fatal
                      (with_callbackObject (onError (dm_error m2) (m_callbackObject p3)) p3)
               else Done GuardFalse
                      (with_dataModel
                         (setAllRowsHaveTime (ts_name (m_activeTimestamp p3))
                            (ts_divisor (m_activeTimestamp p3)) (m_dataModel p3)) p3))
              = Done e p' -> Inv p').
    { intros q1 Hq1. unfold endTransaction.
      destruct (endTransaction_err (m_dataModel q1)); simpl; intros Heq;
        inversion Heq; subst; inv_same Hq1; apply Hq1. }
    destruct e1.
    + eapply Hfin; [|exact H]. destruct (decide _); [|exact E]. inv_same E. apply E.
    + eapply Hfin; [|exact H]. destruct (decide _); [|exact E]. inv_same E. apply E.
    + by inversion H; subst.
    + eapply Hfin; [|exact H]. destruct (decide _); [|exact E]. inv_same E. apply E.
Qed.

(** *** Monotone timestamps *)

(** C4.  A row whose descriptor has a native timestamp is stored after
    [readTimeStamp]: when the raw integer at the index is at least the last
    valid timestamp, that becomes the last valid timestamp and neither the
    row nor the incidents change; otherwise the last valid timestamp stays,
    the value at the index is overwritten with it and a CorruptTime incident
    is recorded.  And after any run of [parse] on a parser in a consistent
    state, as a new parser is, of any two consecutive rows of the sink the
    second has a timestamp at least as large as the first; the timestamp of
    a row is the raw integer, as [readTimeStamp] reads it, of its field with
    the time label. *)
Theorem timestamps_are_monotone :
  (forall l desc p stored l1 p',
     hasNoTimestamp desc = false ->
     storeNameValuePairList l desc p = Some (stored, l1, p') ->
     exists entry,
       0 <= m_timeStampIndex desc
       /\ l !! Z.to_nat (m_timeStampIndex desc) = Some entry
       /\ if decide (toULongLong (snd entry) >= m_lastValidTimeStamp p)
          then l1 = l
               /\ m_lastValidTimeStamp p' = toULongLong (snd entry)
               /\ incidents (m_logLoadingState p') = incidents (m_logLoadingState p)
          else l1 = <[Z.to_nat (m_timeStampIndex desc) :=
                        (fst entry, VUInt (m_lastValidTimeStamp p))]> l
               /\ m_lastValidTimeStamp p' = m_lastValidTimeStamp p
               /\ incidents (m_logLoadingState p') =
                  incidents (m_logLoadingState p)
                  ++ [CorruptTime (m_MessageCounter p)
                        (MsgTimeNotIncreasing (m_lastValidTimeStamp p)
                           (toULongLong (snd entry)))])
  /\ (forall chunks p e p' before r1 r2 after,
        Inv p ->
        parse chunks p = Done e p' ->
        dm_rows (m_dataModel p') = before ++ r1 :: r2 :: after ->
        exists t1 t2, rowTime r1 = Some t1 /\ rowTime r2 = Some t2 /\ t1 <= t2)
  /\ Inv newParser.
Proof.
  split_and!.
  - intros l desc p stored l1 p' Hflag H. unfold storeNameValuePairList in H.
    rewrite Hflag in H.
    destruct (readTimeStamp l (m_timeStampIndex desc) p) as [[l2 p2]|] eqn:E; [|discriminate].
    apply readTimeStamp_spec in E as (entry & Hidx & Hentry & E).
    exists entry. split; [done|]. split; [done|]. simpl in H.
    assert (Hout : l1 = l2 /\ m_lastValidTimeStamp p' = m_lastValidTimeStamp p2
                   /\ incidents (m_logLoadingState p') = incidents (m_logLoadingState p2)).
    { unfold addRow in H. destruct (addRow_err _ _); simpl in H; inversion H; subst; done. }
    destruct Hout as (-> & Hlast & Hinc). rewrite Hlast, Hinc.
    destruct (decide _).
    + destruct E as [-> ->]. done.
    + destruct E as (-> & Hl & Hi & _). done.
  - intros chunks p e p' before r1 r2 after Hp Hrun Hrows.
    pose proof (Inv_parse _ _ _ _ Hp Hrun) as Hinv.
    destruct (inv_rows _ Hinv) as [Hord _]. rewrite Hrows in Hord.
    eapply rowsOrdered_consecutive; eauto.
  - apply Inv_newParser.
Qed.

(** *** When the loops halt *)

Lemma recordLoop_exit fuel : forall p e p',
  recordLoop fuel p = Done e p' ->
  match e with
  | GuardFalse => size (m_dataBlock p') - m_dataPos p' <= s_MinHeaderSize \/ m_stop p' = true
  | ShortRead => exists q, parseBody q = Some (Break p')
  | Fatal => exists q, parseBody q = Some (Return p')
  | NullPointer => False
  end.
Proof.
  induction fuel as [|k IH]; intros p e p' H; simpl in H.
  - destruct (recordGuard p) eqn:G; [discriminate|]. inversion H; subst.
    unfold recordGuard in G. apply andb_false_iff in G as [G|G].
    + left. apply bool_decide_eq_false in G. lia.
    + right. by apply negb_false_iff in G.
  - destruct (recordGuard p) eqn:G.
    + destruct (parseBody p) as [[p1|p1|p1]|] eqn:E; try discriminate.
      * exact (IH _ _ _ H).
      * inversion H; subst. eauto.
      * inversion H; subst. eauto.
    + inversion H; subst.
      unfold recordGuard in G. apply andb_false_iff in G as [G|G].
      * left. apply bool_decide_eq_false in G. lia.
      * right. by apply negb_false_iff in G.
Qed.


(** ** Further properties of the code *)

(** *** The field decoder *)

Lemma ascii_of_u8 b : ascii_of_N (Z.to_N (u8 b)) = ascii_of_byte b.
Proof. unfold u8. rewrite N2Z.id. by destruct b. Qed.

Lemma u8_zero b : u8 b = 0 <-> b = x00.
Proof. split; [|by intros ->]. by destruct b. Qed.


(** X1: the loops of the codes n, N and Z keep every byte of their window
    that is not zero, in the order of the stream and also behind a zero
    byte, and always take the whole window from the stream. *)
Theorem readChars_keeps_nonzero_bytes count : forall stream,
  readChars count stream =
  (string_of_list_byte
     (List.filter (fun b => negb (Byte.eqb b x00)) (take count stream)),
   drop count stream).
Proof.
  induction count as [|k IH]; intros stream; [by destruct stream|].
  cbn [readChars]. destruct stream as [|b rest].
  - unfold readRaw. simpl. rewrite IH. by destruct k.
  - unfold readRaw. simpl. rewrite drop_0, IH, Z.add_0_r.
    destruct (decide (u8 b = 0)) as [Hz|Hz].
    + apply u8_zero in Hz. by subst b.
    + assert (Byte.eqb b x00 = false) as ->.
      { destruct (Byte.eqb b x00) eqn:E; [|done].
        apply Byte.byte_dec_bl in E. by apply u8_zero in E. }
      unfold string_of_list_byte. simpl. by rewrite ascii_of_u8.
Qed.

Ltac ladder c :=
  repeat match goal with
         | |- context [Ascii.eqb c ?k] =>
             let E := fresh "E" in
             destruct (Ascii.eqb c k) eqn:E; [apply Ascii.eqb_eq in E; subst c|]
         end;
  cbv beta iota.

Lemma readRaw_snd n stream : snd (readRaw n stream) = drop n stream.
Proof.
  unfold readRaw. destruct (decide _); simpl; [done|]. rewrite drop_ge; [done|lia].
Qed.

Lemma readChars_snd n : forall stream, snd (readChars n stream) = drop n stream.
Proof.
  induction n as [|k IH]; intros stream; [done|].
  cbn [readChars]. pose proof (readRaw_snd 1 stream) as H1.
  destruct (readRaw 1 stream) as [ch s1]. specialize (IH s1).
  destruct (readChars k s1) as [val s2]. simpl in *. subst. by rewrite drop_drop.
Qed.

Lemma decodeField_unknown typeCode stream :
  fieldSize typeCode = None -> decodeField typeCode stream = (UnknownCode, stream).
Proof. unfold fieldSize, decodeField. ladder typeCode; intros H; done. Qed.





(** X2: every format character of the alphabet takes exactly the bytes of
    its C type from the record body, whatever the bytes are and also when
    the body is too short; any other character takes nothing and is
    reported as unknown. *)
Theorem decodeField_consumes_fieldSize typeCode stream :
  match fieldSize typeCode with
  | Some n => snd (decodeField typeCode stream) = drop n stream
              /\ fst (decodeField typeCode stream) <> UnknownCode
  | None => decodeField typeCode stream = (UnknownCode, stream)
  end.
Proof.
  unfold fieldSize, decodeField. ladder typeCode;
    try reflexivity;
    try (match goal with
         | |- context [readRaw ?n stream] =>
             pose proof (readRaw_snd n stream) as Hs;
             destruct (readRaw n stream) as [v s]
         | |- context [readChars ?n stream] =>
             pose proof (readChars_snd n stream) as Hs;
             destruct (readChars n stream) as [v s]
         end; cbn [snd] in Hs; subst s; try destruct (isNaN v);
         cbn [fst snd]; (split; [done|discriminate])).
Qed.


(** *** Descriptors and the timestamp conventions *)

(** X4: [finalize] marks the first field that carries the name of the
    timestamp.  It changes nothing but the flag and the index, a second call
    changes nothing more, the flag is never cleared, and without the name
    among the labels the descriptor stays as it is. *)
Theorem finalize_marks_first_occurrence timeStamp d :
  finalize timeStamp (finalize timeStamp d) = finalize timeStamp d
  /\ sinkTypeOf (finalize timeStamp d) = sinkTypeOf d
  /\ (m_hasTimeStamp (finalize timeStamp d) = true <->
      m_hasTimeStamp d = true \/ ts_name timeStamp ∈ m_labels d)
  /\ (ts_name timeStamp ∈ m_labels d ->
      0 <= m_timeStampIndex (finalize timeStamp d)
      /\ m_labels d !! Z.to_nat (m_timeStampIndex (finalize timeStamp d))
         = Some (ts_name timeStamp)
      /\ forall j y, (j < Z.to_nat (m_timeStampIndex (finalize timeStamp d)))%nat ->
           m_labels d !! j = Some y -> y <> ts_name timeStamp)
  /\ ((ts_name timeStamp ∉ m_labels d) -> finalize timeStamp d = d).
Proof.
  unfold finalize.
  destruct (decide (indexOf (m_labels d) (ts_name timeStamp) <> -1)) as [Hi|Hi]; simpl.
  - rewrite decide_True by done. simpl. split_and!; try done.
    + split; [|done]. intros _. right. by apply indexOf_present.
    + intros _. destruct (indexOf_lookup _ _ _ eq_refl Hi) as [Hl Hfirst].
      destruct (indexOf_range (m_labels d) (ts_name timeStamp)); [done|].
      split_and!; [lia|done|]. intros j y Hj Hy. by apply (Hfirst j Hj).
    + intros Hn. by apply indexOf_absent in Hn.
  - rewrite decide_False by done. split_and!; try done.
    + split; [by left|]. intros [H|H]; [done|].
      exfalso. apply Hi. intros Hm. by apply indexOf_minus_one in Hm.
    + intros H. exfalso. apply Hi. intros Hm. by apply indexOf_minus_one in Hm.
Qed.

(** X5: the search for the timestamp convention takes the first candidate,
    in the order of the candidate list, whose name is among the labels.  With
    the two candidates of the constructor a descriptor that has a TimeUS
    field selects TimeUS, also when it has a TimeMS field as well. *)
Theorem findTimestamp_first_candidate candidates labels :
  match findTimestamp candidates labels with
  | Some timeStamp =>
      exists before after,
        candidates = before ++ timeStamp :: after
        /\ ts_name timeStamp ∈ labels
        /\ Forall (fun c => ts_name c ∉ labels) before
  | None => Forall (fun c => ts_name c ∉ labels) candidates
  end
  /\ ("TimeUS"%string ∈ labels ->
      findTimestamp (m_possibleTimestamps newParser) labels = Some timeUS).
Proof.
  split.
  - induction candidates as [|c rest IH]; simpl; [done|].
    unfold contains. destruct (bool_decide (ts_name c ∈ labels)) eqn:E.
    + apply bool_decide_eq_true in E. by exists [], rest.
    + apply bool_decide_eq_false in E.
      destruct (findTimestamp rest labels) as [t|].
      * destruct IH as (before & after & -> & Hin & Hbefore).
        exists (c :: before), after. split_and!; [done|done|]. by constructor.
      * by constructor.
  - intros H. simpl. unfold contains. by rewrite bool_decide_eq_true_2.
Qed.

Lemma length_replaceFirst l oldName newName :
  length (replaceFirst l oldName newName) = length l.
Proof.
  induction l as [|y rest IH]; simpl; [done|]. destruct (decide _); simpl; congruence.
Qed.

Lemma replaceFirst_other l oldName newName : forall i y,
  l !! i = Some y -> y <> oldName -> replaceFirst l oldName newName !! i = Some y.
Proof.
  induction l as [|x rest IH]; intros i y Hl Hy; simpl; [done|].
  destruct (decide (x = oldName)) as [->|Hx].
  - destruct i; simpl in *; [congruence|done].
  - destruct i; simpl in *; [done|]. by apply IH.
Qed.

Lemma replaceFirst_first l oldName newName : forall i,
  indexOf l oldName = Z.of_nat i -> replaceFirst l oldName newName !! i = Some newName.
Proof.
  induction l as [|x rest IH]; intros i Hi; simpl in *; [lia|].
  destruct (decide (x = oldName)) as [->|Hx].
  - by assert (i = O) as -> by lia.
  - destruct (decide (indexOf rest oldName = -1)); [lia|].
    destruct i; [pose proof (indexOf_range rest oldName); lia|]. simpl. apply IH. lia.
Qed.

Lemma replaceFirst_absent l oldName newName :
  NoDup l -> newName <> oldName -> oldName ∉ replaceFirst l oldName newName.
Proof.
  intros Hnd Hne. induction Hnd as [|x rest Hx Hnd IH]; simpl; [apply not_elem_of_nil|].
  destruct (decide (x = oldName)) as [->|Hxo].
  - apply not_elem_of_cons. split; [congruence|done].
  - apply not_elem_of_cons. split; [congruence|done].
Qed.

Lemma replaceFirst_elem l oldName newName x :
  x ∈ replaceFirst l oldName newName -> x = newName \/ x ∈ l.
Proof.
  induction l as [|y rest IH]; simpl; [auto|].
  destruct (decide (y = oldName)) as [->|Hy].
  - intros [->|H]%elem_of_cons; [by left|right; by apply elem_of_cons; right].
  - intros [->|H]%elem_of_cons; [right; by apply elem_of_cons; left|].
    destruct (IH H); [by left|right; by apply elem_of_cons; right].
Qed.

(** X6: the TimeMS field of a GPS descriptor is not taken for the time of
    its rows.  For a descriptor named GPS whose labels are distinct, the loop
    body works with the labels in which TimeMS became GPSTimeMS and every
    other label kept its place: under the active timestamp TimeMS the
    descriptor is handed on unflagged, and before any timestamp is active a
    GPS descriptor without a TimeUS field is queued without selecting a
    convention. *)
Theorem gps_time_is_not_the_row_time descriptor p :
  m_name descriptor = "GPS"%string ->
  m_hasTimeStamp descriptor = false ->
  NoDup (m_labels descriptor) ->
  let descriptor1 := replaceLabelName "TimeMS" "GPSTimeMS" descriptor in
  ("TimeMS"%string ∉ m_labels descriptor1)
  /\ length (m_labels descriptor1) = length (m_labels descriptor)
  /\ (forall i y, m_labels descriptor !! i = Some y -> y <> "TimeMS"%string ->
        m_labels descriptor1 !! i = Some y)
  /\ (forall i, m_labels descriptor !! i = Some "TimeMS"%string ->
        m_labels descriptor1 !! i = Some "GPSTimeMS"%string)
  /\ (ts_name (m_activeTimestamp p) = "TimeMS"%string ->
      m_hasTimeStamp (finalize (m_activeTimestamp p) descriptor1) = false
      /\ fmtBranch descriptor p =
         let '(rc, p1) := extendedStoreDescriptor descriptor1 p in
         if rc then Continue p1 else Return p1)
  /\ (ts_valid (m_activeTimestamp p) = false ->
      m_possibleTimestamps p = m_possibleTimestamps newParser ->
      ("TimeUS"%string ∉ m_labels descriptor) ->
      fmtBranch descriptor p =
      Continue (with_descriptorForDeferredStorage
                  (m_descriptorForDeferredStorage p ++ [descriptor1]) p)).
Proof.
  intros Hname Hflag Hnd descriptor1.
  assert (Habs : "TimeMS"%string ∉ m_labels descriptor1).
  { simpl. by apply replaceFirst_absent. }
  split_and!; try done.
  - simpl. apply length_replaceFirst.
  - intros i y Hl Hy. simpl. by apply replaceFirst_other.
  - intros i Hl. simpl. apply replaceFirst_first.
    destruct (indexOf_range (m_labels descriptor) "TimeMS") as [Hm|Hr].
    { apply indexOf_minus_one in Hm. exfalso. apply Hm. by eapply list_elem_of_lookup_2. }
    destruct (indexOf_lookup (m_labels descriptor) "TimeMS" _ eq_refl ltac:(lia)) as [Hk _].
    pose proof (NoDup_lookup _ _ _ _ Hnd Hk Hl). lia.
  - intros Ha.
    assert (Hfin : finalize (m_activeTimestamp p) descriptor1 = descriptor1).
    { apply finalize_absent. by rewrite Ha. }
    split; [by rewrite Hfin|].
    unfold fmtBranch. rewrite decide_True by done. fold descriptor1.
    assert (ts_valid (m_activeTimestamp p) = true) as ->.
    { unfold ts_valid. rewrite Ha. done. }
    by rewrite Hfin.
  - intros Hv Hposs Hus. unfold fmtBranch. rewrite decide_True by done.
    fold descriptor1. rewrite Hv. unfold checkForValidTimestamp. rewrite Hposs.
    assert (findTimestamp (m_possibleTimestamps newParser) (m_labels descriptor1) = None)
      as ->.
    { simpl. unfold contains.
      rewrite bool_decide_eq_false_2.
      - by rewrite bool_decide_eq_false_2.
      - intros [H|H]%replaceFirst_elem; [done|done]. }
    by rewrite Hv.
Qed.

(** *** Records that give no row *)

(** X7: a record whose type has no descriptor costs its three header bytes
    and one CorruptData incident, and the scan goes on with the first byte
    of its body.  As long as no timestamp convention is active the registry
    is empty, so every data record met before the discovery ends like
    this. *)
Theorem record_without_descriptor_is_skipped p p1 :
  headerIsValid p = Some (true, p1) ->
  m_messageType p1 <> s_FMTMessageType ->
  m_typeToDescriptorMap p !! m_messageType p1 = None
  \/ (Inv p /\ ts_valid (m_activeTimestamp p) = false) ->
  parseBody p
  = Some (Continue (corruptDataRead (MsgNoDescriptor (m_messageType p1)) p1))
  /\ p1 = with_messageType (m_messageType p1) (with_dataPos (m_dataPos p + 3) p).
Proof.
  intros Hh Hfmt Hreg.
  destruct (headerIsValid_frame p true p1 Hh) as (n & t & Hp1 & _ & _ & -> & Ht).
  assert (Hnone : m_typeToDescriptorMap p1 !! m_messageType p1 = None).
  { assert (m_typeToDescriptorMap p1 = m_typeToDescriptorMap p) as -> by by rewrite Hp1.
    destruct Hreg as [H|[Hinv Hv]]; [done|].
    pose proof (inv_pending p Hinv) as Hp. rewrite Hv in Hp. destruct Hp as [_ ->].
    apply lookup_empty. }
  split; [|by rewrite <- Ht].
  unfold parseBody. rewrite Hh. simpl. rewrite decide_False by done. by rewrite Hnone.
Qed.

(** X8: a record of a descriptor with an empty format, which only the STRT
    descriptor may have, gives no row: its body is taken from the buffer and
    the Status gets the CorruptData incident "No values within data
    message"; the count of valid rows stays. *)
Theorem record_of_empty_format_has_no_values desc p :
  m_format desc = ""%string ->
  m_length desc - s_HeaderOffset <= size (m_dataBlock p) - m_dataPos p ->
  dataBranch desc p
  = Some (Continue
            (corruptDataRead MsgNoValues
               (with_dataPos 0
                  (with_dataBlock
                     (drop (Z.to_nat (m_dataPos p + (m_length desc - s_HeaderOffset)))
                        (m_dataBlock p)) p))))
  /\ (isValid s_STRTMessageType desc = true ->
      m_ID desc = s_STRTMessageType /\ m_labels desc = []).
Proof.
  intros Hf Hbuf. split.
  - destruct (parseDataByDescriptor_full [] desc p Hbuf) as (l' & st & Heq & Hdec).
    rewrite Hf in Hdec. simpl in Hdec.
    assert (l' = [] /\ with_logLoadingState st p = p) as [-> Hst] by (split; congruence).
    unfold dataBranch. rewrite Heq. simpl.
    by rewrite Hst.
  - unfold isValid. rewrite Hf. intros H.
    destruct (decide (m_ID desc = s_FMTMessageType)).
    { rewrite !andb_true_iff in H. destruct H as [[_ H] _].
      apply bool_decide_eq_true in H. unfold qsize in H. simpl in H. lia. }
    destruct (decide (m_ID desc = s_STRTMessageType)).
    + rewrite !andb_true_iff in H. destruct H as [_ H].
      apply bool_decide_eq_true in H. unfold qsize, lsize in H. simpl in H.
      split; [done|]. destruct (m_labels desc); [done|simpl in H; lia].
    + rewrite !andb_true_iff in H. destruct H as [[_ H] _].
      apply bool_decide_eq_true in H. unfold qsize in H. simpl in H. lia.
Qed.

(** X9: a format character outside the alphabet discards the record like a
    NaN does.  When the fields before it decode, the decoder records a
    CorruptData incident that names the character and the type, clears the
    list and leaves the loop; the loop body of [parse] adds the incident "No
    values within data message".  No row reaches the sink and the record is
    taken from the buffer in full. *)
Theorem unknown_format_character_discards_record desc p pre typeCode post vals s :
  m_length desc - s_HeaderOffset <= size (m_dataBlock p) - m_dataPos p ->
  list_ascii_of_string (m_format desc) = pre ++ typeCode :: post ->
  decodeValues pre (mid (m_dataBlock p) (m_dataPos p) (m_length desc - s_HeaderOffset))
    = Some (vals, s) ->
  fieldSize typeCode = None ->
  exists p',
    dataBranch desc p = Some (Continue p')
    /\ m_dataModel p' = m_dataModel p
    /\ validData (m_logLoadingState p') = validData (m_logLoadingState p)
    /\ incidents (m_logLoadingState p') =
       incidents (m_logLoadingState p)
       ++ [CorruptData (to_int (m_MessageCounter p)) (MsgUnknownDataType typeCode (m_name desc));
           CorruptData (to_int (m_MessageCounter p)) MsgNoValues]
    /\ m_dataBlock p' =
       drop (Z.to_nat (m_dataPos p + (m_length desc - s_HeaderOffset))) (m_dataBlock p)
    /\ m_dataPos p' = 0.
Proof.
  intros Hbuf Hfmt Hpre Hunk.
  destruct (parseDataByDescriptor_full [] desc p Hbuf) as (l' & st & Heq & Hdec).
  rewrite Hfmt in Hdec.
  rewrite (decodeFields_values desc pre 0 _ [] p _ vals s Hpre) in Hdec.
  cbn [decodeFields] in Hdec. rewrite (decodeField_unknown typeCode s Hunk) in Hdec.
  inversion Hdec as [[Hl Hst]]. subst l'.
  unfold dataBranch. rewrite Heq. simpl.
  eexists. split; [reflexivity|]. simpl.
  subst st. simpl. rewrite <- app_assoc. simpl. done.
Qed.

(** *** The bookkeeping of a run *)

Lemma countTime_snoc l i :
  countTime (l ++ [i]) = countTime l + (if isCorruptTime i then 1 else 0).
Proof.
  unfold countTime, lsize. rewrite List.filter_app, length_app. simpl.
  destruct (isCorruptTime i); simpl; lia.
Qed.

Lemma accounts_refl p : accounts p p.
Proof. split; try done; try lia. by left. Qed.

Lemma accounts_trans p1 p2 p3 : accounts p1 p2 -> accounts p2 p3 -> accounts p1 p3.
Proof.
  intros [] []. split; try lia; try congruence.
  - intros H. destruct (acc_kind0 H) as [H1 H2]. rewrite <- H1 in H.
    destruct (acc_kind1 H). split; congruence.
  - intros H.
    destruct (decide (m_loadedLogType p2 = MAV_TYPE_GENERIC)) as [H2|H2].
    + rewrite (acc_generic1 H). auto.
    + destruct (acc_kind1 H2). congruence.
  - intros H1 H3.
    destruct (decide (m_loadedLogType p2 = MAV_TYPE_GENERIC)) as [H2|H2].
    + auto.
    + destruct (acc_kind1 H2) as [Hk Hs]. rewrite Hk, Hs. auto.
  - destruct acc_active0 as [H0|[Hv H0]], acc_active1 as [H1|[Hv1 H1]].
    + left. congruence.
    + right. rewrite <- H0, <- acc_possible0. auto.
    + right. rewrite H1. auto.
    + right. rewrite <- acc_possible0. auto.
Qed.

Ltac acc_now :=
  split; simpl; rewrite ?countTime_snoc; unfold lsize; rewrite ?length_app; simpl;
  try solve [ done | lia | by left ].

Lemma accounts_fatal p : accounts p (fatal p).
Proof.
  unfold fatal, endTransaction. destruct (endTransaction_err _); acc_now.
Qed.

Lemma accounts_decodeFields desc format : forall i stream acc p,
  accounts p (snd (decodeFields desc i format stream acc p)).
Proof.
  induction format as [|c rest IH]; intros i stream acc p; simpl; [apply accounts_refl|].
  destruct (decodeField c stream) as [[v| |] s]; [apply IH| |]; acc_now.
Qed.

Lemma accounts_headerIsValid p valid p' :
  headerIsValid p = Some (valid, p') -> accounts p p'.
Proof.
  intros H. apply headerIsValid_frame in H as (n & t & -> & _). acc_now.
Qed.

Lemma accounts_parseFMTMessage desc p parsed desc' p' :
  parseFMTMessage desc p = Some (parsed, desc', p') -> accounts p p'.
Proof.
  intros H. apply parseFMTMessage_frame in H as (_ & _ & _ & _ & _ & H).
  destruct parsed; destruct H as [-> _]; acc_now.
Qed.

Lemma accounts_storeDescriptor desc p : accounts p (snd (storeDescriptor desc p)).
Proof.
  unfold storeDescriptor.
  destruct (isValid _ desc); [|acc_now].
  destruct (m_typeToDescriptorMap p !! m_ID desc) eqn:E; [acc_now|].
  destruct (decide _); [|acc_now].
  unfold addType. simpl.
  destruct (addType_err _ _); simpl.
  - eapply accounts_trans; [|apply accounts_fatal]. acc_now.
  - acc_now.
Qed.

Lemma accounts_storeDeferred queue : forall rc p,
  accounts p (snd (storeDeferred queue rc p)).
Proof.
  induction queue as [|d rest IH]; intros rc p; simpl.
  - apply accounts_refl.
  - pose proof (accounts_storeDescriptor d p) as H.
    destruct (storeDescriptor d p) as [localRc p1]. simpl in H.
    eapply accounts_trans; [exact H|apply IH].
Qed.

Lemma accounts_extendedStoreDescriptor desc p :
  accounts p (snd (extendedStoreDescriptor desc p)).
Proof.
  unfold extendedStoreDescriptor.
  pose proof (accounts_storeDeferred (m_descriptorForDeferredStorage p) true p) as H.
  destruct (storeDeferred _ _ _) as [rc p1]. simpl in H.
  assert (H2 : accounts p (with_descriptorForDeferredStorage [] p1)).
  { eapply accounts_trans; [exact H|]. acc_now. }
  destruct rc; [|exact H2].
  eapply accounts_trans; [exact H2|apply accounts_storeDescriptor].
Qed.

Lemma accounts_parseDataByDescriptor l desc p :
  accounts p (snd (parseDataByDescriptor l desc p)).
Proof.
  unfold parseDataByDescriptor. destruct (decide _); [apply accounts_refl|].
  pose proof (accounts_decodeFields desc (list_ascii_of_string (m_format desc)) 0
                (mid (m_dataBlock p) (m_dataPos p) (m_length desc - s_HeaderOffset)) [] p) as H.
  destruct (decodeFields _ _ _ _ _ _) as [l' p1]. simpl in *.
  eapply accounts_trans; [exact H|]. acc_now.
Qed.

Lemma accounts_readTimeStamp l idx p l' p' :
  readTimeStamp l idx p = Some (l', p') -> accounts p p'.
Proof.
  unfold readTimeStamp. intros H.
  destruct (decide (0 <= idx)); [|discriminate].
  destruct (l !! Z.to_nat idx) as [entry|]; [|discriminate]. simpl in H.
  destruct (decide (_ >= _)); inversion H; subst; clear H; [acc_now|].
  repeat destruct (decide _); acc_now.
Qed.

Lemma accounts_storeNameValuePairList l desc p stored l' p' :
  storeNameValuePairList l desc p = Some (stored, l', p') -> accounts p p'.
Proof.
  unfold storeNameValuePairList. intros H.
  assert (Hstep : forall l1 p1, accounts p p1 ->
            (let row := {| row_type := m_name desc; row_values := l1;
                           row_timeLabel := ts_name (m_activeTimestamp p1) |} in
             let '(ok, m) := addRow row (m_dataModel p1) in
             if ok then
               let p2 := with_dataModel m p1 in
               let p3 := with_MessageCounter (m_MessageCounter p2 + 1) p2 in
               Some (true, l1, with_logLoadingState (validDataRead (m_logLoadingState p3)) p3)
             else Some (false, l1, fatal (with_dataModel m p1)))
            = Some (stored, l', p') -> accounts p p').
  { intros l1 p1 Hacc. unfold addRow. simpl.
    destruct (addRow_err _ _); simpl; intros Heq; inversion Heq; subst; clear Heq;
      (eapply accounts_trans; [exact Hacc|]).
    - eapply accounts_trans; [|apply accounts_fatal]. acc_now.
    - acc_now. }
  destruct (hasNoTimestamp desc).
  - simpl in H. eapply Hstep; [apply accounts_refl|exact H].
  - destruct (readTimeStamp l (m_timeStampIndex desc) p) as [[l1 p1]|] eqn:E; [|discriminate].
    simpl in H. eapply Hstep; [|exact H]. eapply accounts_readTimeStamp; eauto.
Qed.

Lemma accounts_checkForValidTimestamp desc p :
  ts_valid (m_activeTimestamp p) = false ->
  accounts p (checkForValidTimestamp desc p).
Proof.
  intros Hv. unfold checkForValidTimestamp.
  destruct (findTimestamp _ _) as [t|] eqn:E; [|acc_now].
  apply findTimestamp_Some in E as [Hin _]. acc_now. by right.
Qed.

(** [detectMavType] keeps the books when it is called as [parse] calls it:
    with no vehicle kind detected yet. *)
Lemma accounts_detectMavType l p p' :
  m_loadedLogType p = MAV_TYPE_GENERIC ->
  detectMavType l p = Some p' -> accounts p p'.
Proof.
  unfold detectMavType. intros Hg H.
  destruct (l !! findName l 0) as [entry|]; [|discriminate]. simpl in H.
  inversion H; subst; clear H.
  repeat match goal with
         | |- context [if ?b then _ else _] => destruct b
         end; simpl; rewrite ?Hg; acc_now.
Qed.

Lemma accounts_fmtBranch descriptor p : accounts p (flowState (fmtBranch descriptor p)).
Proof.
  unfold fmtBranch.
  destruct (ts_valid (m_activeTimestamp p)) eqn:Hv.
  - match goal with
    | |- context [extendedStoreDescriptor ?d p] =>
        pose proof (accounts_extendedStoreDescriptor d p) as H;
        destruct (extendedStoreDescriptor d p) as [[] p1]
    end; exact H.
  - simpl. by apply accounts_checkForValidTimestamp.
Qed.

Lemma accounts_dataBranch descriptor p f :
  dataBranch descriptor p = Some f -> accounts p (flowState f).
Proof.
  unfold dataBranch. intros H.
  pose proof (accounts_parseDataByDescriptor [] descriptor p) as H1.
  destruct (parseDataByDescriptor [] descriptor p) as [[parsed l] p1]. simpl in H1.
  destruct parsed; [|by inversion H; subst].
  destruct (decide (lsize l >= 1)).
  - destruct (storeNameValuePairList l descriptor p1) as [[[stored l1] p2]|] eqn:E;
      [|discriminate].
    apply accounts_storeNameValuePairList in E. simpl in H.
    destruct stored.
    + destruct (decide _) as [[Hg _]|].
      * destruct (detectMavType l1 p2) as [p3|] eqn:E3; [|discriminate].
        apply (accounts_detectMavType _ _ _ Hg) in E3. inversion H; subst; simpl.
        eauto using accounts_trans.
      * inversion H; subst; simpl. eauto using accounts_trans.
    + inversion H; subst; simpl. eauto using accounts_trans.
  - inversion H; subst; simpl. eapply accounts_trans; [exact H1|]. acc_now.
Qed.

Lemma accounts_parseBody p f : parseBody p = Some f -> accounts p (flowState f).
Proof.
  unfold parseBody. intros H.
  destruct (headerIsValid p) as [[valid p1]|] eqn:E; [|discriminate].
  apply accounts_headerIsValid in E. simpl in H.
  destruct valid; simpl in H.
  - destruct (decide (m_messageType p1 = s_FMTMessageType)).
    + destruct (parseFMTMessage newDescriptor p1) as [[[parsed d] p2]|] eqn:E2;
        [|discriminate].
      apply accounts_parseFMTMessage in E2. simpl in H.
      destruct parsed; inversion H; subst; simpl; [|eauto using accounts_trans].
      eapply accounts_trans; [|apply accounts_fmtBranch]. eauto using accounts_trans.
    + destruct (m_typeToDescriptorMap p1 !! m_messageType p1) as [d|].
      * apply accounts_dataBranch in H. eauto using accounts_trans.
      * inversion H; subst; simpl. eapply accounts_trans; [exact E|]. acc_now.
  - inversion H; subst; simpl. eapply accounts_trans; [exact E|]. acc_now.
Qed.

Lemma accounts_recordLoop fuel : forall p e p',
  recordLoop fuel p = Done e p' -> accounts p p'.
Proof.
  induction fuel as [|k IH]; intros p e p' H; simpl in H.
  - destruct (recordGuard p); [discriminate|]. inversion H; subst. apply accounts_refl.
  - destruct (recordGuard p); [|inversion H; subst; apply accounts_refl].
    destruct (parseBody p) as [[p1|p1|p1]|] eqn:E; try discriminate;
      apply accounts_parseBody in E; simpl in E.
    + eauto using accounts_trans.
    + by inversion H; subst.
    + by inversion H; subst.
Qed.

Lemma accounts_refill chunk p : accounts p (refill chunk p).
Proof. unfold refill. destruct (decide _); acc_now. Qed.

Lemma accounts_readLoop chunks : forall pos total p e p',
  readLoop pos total chunks p = Done e p' -> accounts p p'.
Proof.
  induction chunks as [|chunk rest IH]; intros pos total p e p' H; cbn [readLoop] in H.
  - inversion H; subst. apply accounts_refl.
  - destruct (m_stop p); [inversion H; subst; apply accounts_refl|].
    match type of H with
    | context [recordLoop ?n ?q] =>
        destruct (recordLoop n q) as [e1 p3| |] eqn:E; try discriminate;
        assert (Hq : accounts p q)
          by (eapply accounts_trans; [|apply accounts_refill]; acc_now)
    end.
    apply accounts_recordLoop in E.
    destruct e1.
    + apply IH in H. eauto using accounts_trans.
    + apply IH in H. eauto using accounts_trans.
    + inversion H; subst. eauto using accounts_trans.
    + apply IH in H. eauto using accounts_trans.
Qed.

(** *** The ways out of [parse] *)

Lemma parse_Done chunks p e p' :
  parse chunks p = Done e p' ->
  let m := snd (startTransaction (m_dataModel p)) in
  (null_dataModel p || null_callbackObject p = true /\ e = NullPointer /\ p' = p)
  \/ null_dataModel p || null_callbackObject p = false /\
  ((exists err,
     startTransaction_err (m_dataModel p) = Some err /\ e = Fatal
     /\ p' = with_callbackObject (onError err (m_callbackObject p)) (with_dataModel m p))
  \/ (startTransaction_err (m_dataModel p) = None
      /\ exists e1 p1,
          readLoop 0 (size (concat chunks)) chunks
            (with_noMessageBytes 0 (with_dataModel m p)) = Done e1 p1
          /\ ((e1 = Fatal /\ e = Fatal /\ p' = p1)
              \/ (e1 <> Fatal
                  /\ let p2 :=
                       if decide (noMessageBytes p1 > 0)
                       then with_logLoadingState
                              (setNoMessageBytes (noMessageBytes p1) (m_logLoadingState p1)) p1
                       else p1 in
                     let m2 := snd (endTransaction (m_dataModel p2)) in
                     match endTransaction_err (m_dataModel p2) with
                     | Some err =>
                         e = Fatal
                         /\ p' = with_callbackObject (onError err (m_callbackObject p2))
                                   (with_dataModel m2 p2)
                     | None =>
                         e = GuardFalse
                         /\ p' = with_dataModel
                                   (setAllRowsHaveTime (ts_name (m_activeTimestamp p2))
                                      (ts_divisor (m_activeTimestamp p2)) m2) p2
                     end)))).
Proof.
  unfold parse, startTransaction. intros H.
  destruct (null_dataModel p || null_callbackObject p);
    [left; by inversion H; subst|].
  right. split; [done|].
  destruct (startTransaction_err (m_dataModel p)) as [err|]; simpl in H |- *.
  - left. exists err. inversion H; subst. done.
  - right. split; [done|].
    match type of H with
    | context [readLoop ?a ?b ?c ?q] =>
        destruct (readLoop a b c q) as [e1 p1| |] eqn:E; try discriminate
    end.
    exists e1, p1. split; [done|].
    assert (Hfin :
      (let '(ended, m2) :=
         endTransaction
           (m_dataModel
              (if decide (noMessageBytes p1 > 0)
               then with_logLoadingState
                      (setNoMessageBytes (noMessageBytes p1) (m_logLoadingState p1)) p1
               else p1)) in
       let p3 :=
         with_dataModel m2
           (if decide (noMessageBytes p1 > 0)
            then with_logLoadingState
                   (setNoMessageBytes (noMessageBytes p1) (m_logLoadingState p1)) p1
            else p1) in
       if negb ended
       then Done Fatal
              (with_callbackObject (onError (dm_error m2) (m_callbackObject p3)) p3)
       else Done GuardFalse
              (with_dataModel
                 (setAllRowsHaveTime (ts_name (m_activeTimestamp p3))
                    (ts_divisor (m_activeTimestamp p3)) (m_dataModel p3)) p3))
      = Done e p' ->
      let p2 :=
        if decide (noMessageBytes p1 > 0)
        then with_logLoadingState
               (setNoMessageBytes (noMessageBytes p1) (m_logLoadingState p1)) p1
        else p1 in
      let m2 := snd (endTransaction (m_dataModel p2)) in
      match endTransaction_err (m_dataModel p2) with
      | Some err =>
          e = Fatal
          /\ p' = with_callbackObject (onError err (m_callbackObject p2))
                    (with_dataModel m2 p2)
      | None =>
          e = GuardFalse
          /\ p' = with_dataModel
                    (setAllRowsHaveTime (ts_name (m_activeTimestamp p2))
                       (ts_divisor (m_activeTimestamp p2)) m2) p2
      end).
    { unfold endTransaction. simpl.
      destruct (endTransaction_err _); simpl; intros Heq; inversion Heq; subst; clear Heq.
      - split; [done|]. by destruct (decide _).
      - split; [done|]. by destruct (decide _). }
    destruct e1.
    + right. split; [done|]. by apply Hfin.
    + right. split; [done|]. by apply Hfin.
    + left. by inversion H; subst.
    + right. split; [done|]. by apply Hfin.
Qed.

Lemma accounts_parse chunks p e p' : parse chunks p = Done e p' -> accounts p p'.
Proof.
  intros H. apply parse_Done in H. unfold startTransaction in H.
  destruct H as [(_ & _ & ->)|(_ & H)]; [apply accounts_refl|].
  destruct H as [(err & Herr & _ & ->)|(Hok & e1 & p1 & Hloop & H)].
  - rewrite Herr. acc_now.
  - rewrite Hok in Hloop. apply accounts_readLoop in Hloop.
    assert (H1 : accounts p p1) by (eapply accounts_trans; [|exact Hloop]; acc_now).
    destruct H as [(_ & _ & ->)|(_ & H)]; [done|].
    unfold endTransaction in H. simpl in H.
    destruct (endTransaction_err _); destruct H as [_ ->];
      (eapply accounts_trans; [exact H1|]); destruct (decide _); acc_now.
Qed.

(** X10: the message counter counts what the sink took, and the Status
    counts the rows.  Over a run of [parse] the counter grows by the number
    of types and rows that were added to the sink, and the count of valid
    rows grows by the number of rows. *)
Theorem message_counter_follows_the_sink chunks p e p' :
  parse chunks p = Done e p' ->
  m_MessageCounter p' - m_MessageCounter p =
  (lsize (dm_types (m_dataModel p')) - lsize (dm_types (m_dataModel p)))
  + (lsize (dm_rows (m_dataModel p')) - lsize (dm_rows (m_dataModel p)))
  /\ validData (m_logLoadingState p') - validData (m_logLoadingState p) =
     lsize (dm_rows (m_dataModel p')) - lsize (dm_rows (m_dataModel p)).
Proof. intros H. apply accounts_parse in H as []. done. Qed.

(** X11: the vehicle kind is detected once.  A kind that is known when
    [parse] starts is still the kind at the end, and the Status keeps what
    it had; a kind that is found in the run is the one that the Status
    reports; and when none is found the Status is not touched.
    [detectMavType] alone would overwrite a known kind: it is the test in
    the loop body that keeps it from running again. *)
Theorem vehicle_kind_is_detected_once chunks p e p' :
  parse chunks p = Done e p' ->
  (m_loadedLogType p <> MAV_TYPE_GENERIC ->
   m_loadedLogType p' = m_loadedLogType p
   /\ statusMavType (m_logLoadingState p') = statusMavType (m_logLoadingState p))
  /\ (m_loadedLogType p = MAV_TYPE_GENERIC ->
      m_loadedLogType p' <> MAV_TYPE_GENERIC ->
      statusMavType (m_logLoadingState p') = m_loadedLogType p')
  /\ (m_loadedLogType p' = MAV_TYPE_GENERIC ->
      statusMavType (m_logLoadingState p') = statusMavType (m_logLoadingState p))
  /\ exists l q q',
      m_loadedLogType q = MAV_TYPE_QUADROTOR
      /\ detectMavType l q = Some q'
      /\ m_loadedLogType q' = MAV_TYPE_FIXED_WING.
Proof.
  intros H. apply accounts_parse in H as []. split_and!; try done.
  exists [("Name"%string, VString "PTCH2SRV_P")],
    (with_loadedLogType MAV_TYPE_QUADROTOR newParser). by eexists.
Qed.

(** X12: the count of time errors saturates at 51 while the Status goes on
    to record every one of them.  Over a run of [parse] the count never
    falls, it stays at or below 51 when it started there, and it grows by at
    most the number of new CorruptTime incidents. *)
Theorem time_error_count_saturates chunks p e p' :
  parse chunks p = Done e p' ->
  m_timeErrorCount p <= m_timeErrorCount p'
  /\ (m_timeErrorCount p <= 51 -> m_timeErrorCount p' <= 51)
  /\ m_timeErrorCount p' - m_timeErrorCount p <=
     countTime (incidents (m_logLoadingState p'))
     - countTime (incidents (m_logLoadingState p)).
Proof. intros H. apply accounts_parse in H as []. done. Qed.

(** X13: the active timestamp is chosen once, among the candidates.  A run
    of [parse] that starts with an active timestamp ends with the same one;
    otherwise the run ends with none or with one of the candidates; and the
    candidates themselves never change. *)
Theorem active_timestamp_is_chosen_once chunks p e p' :
  parse chunks p = Done e p' ->
  (ts_valid (m_activeTimestamp p) = true -> m_activeTimestamp p' = m_activeTimestamp p)
  /\ (m_activeTimestamp p' = m_activeTimestamp p
      \/ m_activeTimestamp p' ∈ m_possibleTimestamps p)
  /\ m_possibleTimestamps p' = m_possibleTimestamps p.
Proof.
  intros H. pose proof (extends_parse _ _ _ _ H) as Hext.
  apply accounts_parse in H as []. split_and!; [apply Hext| |done].
  destruct acc_active0 as [|[_ ?]]; auto.
Qed.

(** *** Errors, the transaction, progress and the non-message bytes *)

Lemma effects_refl p : effects true 0 [] p p.
Proof. split; simpl; try done; try lia. by rewrite app_nil_r. Qed.

Lemma effects_trans ok1 n1 c1 ok2 n2 c2 p1 p2 p3 :
  effects ok1 n1 c1 p1 p2 -> effects ok2 n2 c2 p2 p3 ->
  effects (ok1 && ok2) (n1 + n2) (c1 ++ c2) p1 p3.
Proof.
  intros [] []. split; try lia; try congruence.
  - by rewrite eff_progress1, eff_progress0, app_assoc.
  - by rewrite eff_nomsg1, eff_nomsg0, Nat.add_comm, Nat.iter_add.
  - by etrans.
  - destruct ok1, ok2; simpl; lia.
Qed.

(** Steps without a count and without a progress call compose. *)
Lemma effects_step ok1 ok2 p1 p2 p3 :
  effects ok1 0 [] p1 p2 -> effects ok2 0 [] p2 p3 -> effects (ok1 && ok2) 0 [] p1 p3.
Proof. intros H1 H2. exact (effects_trans _ _ _ _ _ _ _ _ _ H1 H2). Qed.

Ltac eff_now :=
  split; simpl; unfold lsize; rewrite ?length_app, ?app_nil_r; simpl;
  try solve [ done | lia | apply prefix_app_r; done ].

Lemma effects_fatal p : effects false 0 [] p (fatal p).
Proof. unfold fatal, endTransaction. destruct (endTransaction_err _); eff_now. Qed.

Lemma effects_decodeFields desc format : forall i stream acc p,
  effects true 0 [] p (snd (decodeFields desc i format stream acc p)).
Proof.
  induction format as [|c rest IH]; intros i stream acc p; simpl; [apply effects_refl|].
  destruct (decodeField c stream) as [[v| |] s]; [apply IH| |]; eff_now.
Qed.

Lemma effects_headerIsValid p valid p' :
  headerIsValid p = Some (valid, p') -> effects true 0 [] p p'.
Proof.
  intros H. apply headerIsValid_frame in H as (n & t & -> & _). eff_now.
Qed.

Lemma effects_parseFMTMessage desc p parsed desc' p' :
  parseFMTMessage desc p = Some (parsed, desc', p') -> effects true 0 [] p p'.
Proof.
  intros H. apply parseFMTMessage_frame in H as (_ & _ & _ & _ & _ & H).
  destruct parsed; destruct H as [-> _]; eff_now.
Qed.

Lemma effects_storeDescriptor desc p :
  effects (fst (storeDescriptor desc p)) 0 [] p (snd (storeDescriptor desc p)).
Proof.
  unfold storeDescriptor.
  destruct (isValid _ desc); [|eff_now].
  destruct (m_typeToDescriptorMap p !! m_ID desc) eqn:E; [eff_now|].
  destruct (decide _); [|eff_now].
  unfold addType. simpl.
  destruct (addType_err _ _); simpl.
  - eapply (effects_step true false); [|apply effects_fatal]. eff_now.
  - eff_now.
Qed.

(** The foreach of [extendedStoreDescriptor] returns true exactly when it
    was entered with true and the sink took every descriptor. *)
Lemma effects_storeDeferred queue : forall rc p,
  exists ok,
    fst (storeDeferred queue rc p) = rc && ok
    /\ effects ok 0 [] p (snd (storeDeferred queue rc p)).
Proof.
  induction queue as [|d rest IH]; intros rc p; simpl.
  - exists true. split; [by rewrite andb_true_r|apply effects_refl].
  - pose proof (effects_storeDescriptor d p) as H.
    destruct (storeDescriptor d p) as [localRc p1]. simpl in H.
    destruct (IH (rc && localRc) p1) as (ok & Hrc & Heff).
    exists (localRc && ok). split; [by rewrite Hrc, andb_assoc|].
    exact (effects_step _ _ _ _ _ H Heff).
Qed.

Lemma effects_extendedStoreDescriptor desc p :
  effects (fst (extendedStoreDescriptor desc p)) 0 [] p
    (snd (extendedStoreDescriptor desc p)).
Proof.
  unfold extendedStoreDescriptor.
  destruct (effects_storeDeferred (m_descriptorForDeferredStorage p) true p)
    as (ok & Hrc & Heff).
  destruct (storeDeferred _ _ _) as [rc p1]. simpl in Hrc, Heff. subst rc.
  assert (H2 : effects ok 0 [] p (with_descriptorForDeferredStorage [] p1)).
  { rewrite <- (andb_true_r ok). apply (effects_step _ _ _ _ _ Heff). eff_now. }
  destruct ok; [|exact H2].
  match goal with
  | |- context [storeDescriptor ?d ?q] =>
      pose proof (effects_storeDescriptor d q) as H3;
      destruct (storeDescriptor d q) as [rc p2]
  end. simpl in *. exact (effects_step _ _ _ _ _ H2 H3).
Qed.

Lemma effects_parseDataByDescriptor l desc p :
  effects true 0 [] p (snd (parseDataByDescriptor l desc p)).
Proof.
  unfold parseDataByDescriptor. destruct (decide _); [apply effects_refl|].
  pose proof (effects_decodeFields desc (list_ascii_of_string (m_format desc)) 0
                (mid (m_dataBlock p) (m_dataPos p) (m_length desc - s_HeaderOffset)) [] p) as H.
  destruct (decodeFields _ _ _ _ _ _) as [l' p1]. simpl in *.
  apply (effects_step true true _ _ _ H). eff_now.
Qed.

Lemma effects_readTimeStamp l idx p l' p' :
  readTimeStamp l idx p = Some (l', p') -> effects true 0 [] p p'.
Proof.
  unfold readTimeStamp. intros H.
  destruct (decide (0 <= idx)); [|discriminate].
  destruct (l !! Z.to_nat idx) as [entry|]; [|discriminate]. simpl in H.
  destruct (decide (_ >= _)); inversion H; subst; clear H; [eff_now|].
  repeat destruct (decide _); eff_now.
Qed.

Lemma effects_storeNameValuePairList l desc p stored l' p' :
  storeNameValuePairList l desc p = Some (stored, l', p') -> effects stored 0 [] p p'.
Proof.
  unfold storeNameValuePairList. intros H.
  assert (Hstep : forall l1 p1, effects true 0 [] p p1 ->
            (let row := {| row_type := m_name desc; row_values := l1;
                           row_timeLabel := ts_name (m_activeTimestamp p1) |} in
             let '(ok, m) := addRow row (m_dataModel p1) in
             if ok then
               let p2 := with_dataModel m p1 in
               let p3 := with_MessageCounter (m_MessageCounter p2 + 1) p2 in
               Some (true, l1, with_logLoadingState (validDataRead (m_logLoadingState p3)) p3)
             else Some (false, l1, fatal (with_dataModel m p1)))
            = Some (stored, l', p') -> effects stored 0 [] p p').
  { intros l1 p1 Heff. unfold addRow. simpl.
    destruct (addRow_err _ _); simpl; intros Heq; inversion Heq; subst; clear Heq.
    - apply (effects_step true false _ _ _ Heff).
      eapply (effects_step true false); [|apply effects_fatal]. eff_now.
    - apply (effects_step true true _ _ _ Heff). eff_now. }
  destruct (hasNoTimestamp desc).
  - simpl in H. eapply Hstep; [apply effects_refl|exact H].
  - destruct (readTimeStamp l (m_timeStampIndex desc) p) as [[l1 p1]|] eqn:E; [|discriminate].
    simpl in H. eapply Hstep; [|exact H]. eapply effects_readTimeStamp; eauto.
Qed.

Lemma effects_checkForValidTimestamp desc p :
  effects true 0 [] p (checkForValidTimestamp desc p).
Proof. unfold checkForValidTimestamp. destruct (findTimestamp _ _); eff_now. Qed.

Lemma effects_detectMavType l p p' :
  detectMavType l p = Some p' -> effects true 0 [] p p'.
Proof.
  unfold detectMavType. intros H.
  destruct (l !! findName l 0) as [entry|]; [|discriminate]. simpl in H.
  inversion H; subst; clear H.
  repeat match goal with
         | |- context [if ?b then _ else _] => destruct b
         end; simpl; try destruct (m_loadedLogType p); eff_now.
Qed.

Lemma effects_fmtBranch descriptor p :
  effects (flowOk (fmtBranch descriptor p)) 0 [] p (flowState (fmtBranch descriptor p)).
Proof.
  unfold fmtBranch.
  destruct (ts_valid (m_activeTimestamp p)) eqn:Hv.
  - match goal with
    | |- context [extendedStoreDescriptor ?d p] =>
        pose proof (effects_extendedStoreDescriptor d p) as H;
        destruct (extendedStoreDescriptor d p) as [[] p1]
    end; exact H.
  - simpl. apply effects_checkForValidTimestamp.
Qed.

Lemma effects_dataBranch descriptor p f :
  dataBranch descriptor p = Some f -> effects (flowOk f) 0 [] p (flowState f).
Proof.
  unfold dataBranch. intros H.
  pose proof (effects_parseDataByDescriptor [] descriptor p) as H1.
  destruct (parseDataByDescriptor [] descriptor p) as [[parsed l] p1]. simpl in H1.
  destruct parsed; [|by inversion H; subst].
  destruct (decide (lsize l >= 1)).
  - destruct (storeNameValuePairList l descriptor p1) as [[[stored l1] p2]|] eqn:E;
      [|discriminate].
    apply effects_storeNameValuePairList in E. simpl in H.
    destruct stored.
    + destruct (decide _).
      * destruct (detectMavType l1 p2) as [p3|] eqn:E3; [|discriminate].
        apply effects_detectMavType in E3. inversion H; subst; simpl.
        exact (effects_step _ _ _ _ _ (effects_step _ _ _ _ _ H1 E) E3).
      * inversion H; subst; simpl. exact (effects_step _ _ _ _ _ H1 E).
    + inversion H; subst; simpl. exact (effects_step _ _ _ _ _ H1 E).
  - inversion H; subst; simpl. apply (effects_step true true _ _ _ H1). eff_now.
Qed.

(** A pass of the loop body counts one non-message byte when the header is
    not valid, and none otherwise. *)
Lemma effects_parseBody p f :
  parseBody p = Some f ->
  effects (flowOk f) (failedHeader p) [] p (flowState f).
Proof.
  unfold parseBody, failedHeader. intros H.
  destruct (headerIsValid p) as [[valid p1]|] eqn:E; [|discriminate].
  apply effects_headerIsValid in E. simpl in H.
  destruct valid; simpl in H.
  - destruct (decide (m_messageType p1 = s_FMTMessageType)).
    + destruct (parseFMTMessage newDescriptor p1) as [[[parsed d] p2]|] eqn:E2;
        [|discriminate].
      apply effects_parseFMTMessage in E2. simpl in H.
      destruct parsed; inversion H; subst; simpl.
      * exact (effects_step _ _ _ _ _ (effects_step _ _ _ _ _ E E2) (effects_fmtBranch d p2)).
      * exact (effects_step _ _ _ _ _ E E2).
    + destruct (m_typeToDescriptorMap p1 !! m_messageType p1) as [d|].
      * apply effects_dataBranch in H. exact (effects_step _ _ _ _ _ E H).
      * inversion H; subst; simpl. apply (effects_step true true _ _ _ E). eff_now.
  - inversion H; subst; simpl.
    apply (effects_trans true 0 [] true 1 [] _ _ _ E). eff_now.
Qed.

Lemma effects_recordLoop fuel : forall p e p',
  recordLoop fuel p = Done e p' ->
  exists n, effects (exitOk e) n [] p p'.
Proof.
  induction fuel as [|k IH]; intros p e p' H; simpl in H.
  - destruct (recordGuard p); [discriminate|]. inversion H; subst.
    exists O. apply effects_refl.
  - destruct (recordGuard p);
      [|inversion H; subst; exists O; apply effects_refl].
    destruct (parseBody p) as [[p1|p1|p1]|] eqn:E; try discriminate;
      apply effects_parseBody in E; simpl in E.
    + apply IH in H as (n2 & H). exists (failedHeader p + n2)%nat.
      exact (effects_trans _ _ _ _ _ _ _ _ _ E H).
    + inversion H; subst. by exists (failedHeader p).
    + inversion H; subst. by exists (failedHeader p).
Qed.

Lemma effects_refill chunk p : effects true 0 [] p (refill chunk p).
Proof. unfold refill. destruct (decide _); eff_now. Qed.

Lemma effects_readLoop chunks : forall pos total p e p',
  readLoop pos total chunks p = Done e p' ->
  exists n calls,
    effects (exitOk e) n calls p p'
    /\ calls `prefix_of` progressOf pos total chunks
    /\ (e <> Fatal -> m_stop p = false -> calls = progressOf pos total chunks).
Proof.
  induction chunks as [|chunk rest IH]; intros pos total p e p' H; cbn [readLoop] in H.
  - inversion H; subst. exists O, []. split_and!; [apply effects_refl|done|done].
  - destruct (m_stop p) eqn:Hstop.
    { inversion H; subst. exists O, [].
      split_and!; [apply effects_refl|apply prefix_nil|done]. }
    match type of H with
    | context [recordLoop ?k ?q] =>
        destruct (recordLoop k q) as [e1 p3| |] eqn:E; try discriminate;
        assert (Hq : effects true 0 [(pos, total)] p q);
        [|assert (Hs : m_stop q = false) by (unfold refill; by destruct (decide _))]
    end.
    { apply (effects_trans true 0 [(pos, total)] true 0 []
               p (with_callbackObject (onProgress pos total (m_callbackObject p)) p));
        [eff_now|apply effects_refill]. }
    pose proof (extends_recordLoop _ _ _ _ E) as Hext.
    apply effects_recordLoop in E as (n1 & E).
    pose proof (effects_trans _ _ _ _ _ _ _ _ _ Hq E) as H1. simpl in H1.
    assert (Hgo : readLoop (pos + size chunk) total rest p3 = Done e p' ->
                  exists n calls,
                    effects (exitOk e1 && exitOk e) n calls p p'
                    /\ calls `prefix_of` progressOf pos total (chunk :: rest)
                    /\ (e <> Fatal -> calls = progressOf pos total (chunk :: rest))).
    { intros H2. apply IH in H2 as (n2 & calls & H2 & Hpre & Hall).
      exists (n1 + n2)%nat, ((pos, total) :: calls). split_and!.
      - exact (effects_trans _ _ _ _ _ _ _ _ _ H1 H2).
      - simpl. by apply prefix_cons.
      - intros He. simpl. f_equal. apply Hall; [done|].
        by rewrite (ext_stop _ _ Hext). }
    destruct e1.
    + destruct (Hgo H) as (n & calls & ? & ? & ?). exists n, calls. auto.
    + destruct (Hgo H) as (n & calls & ? & ? & ?). exists n, calls. auto.
    + inversion H; subst. exists n1, [(pos, total)].
      split_and!; [done| |done]. simpl. apply prefix_cons, prefix_nil.
    + destruct (Hgo H) as (n & calls & ? & ? & ?). exists n, calls. auto.
Qed.


(** X15: the progress calls.  [parse] reports the progress before every
    block that it reads, with the position of the file before the block and
    the size of the file; the record loop makes no call.  A run that returns
    normally without having been stopped has made exactly one call for
    every block. *)
Theorem progress_is_reported_per_block chunks p e p' :
  parse chunks p = Done e p' ->
  exists calls,
    cb_progress (m_callbackObject p') = cb_progress (m_callbackObject p) ++ calls
    /\ calls `prefix_of` progressOf 0 (size (concat chunks)) chunks
    /\ (e = GuardFalse -> m_stop p = false ->
        calls = progressOf 0 (size (concat chunks)) chunks).
Proof.
  intros H. apply parse_Done in H. unfold startTransaction in H.
  destruct H as [(_ & -> & ->)|(_ & H)].
  { exists []. rewrite app_nil_r. split_and!; [done|apply prefix_nil|done]. }
  destruct H as [(err & Herr & -> & ->)|(Hok & e1 & p1 & Hloop & H)].
  - exists []. rewrite Herr. simpl. rewrite app_nil_r. split_and!; [done|apply prefix_nil|done].
  - rewrite Hok in Hloop. simpl in Hloop.
    apply effects_readLoop in Hloop as (n & calls & Heff & Hpre & Hall).
    destruct Heff. simpl in *. exists calls.
    destruct H as [(-> & -> & ->)|(He1 & H)]; [by split_and!|].
    unfold endTransaction in H. simpl in H.
    destruct (endTransaction_err _); destruct H as [-> ->]; destruct (decide _); simpl;
      split_and!; try done; intros _ Hs; by apply Hall.
Qed.

(** *** When the loops halt: the passes of the refill loop *)

(** The refill loop is left at the end of the source, by the stop flag or
    by a failure of the sink, never by a short read; every pass begins with
    one progress call and the record loop makes none, so the calls count
    the passes. *)
Lemma readLoop_passes chunks : forall pos total p e p',
  readLoop pos total chunks p = Done e p' ->
  (e = GuardFalse \/ e = Fatal)
  /\ m_stop p' = m_stop p
  /\ exists passes,
       (passes <= length chunks)%nat
       /\ cb_progress (m_callbackObject p') =
          cb_progress (m_callbackObject p) ++ progressOf pos total (take passes chunks)
       /\ (m_stop p = true -> passes = O /\ p' = p)
       /\ (m_stop p = false -> e = GuardFalse -> passes = length chunks)
       /\ (e = Fatal -> (0 < passes)%nat).
Proof.
  induction chunks as [|chunk rest IH]; intros pos total p e p' H; cbn [readLoop] in H.
  - inversion H; subst. split; [by left|]. split; [done|]. exists O. simpl.
    rewrite app_nil_r. by split_and!.
  - destruct (m_stop p) eqn:Hstop.
    { inversion H; subst. split; [by left|]. split; [done|]. exists O. simpl.
      rewrite app_nil_r. split_and!; try done; lia. }
    match type of H with
    | context [recordLoop ?k ?q] =>
        destruct (recordLoop k q) as [e1 p3| |] eqn:E; try discriminate;
        assert (Hq : cb_progress (m_callbackObject q)
                     = cb_progress (m_callbackObject p) ++ [(pos, total)]
                     /\ m_stop q = false)
          by (unfold refill; by destruct (decide _))
    end.
    destruct Hq as [Hq Hsq].
    pose proof (ext_stop _ _ (extends_recordLoop _ _ _ _ E)) as Hs3.
    apply effects_recordLoop in E as (n1 & E).
    pose proof (eff_progress _ _ _ _ _ E) as Hp3. rewrite app_nil_r, Hq in Hp3.
    rewrite Hsq in Hs3.
    assert (Hgo : readLoop (pos + size chunk) total rest p3 = Done e p' ->
              (e = GuardFalse \/ e = Fatal)
              /\ m_stop p' = false
              /\ exists passes,
                   (passes <= length (chunk :: rest))%nat
                   /\ cb_progress (m_callbackObject p') =
                      cb_progress (m_callbackObject p)
                      ++ progressOf pos total (take passes (chunk :: rest))
                   /\ (false = true -> passes = O /\ p' = p)
                   /\ (false = false -> e = GuardFalse -> passes = length (chunk :: rest))
                   /\ (e = Fatal -> (0 < passes)%nat)).
    { intros H2. apply IH in H2 as (He & Hs & passes & Hle & Hcalls & _ & Hall & Hf).
      split; [done|]. split; [congruence|]. exists (S passes). simpl.
      split_and!; try done; try lia.
      - by rewrite Hcalls, Hp3, <- app_assoc.
      - intros _ Hg. f_equal. by apply Hall. }
    destruct e1.
    + by apply Hgo.
    + by apply Hgo.
    + inversion H; subst. split; [by right|]. split; [done|]. exists 1%nat. simpl.
      rewrite ?take_0. simpl. split_and!; try done; lia.
    + by apply Hgo.
Qed.

(** C8, as the code has it.  The refill loop makes a pass, which begins
    with the progress callback, exactly when the source is not at its end
    and the stop flag is not set: a run that is not stopped and that the
    sink does not fail makes one pass for every block of the source, also
    after a pass that ended on a short read, and a stopped parser makes
    none; the loop is left at the end of the source or by the flag,
    whatever is buffered, or by a failure of the sink.  The record loop of
    a pass ends because at most [s_MinHeaderSize] bytes lie behind the
    cursor or the flag is set, or on a short read, or on a failure of the
    sink.  On a parser in a consistent state, as a new parser is, the fuel
    of the record loop never runs out, and with [s_MinHeaderSize] at least 4
    no read leaves the buffer: the loop returns. *)
Theorem refill_loop_halting :
  (forall pos total chunks p e p',
     readLoop pos total chunks p = Done e p' ->
     (e = GuardFalse \/ e = Fatal)
     /\ m_stop p' = m_stop p
     /\ (exists passes,
           (passes <= length chunks)%nat
           /\ cb_progress (m_callbackObject p') =
              cb_progress (m_callbackObject p) ++ progressOf pos total (take passes chunks)
           /\ (m_stop p = true -> passes = O /\ p' = p)
           /\ (m_stop p = false -> e = GuardFalse -> passes = length chunks)
           /\ (e = Fatal -> (0 < passes)%nat))
     /\ (cb_progress (m_callbackObject p') = cb_progress (m_callbackObject p)
         <-> chunks = [] \/ m_stop p = true))
  /\ (forall fuel p e p',
        recordLoop fuel p = Done e p' ->
        cb_progress (m_callbackObject p') = cb_progress (m_callbackObject p)
        /\ match e with
           | GuardFalse =>
               size (m_dataBlock p') - m_dataPos p' <= s_MinHeaderSize \/ m_stop p' = true
           | ShortRead => exists q, parseBody q = Some (Break p')
           | Fatal => exists q, parseBody q = Some (Return p')
           | NullPointer => False
           end)
  /\ (forall pos total chunks p,
        Inv p -> readLoop pos total chunks p <> OutOfFuel)
  /\ (4 <= s_MinHeaderSize ->
      forall pos total chunks p,
        Inv p -> exists e p', readLoop pos total chunks p = Done e p')
  /\ Inv newParser.
Proof.
  split_and!.
  - intros pos total chunks p e p' H.
    destruct (readLoop_passes _ _ _ _ _ _ H) as (He & Hs & passes & Hle & Hcalls & Hst & Hall & Hf).
    split; [done|]. split; [done|]. split; [by exists passes|].
    rewrite Hcalls. split.
    + intros Hcb. destruct chunks as [|chunk rest]; [by left|]. right.
      destruct (m_stop p) eqn:Hstop; [done|]. exfalso.
      assert (Hpos : (0 < passes)%nat).
      { destruct He as [->| ->]; [|by apply Hf].
        rewrite (Hall eq_refl eq_refl). simpl. lia. }
      destruct passes as [|k]; [lia|]. simpl in Hcb.
      apply (f_equal length) in Hcb. rewrite length_app in Hcb. simpl in Hcb. lia.
    + intros [-> | Hstop].
      * rewrite take_nil. simpl. by rewrite app_nil_r.
      * destruct (Hst Hstop) as [-> _]. simpl. by rewrite app_nil_r.
  - intros fuel p e p' H. split; [|exact (recordLoop_exit _ _ _ _ H)].
    apply effects_recordLoop in H as (n & H).
    rewrite (eff_progress _ _ _ _ _ H). by rewrite app_nil_r.
  - intros pos total chunks p Hinv. by apply readLoop_fuel.
  - intros Hmin pos total chunks p Hinv. by apply readLoop_total.
  - apply Inv_newParser.
Qed.

(** *** The flush of the deferred queue *)

Lemma inserted_app registry a b :
  inserted registry (a ++ b) =
  inserted registry a ++ inserted (registered registry (inserted registry a)) b.
Proof.
  revert registry. induction a as [|d a IH]; intros registry; simpl; [done|].
  destruct (isValid _ d && bool_decide _); simpl; by rewrite IH.
Qed.

Lemma registered_app registry a b :
  registered registry (a ++ b) = registered (registered registry a) b.
Proof. unfold registered. by rewrite foldl_app. Qed.

Lemma toSink_app a b : toSink (a ++ b) = toSink a ++ toSink b.
Proof. unfold toSink. by rewrite filter_app. Qed.

(** Valid descriptors with ids that differ from each other and from the
    ids of the registry are all inserted. *)
Lemma inserted_all l : forall registry,
  NoDup (m_ID <$> l) ->
  Forall (fun d => isValid s_STRTMessageType d = true /\ registry !! m_ID d = None) l ->
  inserted registry l = l.
Proof.
  induction l as [|d l IH]; intros registry Hnd Hall; simpl; [done|].
  apply Forall_cons in Hall as [[Hv Hf] Hall]. rewrite fmap_cons in Hnd.
  apply NoDup_cons in Hnd as [Hnotin Hnd].
  rewrite Hv. simpl. rewrite bool_decide_eq_true_2 by done. f_equal.
  apply IH; [done|]. apply Forall_forall. intros d' Hd'.
  rewrite Forall_forall in Hall. destruct (Hall d' Hd') as [Hv' Hf'].
  split; [done|]. rewrite lookup_insert_ne; [done|].
  intros Heq. apply Hnotin. rewrite Heq. apply list_elem_of_fmap. by exists d'.
Qed.

(** What [storeDescriptor] does with one descriptor, whatever the sink
    says: the registry gets the descriptor when it is valid and its id is
    free; the sink gets its type exactly when the call returns true and the
    descriptor was inserted and is not the one of the FMT records; and the
    call returns false exactly when the sink refused the type. *)
Lemma storeDescriptor_flush d p :
  m_typeToDescriptorMap (snd (storeDescriptor d p)) =
    registered (m_typeToDescriptorMap p) (inserted (m_typeToDescriptorMap p) [d])
  /\ m_activeTimestamp (snd (storeDescriptor d p)) = m_activeTimestamp p
  /\ dm_types (m_dataModel (snd (storeDescriptor d p))) =
     dm_types (m_dataModel p)
     ++ map (forwarded (m_activeTimestamp p))
          (if fst (storeDescriptor d p)
           then toSink (inserted (m_typeToDescriptorMap p) [d]) else [])
  /\ (fst (storeDescriptor d p) = false <-> refused p d).
Proof.
  unfold storeDescriptor, refused, toSink, registered. simpl.
  destruct (isValid _ d); simpl.
  2:{ rewrite app_nil_r. split_and!; try done. split; [done|]. by intros (? & _). }
  destruct (m_typeToDescriptorMap p !! m_ID d) eqn:E; simpl.
  { rewrite app_nil_r. split_and!; try done. split; [done|]. by intros (_ & ? & _). }
  destruct (decide (m_ID d <> s_FMTMessageType)) as [Hid|Hid].
  2:{ simpl. rewrite filter_cons_False by done. rewrite filter_nil. simpl.
      rewrite app_nil_r. split_and!; try done. split; [done|]. by intros (_ & _ & ? & _). }
  unfold addType. simpl. fold (forwarded (m_activeTimestamp p) d).
  destruct (addType_err (m_dataModel p) (forwarded (m_activeTimestamp p) d)) eqn:Ha; simpl.
  - unfold fatal, endTransaction. simpl. rewrite app_nil_r.
    destruct (endTransaction_err _); simpl; split_and!; try done.
  - rewrite filter_cons_True by done. rewrite filter_nil. simpl.
    split_and!; try done. split; [done|]. by intros (_ & _ & _ & ?).
Qed.

(** The state that the foreach leaves does not depend on the flag that it
    is entered with. *)
Lemma storeDeferred_state queue : forall rc rc' p,
  snd (storeDeferred queue rc p) = snd (storeDeferred queue rc' p).
Proof.
  induction queue as [|d rest IH]; intros rc rc' p; simpl; [done|].
  destruct (storeDescriptor d p) as [localRc p1]. apply IH.
Qed.

Lemma storeDeferred_snoc queue d : forall rc p,
  storeDeferred (queue ++ [d]) rc p =
  let '(rc1, p1) := storeDeferred queue rc p in
  let '(localRc, p2) := storeDescriptor d p1 in
  (rc1 && localRc, p2).
Proof.
  induction queue as [|d0 rest IH]; intros rc p; simpl.
  - by destruct (storeDescriptor d p).
  - destruct (storeDescriptor d0 p) as [localRc p1]. apply IH.
Qed.

(** The foreach of [extendedStoreDescriptor], whatever the sink says: every
    descriptor of the queue is tried in the order of the queue, the
    registry gets all that are valid and new, the sink gets the types that
    it accepts, and the result is false exactly when the sink refused one
    of them at its turn. *)
Lemma storeDeferred_flush queue : forall p,
  let p' := snd (storeDeferred queue true p) in
  m_typeToDescriptorMap p' =
    registered (m_typeToDescriptorMap p) (inserted (m_typeToDescriptorMap p) queue)
  /\ m_activeTimestamp p' = m_activeTimestamp p
  /\ (exists sub,
        sub `sublist_of` toSink (inserted (m_typeToDescriptorMap p) queue)
        /\ dm_types (m_dataModel p') =
           dm_types (m_dataModel p) ++ map (forwarded (m_activeTimestamp p)) sub
        /\ (fst (storeDeferred queue true p) = true ->
            sub = toSink (inserted (m_typeToDescriptorMap p) queue)))
  /\ (fst (storeDeferred queue true p) = false <->
      exists q1 d q2,
        queue = q1 ++ d :: q2 /\ refused (snd (storeDeferred q1 true p)) d).
Proof.
  induction queue as [|d queue IH] using rev_ind; intros p; simpl.
  - split_and!; try done.
    + exists []. rewrite app_nil_r. by split_and!.
    + split; [done|]. intros (q1 & d & q2 & Heq & _). by destruct q1.
  - rewrite storeDeferred_snoc.
    destruct (IH p) as (Hreg & Hact & (sub & Hsub & Hty & Hall) & Hfalse).
    destruct (storeDeferred queue true p) as [rc1 p1] eqn:E. simpl in *.
    destruct (storeDescriptor_flush d p1) as (Hreg1 & Hact1 & Hty1 & Hfalse1).
    destruct (storeDescriptor d p1) as [localRc p2]. simpl in *.
    rewrite inserted_app, registered_app, toSink_app, <- Hreg.
    split_and!.
    + done.
    + congruence.
    + exists (sub ++ (if localRc then toSink (inserted (m_typeToDescriptorMap p1) [d])
                      else [])).
      split_and!.
      * apply sublist_app; [done|]. destruct localRc; [done|apply sublist_nil_l].
      * rewrite Hty1, Hty, Hact, map_app, <- app_assoc. done.
      * intros Hrc. apply andb_prop in Hrc as [-> ->]. by rewrite Hall.
    + split.
      * intros Hrc. apply andb_false_iff in Hrc as [Hrc|Hrc].
        -- destruct (proj1 Hfalse Hrc) as (q1 & d0 & q2 & -> & Href).
           exists q1, d0, (q2 ++ [d]). split; [by rewrite <- app_assoc|done].
        -- exists queue, d, []. split; [done|]. rewrite E. simpl. by apply Hfalse1.
      * intros (q1 & d0 & q2 & Heq & Href). apply andb_false_iff.
        destruct q2 as [|x q2 _] using rev_ind.
        -- apply app_inj_tail in Heq as [-> ->]. rewrite E in Href. simpl in Href.
           right. by apply Hfalse1.
        -- left. apply Hfalse. exists q1, d0, q2. split; [|done].
           rewrite app_comm_cons, app_assoc in Heq. by apply app_inj_tail in Heq as [-> _].
Qed.

Lemma storeDescriptor_queue d p :
  m_descriptorForDeferredStorage (snd (storeDescriptor d p))
  = m_descriptorForDeferredStorage p.
Proof.
  unfold storeDescriptor.
  destruct (isValid _ d); [|done].
  destruct (m_typeToDescriptorMap p !! m_ID d); [done|].
  destruct (decide _); [|done]. unfold addType.
  by destruct (addType_err _ _).
Qed.

Lemma refused_cleared p d :
  refused (with_descriptorForDeferredStorage [] p) d <-> refused p d.
Proof. done. Qed.

(** C2, as the code has it.  The first FMT with a candidate label sets the
    active timestamp to the first candidate that its labels contain,
    finalizes its own descriptor against it and appends that descriptor to
    the deferred queue; nothing is submitted then.  The descriptors already
    queued lack every candidate label, so finalizing them changes nothing.
    The FMT that follows flushes the queue: every descriptor of the queue is
    tried in arrival order, the discovering one last, whatever the sink
    returned for the earlier ones, and then the new descriptor if none
    failed.  The registry gets every descriptor that was tried, is valid
    and has a new id; the sink gets the types of those that are not the
    descriptor of the FMT records, in that order, as far as it accepts
    them.  The call returns false exactly when the sink refused the type of
    one of them at its turn; then the transaction was ended, the error was
    reported, the loop body returns, and the record loop, the refill loop
    and [parse] are left at once: the parse is aborted. *)
Theorem deferred_flush desc timeStamp p :
  ts_valid (m_activeTimestamp p) = false ->
  Forall (fun t => ts_valid t = true) (m_possibleTimestamps p) ->
  Forall (fun d => findTimestamp (m_possibleTimestamps p) (m_labels d) = None)
    (m_descriptorForDeferredStorage p) ->
  findTimestamp (m_possibleTimestamps p) (m_labels desc) = Some timeStamp ->
  let p1 := checkForValidTimestamp desc p in
  let queue := m_descriptorForDeferredStorage p ++ [finalize timeStamp desc] in
  m_activeTimestamp p1 = timeStamp
  /\ ts_valid timeStamp = true
  /\ m_typeToDescriptorMap p1 = m_typeToDescriptorMap p
  /\ m_dataModel p1 = m_dataModel p
  /\ m_descriptorForDeferredStorage p1 = queue
  /\ Forall (fun d => finalize timeStamp d = d) (m_descriptorForDeferredStorage p)
  /\ (forall next,
        let rc := fst (extendedStoreDescriptor next p1) in
        let p2 := snd (extendedStoreDescriptor next p1) in
        let tried := if fst (storeDeferred queue true p1) then queue ++ [next] else queue in
        m_descriptorForDeferredStorage p2 = []
        /\ m_activeTimestamp p2 = timeStamp
        /\ m_typeToDescriptorMap p2 =
           registered (m_typeToDescriptorMap p) (inserted (m_typeToDescriptorMap p) tried)
        /\ (exists sub,
              sub `sublist_of` toSink (inserted (m_typeToDescriptorMap p) tried)
              /\ dm_types (m_dataModel p2) =
                 dm_types (m_dataModel p) ++ map (forwarded timeStamp) sub
              /\ (rc = true ->
                  sub = toSink (inserted (m_typeToDescriptorMap p) (queue ++ [next]))))
        /\ (rc = false <->
            exists q1 d q2,
              queue ++ [next] = q1 ++ d :: q2
              /\ refused (snd (storeDeferred q1 true p1)) d)
        /\ (if rc
            then cb_errors (m_callbackObject p2) = cb_errors (m_callbackObject p)
                 /\ dm_ended (m_dataModel p2) = dm_ended (m_dataModel p)
            else lsize (cb_errors (m_callbackObject p))
                   < lsize (cb_errors (m_callbackObject p2))
                 /\ (dm_ended (m_dataModel p) < dm_ended (m_dataModel p2))%nat))
  /\ (forall l registry,
        NoDup (m_ID <$> l) ->
        Forall (fun d => isValid s_STRTMessageType d = true /\ registry !! m_ID d = None) l ->
        inserted registry l = l)
  /\ (forall descriptor,
        let descriptor1 :=
          if decide (m_name descriptor = "GPS"%string)
          then replaceLabelName "TimeMS" "GPSTimeMS" descriptor else descriptor in
        let '(rc, p2) := extendedStoreDescriptor (finalize timeStamp descriptor1) p1 in
        fmtBranch descriptor p1 = if rc then Continue p2 else Return p2)
  /\ (forall fuel q q',
        recordGuard q = true -> parseBody q = Some (Return q') ->
        recordLoop (S fuel) q = Done Fatal q')
  /\ (forall pos total chunk rest q q',
        m_stop q = false ->
        (let q1 := with_callbackObject (onProgress pos total (m_callbackObject q)) q in
         let q2 := refill chunk q1 in
         recordLoop (S (length (m_dataBlock q2))) q2 = Done Fatal q') ->
        readLoop pos total (chunk :: rest) q = Done Fatal q')
  /\ (forall chunks q q',
        null_dataModel q || null_callbackObject q = false ->
        startTransaction_err (m_dataModel q) = None ->
        readLoop 0 (size (concat chunks)) chunks
          (with_noMessageBytes 0
             (with_dataModel (snd (startTransaction (m_dataModel q))) q)) = Done Fatal q' ->
        parse chunks q = Done Fatal q').
Proof.
  intros Hinv Hcand Hqueue Hfind p1 queue.
  destruct (findTimestamp_Some _ _ _ Hfind) as [Hin Hlab].
  assert (Hvalid : ts_valid timeStamp = true).
  { rewrite Forall_forall in Hcand. by apply Hcand. }
  assert (Hp1 : p1 = with_descriptorForDeferredStorage queue
                       (with_activeTimestamp timeStamp p)).
  { subst p1. unfold checkForValidTimestamp. rewrite Hfind. simpl. by rewrite Hvalid. }
  clearbody p1.
  assert (Hact : m_activeTimestamp p1 = timeStamp) by (by rewrite Hp1).
  assert (Hreg : m_typeToDescriptorMap p1 = m_typeToDescriptorMap p) by (by rewrite Hp1).
  assert (Hdm : m_dataModel p1 = m_dataModel p) by (by rewrite Hp1).
  assert (Hcb : m_callbackObject p1 = m_callbackObject p) by (by rewrite Hp1).
  assert (Hq : m_descriptorForDeferredStorage p1 = queue) by (by rewrite Hp1).
  split_and!; try done.
  - rewrite Forall_forall in Hqueue. apply Forall_forall. intros d Hd.
    apply finalize_absent. eapply findTimestamp_None; eauto.
  - intros next.
    pose proof (effects_extendedStoreDescriptor next p1) as Heff.
    unfold extendedStoreDescriptor in *. rewrite Hq in *.
    destruct (storeDeferred_flush queue p1) as (Hr & Ha & (sub & Hsub & Hty & Hall) & Hfalse).
    rewrite Hreg, Hact, Hdm in *.
    destruct (storeDeferred queue true p1) as [rc1 p'] eqn:E. simpl in *.
    assert (Hsink : forall rc p2, effects rc 0 [] p1 p2 ->
              if rc
              then cb_errors (m_callbackObject p2) = cb_errors (m_callbackObject p)
                   /\ dm_ended (m_dataModel p2) = dm_ended (m_dataModel p)
              else lsize (cb_errors (m_callbackObject p))
                     < lsize (cb_errors (m_callbackObject p2))
                   /\ (dm_ended (m_dataModel p) < dm_ended (m_dataModel p2))%nat).
    { intros rc p2 [_ _ _ _ _ Hpre Hbal Hs]. rewrite Hcb, Hdm in *.
      destruct rc.
      - split; [|lia]. symmetry. apply prefix_length_eq; [done|]. unfold lsize in *. lia.
      - split; [done|lia]. }
    destruct rc1.
    + destruct (storeDescriptor_flush next (with_descriptorForDeferredStorage [] p'))
        as (Hr1 & Ha1 & Hty1 & Hfalse1).
      simpl in Hr1, Ha1, Hty1.
      destruct (storeDescriptor next (with_descriptorForDeferredStorage [] p'))
        as [rc p2] eqn:E2. simpl in *.
      assert (Hd2 : m_descriptorForDeferredStorage p2 = []).
      { pose proof (f_equal snd E2) as Hs. simpl in Hs. rewrite <- Hs.
        by rewrite storeDescriptor_queue. }
      rewrite inserted_app, registered_app, toSink_app, <- Hr.
      split_and!.
      * done.
      * congruence.
      * done.
      * exists (sub ++ (if rc then toSink (inserted (m_typeToDescriptorMap p') [next])
                        else [])).
        split_and!.
        -- apply sublist_app; [done|]. destruct rc; [done|apply sublist_nil_l].
        -- rewrite Hty1, Hty, Ha, map_app, <- app_assoc. done.
        -- intros ->. by rewrite (Hall eq_refl).
      * split.
        -- intros Hrc. exists queue, next, []. split; [done|]. rewrite E. simpl.
           apply refused_cleared. by apply Hfalse1.
        -- intros (q1 & d0 & q2 & Heq & Href).
           destruct q2 as [|x q2 _] using rev_ind.
           ++ apply app_inj_tail in Heq as [-> ->]. rewrite E in Href. simpl in Href.
              apply Hfalse1. by apply refused_cleared.
           ++ exfalso. assert (Hno : true = false); [|done].
              apply Hfalse. exists q1, d0, q2. split; [|done].
              rewrite app_comm_cons, app_assoc in Heq.
              by apply app_inj_tail in Heq as [-> _].
      * by apply Hsink.
    + simpl. split_and!.
      * done.
      * congruence.
      * done.
      * exists sub. by split_and!.
      * split; [|done]. intros _.
        destruct (proj1 Hfalse eq_refl) as (q1 & d0 & q2 & -> & Href).
        exists q1, d0, (q2 ++ [next]). split; [by rewrite <- app_assoc|done].
      * exact (proj1 (Hsink false _ Heff)).
      * exact (proj2 (Hsink false _ Heff)).
  - intros l registry. apply inserted_all.
  - intros descriptor. simpl.
    destruct (extendedStoreDescriptor _ p1) as [rc p2] eqn:E.
    unfold fmtBranch. rewrite Hact, Hvalid, E. done.
  - intros fuel q q' Hg Hb. simpl. by rewrite Hg, Hb.
  - intros pos total chunk rest q q' Hs Hrec. cbn [readLoop]. rewrite Hs.
    cbv zeta in Hrec. by rewrite Hrec.
  - intros chunks q q' Hnull Hstart Hloop. unfold parse, startTransaction in *.
    rewrite Hnull. rewrite Hstart in *. simpl in *. by rewrite Hloop.
Qed.

(** *** The measure of the record loop and the non-message bytes *)

Lemma dataBranch_buffer descriptor p f :
  dataBranch descriptor p = Some f ->
  match f with
  | Break q => sameBuffer p q
  | _ =>
      m_length descriptor - s_HeaderOffset <= size (m_dataBlock p) - m_dataPos p
      /\ m_dataPos (flowState f) = 0
      /\ m_dataBlock (flowState f) =
         drop (Z.to_nat (m_dataPos p + (m_length descriptor - s_HeaderOffset)))
           (m_dataBlock p)
  end.
Proof.
  unfold dataBranch. intros H.
  destruct (decide (size (m_dataBlock p) - m_dataPos p
                    < m_length descriptor - s_HeaderOffset)) as [Hs|Hs].
  { rewrite (parseDataByDescriptor_short [] descriptor p Hs) in H.
    inversion H; subst. by split. }
  destruct (parseDataByDescriptor_full [] descriptor p) as (l1 & st & Hfull & _); [lia|].
  rewrite Hfull in H.
  match type of H with
  | context [storeNameValuePairList l1 descriptor ?q] => set (q0 := q) in *
  end.
  assert (Hq0 : m_dataPos q0 = 0
                /\ m_dataBlock q0 =
                   drop (Z.to_nat (m_dataPos p + (m_length descriptor - s_HeaderOffset)))
                     (m_dataBlock p)) by done.
  clearbody q0.
  destruct (decide (lsize l1 >= 1)).
  - destruct (storeNameValuePairList l1 descriptor q0) as [[[stored l2] p2]|] eqn:E;
      [|discriminate].
    apply sameBuffer_storeNameValuePairList in E as [Hb Hp]. simpl in H.
    destruct stored.
    + destruct (decide _).
      * destruct (detectMavType l2 p2) as [p3|] eqn:E3; [|discriminate].
        apply sameBuffer_detectMavType in E3 as [Hb3 Hp3].
        inversion H; subst. simpl. destruct Hq0. split_and!; [lia|congruence..].
      * inversion H; subst. simpl. destruct Hq0. split_and!; [lia|congruence..].
    + inversion H; subst. simpl. destruct Hq0. split_and!; [lia|congruence..].
  - inversion H; subst. simpl. destruct Hq0. split_and!; [lia|done..].
Qed.

(** Every pass of the loop body, whichever way it leaves, moves the cursor
    towards the end of the buffer. *)
Lemma parseBody_measure p f :
  Inv p -> parseBody p = Some f ->
  size (m_dataBlock (flowState f)) - m_dataPos (flowState f)
  < size (m_dataBlock p) - m_dataPos p.
Proof.
  intros Hinv H. unfold parseBody in H.
  destruct (headerIsValid p) as [[valid q]|] eqn:E; [|discriminate].
  pose proof (Inv_headerIsValid _ _ _ Hinv E) as Hq.
  apply headerIsValid_frame in E as (n & t & Hqeq & Hpos & Hsize & Hn). simpl in H.
  assert (Hqb : m_dataBlock q = m_dataBlock p) by (by rewrite Hqeq).
  assert (Hqp : m_dataPos q = m_dataPos p + n) by (by rewrite Hqeq).
  destruct valid; simpl in H.
  - destruct Hn as [-> _].
    destruct (decide (m_messageType q = s_FMTMessageType)).
    + destruct (parseFMTMessage newDescriptor q) as [[[parsed d] p2]|] eqn:E2;
        [|discriminate].
      apply parseFMTMessage_frame in E2 as (_ & _ & _ & _ & _ & E2). simpl in H.
      destruct parsed; destruct E2 as [-> _]; inversion H as [Hf]; simpl.
      * pose proof (sameBuffer_fmtBranch d
          (with_dataPos 0
             (with_dataBlock (drop (Z.to_nat (m_dataPos q + 86)) (m_dataBlock q)) q)))
          as [Hb Hp].
        simpl in Hb, Hp. rewrite Hb, Hp, Hqb, Hqp.
        unfold size in *. rewrite length_drop. lia.
      * rewrite Hqb, Hqp. lia.
    + destruct (m_typeToDescriptorMap q !! m_messageType q) as [d|] eqn:El.
      * destruct (inv_registry q Hq _ _ El) as (_ & Hvalid & _).
        apply isValid_length in Hvalid as [Hlen _].
        apply dataBranch_buffer in H.
        destruct f as [p1|p1|p1]; simpl.
        -- destruct H as (Hbuf & Hp & Hb).
           simpl in Hp, Hb. rewrite Hb, Hp, Hqb, Hqp in *. unfold s_HeaderOffset in *.
           unfold size in *. rewrite length_drop. lia.
        -- destruct H as [Hb Hp]. rewrite Hb, Hp, Hqb, Hqp. lia.
        -- destruct H as (Hbuf & Hp & Hb).
           simpl in Hp, Hb. rewrite Hb, Hp, Hqb, Hqp in *. unfold s_HeaderOffset in *.
           unfold size in *. rewrite length_drop. lia.
      * inversion H; subst; simpl. lia.
  - inversion H; subst; simpl. destruct Hn as [[->| ->] _]; lia.
Qed.

(** *** The [int] that counts the non-message bytes *)

Lemma to_int_range z : INT_MIN <= to_int z <= INT_MAX.
Proof.
  unfold to_int, INT_MIN, INT_MAX.
  pose proof (Z.mod_pos_bound (z + 2 ^ 31) (2 ^ 32) ltac:(lia)). lia.
Qed.

Lemma to_int_small z : INT_MIN <= z <= INT_MAX -> to_int z = z.
Proof.
  unfold to_int, INT_MIN, INT_MAX. intros H.
  rewrite Z.mod_small by lia. lia.
Qed.

Lemma iter_int_incr_range n c :
  INT_MIN <= c <= INT_MAX -> INT_MIN <= Nat.iter n int_incr c <= INT_MAX.
Proof. destruct n as [|n]; [done|]. intros _. simpl. apply to_int_range. Qed.

(** Without an overflow the count is the number of increments. *)
Lemma iter_int_incr_small n : forall c,
  INT_MIN <= c -> c + Z.of_nat n <= INT_MAX -> Nat.iter n int_incr c = c + Z.of_nat n.
Proof.
  induction n as [|n IH]; intros c Hlo Hhi; simpl; [lia|].
  rewrite IH by lia. unfold int_incr. rewrite to_int_small by lia. lia.
Qed.

Lemma unread_nonneg p : 0 <= unread p.
Proof. unfold unread. lia. Qed.

(** A failed header test costs one or two bytes of the buffer; no pass
    gives bytes back. *)
Lemma parseBody_count p f :
  Inv p -> parseBody p = Some f ->
  Z.of_nat (failedHeader p) <= unread p - unread (flowState f).
Proof.
  intros Hinv H. pose proof (parseBody_measure _ _ Hinv H) as Hm.
  unfold failedHeader, unread. unfold parseBody in H.
  destruct (headerIsValid p) as [[valid q]|] eqn:E; [|discriminate].
  destruct valid; [simpl; lia|].
  apply headerIsValid_frame in E as (n & t & -> & Hpos & Hsize & Hn).
  simpl in H. inversion H; subst; clear H. simpl in *. lia.
Qed.

Lemma recordLoop_count fuel : forall p e p',
  Inv p -> recordLoop fuel p = Done e p' ->
  exists n, effects (exitOk e) n [] p p' /\ Z.of_nat n <= unread p - unread p'.
Proof.
  induction fuel as [|k IH]; intros p e p' Hinv H; simpl in H.
  - destruct (recordGuard p); [discriminate|]. inversion H; subst.
    exists O. split; [apply effects_refl|lia].
  - destruct (recordGuard p);
      [|inversion H; subst; exists O; split; [apply effects_refl|lia]].
    destruct (parseBody p) as [f|] eqn:E; [|discriminate].
    pose proof (parseBody_count _ _ Hinv E) as Hc.
    pose proof (Inv_parseBody _ _ Hinv E) as Hi.
    apply effects_parseBody in E.
    destruct f as [p1|p1|p1]; simpl in *.
    + destruct (IH _ _ _ Hi H) as (n2 & H2 & Hn2).
      exists (failedHeader p + n2)%nat. split; [|lia].
      exact (effects_trans _ _ _ _ _ _ _ _ _ E H2).
    + inversion H; subst. by exists (failedHeader p).
    + inversion H; subst. by exists (failedHeader p).
Qed.

(** A refill gives the record loop the new block and at most
    [s_MinHeaderSize] bytes that it has passed already. *)
Lemma refill_unread chunk p :
  0 <= m_dataPos p ->
  unread (refill chunk p) <= unread p + Z.max 0 s_MinHeaderSize + size chunk.
Proof.
  intros Hpos. unfold refill, unread, remove0, size.
  destruct (decide (m_dataPos p > s_MinHeaderSize)); simpl;
    rewrite length_app, ?length_drop; lia.
Qed.

Lemma readLoop_count chunks : forall pos total p e p',
  Inv p -> readLoop pos total chunks p = Done e p' ->
  exists n calls,
    effects (exitOk e) n calls p p'
    /\ Z.of_nat n <=
       unread p + size (concat chunks) + lsize chunks * Z.max 0 s_MinHeaderSize.
Proof.
  induction chunks as [|chunk rest IH]; intros pos total p e p' Hinv H; cbn [readLoop] in H.
  - inversion H; subst. exists O, []. split; [apply effects_refl|].
    pose proof (unread_nonneg p'). unfold lsize, size. simpl. lia.
  - assert (Hsum : 0 <= size (concat rest) + lsize rest * Z.max 0 s_MinHeaderSize)
      by (unfold size, lsize; nia).
    assert (Hcons : size (concat (chunk :: rest)) + lsize (chunk :: rest) * Z.max 0 s_MinHeaderSize
                    = size chunk + Z.max 0 s_MinHeaderSize
                      + (size (concat rest) + lsize rest * Z.max 0 s_MinHeaderSize)).
    { unfold size, lsize. simpl. rewrite length_app. nia. }
    destruct (m_stop p) eqn:Hstop.
    { inversion H; subst. exists O, []. split; [apply effects_refl|].
      pose proof (unread_nonneg p'). pose proof (size_nonneg chunk). simpl Z.of_nat. lia. }
    match type of H with
    | context [recordLoop ?k ?q] =>
        destruct (recordLoop k q) as [e1 p3| |] eqn:E; try discriminate;
        assert (Hq : effects true 0 [(pos, total)] p q);
        [|assert (Hi : Inv q) by (apply Inv_refill; inv_same Hinv; apply Hinv);
          assert (Hu : unread q <= unread p + Z.max 0 s_MinHeaderSize + size chunk)
            by (apply (refill_unread chunk
                         (with_callbackObject (onProgress pos total (m_callbackObject p)) p));
                apply Hinv)]
    end.
    { apply (effects_trans true 0 [(pos, total)] true 0 []
               p (with_callbackObject (onProgress pos total (m_callbackObject p)) p));
        [eff_now|apply effects_refill]. }
    pose proof (Inv_recordLoop _ _ _ _ Hi E) as Hi3.
    apply (recordLoop_count _ _ _ _ Hi) in E as (n1 & E & Hn1).
    pose proof (effects_trans _ _ _ _ _ _ _ _ _ Hq E) as H1. simpl in H1.
    pose proof (unread_nonneg p3) as Hp3.
    assert (Hgo : readLoop (pos + size chunk) total rest p3 = Done e p' ->
                  exists n calls,
                    effects (exitOk e1 && exitOk e) n calls p p'
                    /\ Z.of_nat n <=
                       unread p + size (concat (chunk :: rest))
                       + lsize (chunk :: rest) * Z.max 0 s_MinHeaderSize).
    { intros H2. apply (IH _ _ _ _ _ Hi3) in H2 as (n2 & calls & H2 & Hn2).
      exists (n1 + n2)%nat, ((pos, total) :: calls). split; [|lia].
      exact (effects_trans _ _ _ _ _ _ _ _ _ H1 H2). }
    destruct e1.
    + destruct (Hgo H) as (n & calls & ? & ?). exists n, calls. auto.
    + destruct (Hgo H) as (n & calls & ? & ?). exists n, calls. auto.
    + inversion H; subst. exists n1, [(pos, total)]. split; [done|]. lia.
    + destruct (Hgo H) as (n & calls & ? & ?). exists n, calls. auto.
Qed.

(** X16: the count of the non-message bytes.  The count is an [int] that
    is incremented once for every failed header test.  In one run of the
    record loop there are no more of them than bytes that the cursor
    passed: every failed test costs one or two bytes of the buffer.  Over a
    run of [parse] that returns normally there are no more of them than the
    bytes of the log, the bytes that lay behind the cursor at the start and
    [s_MinHeaderSize] bytes for every block, which a refill keeps and the
    loop tests again.  So when that bound is in the range of an [int] the
    count did not overflow: it is the number of failed tests and lies
    between 0 and the bound.  The Status has the count when it is positive
    and is left alone otherwise. *)
Theorem non_message_bytes_are_bounded :
  (forall fuel p e p',
     Inv p ->
     recordLoop fuel p = Done e p' ->
     exists n : nat,
       noMessageBytes p' = Nat.iter n int_incr (noMessageBytes p)
       /\ Z.of_nat n <= unread p - unread p')
  /\ (forall chunks p p',
        Inv p ->
        parse chunks p = Done GuardFalse p' ->
        let bound :=
          unread p + size (concat chunks) + lsize chunks * Z.max 0 s_MinHeaderSize in
        exists n : nat,
          noMessageBytes p' = Nat.iter n int_incr 0
          /\ Z.of_nat n <= bound
          /\ INT_MIN <= noMessageBytes p' <= INT_MAX
          /\ (bound <= INT_MAX ->
              noMessageBytes p' = Z.of_nat n /\ 0 <= noMessageBytes p' <= bound)
          /\ statusNoMessageBytes (m_logLoadingState p') =
             if decide (noMessageBytes p' > 0) then noMessageBytes p'
             else statusNoMessageBytes (m_logLoadingState p)).
Proof.
  split.
  - intros fuel p e p' Hinv H.
    destruct (recordLoop_count _ _ _ _ Hinv H) as (n & [_ Hn _ _ _ _ _ _] & Hle).
    by exists n.
  - intros chunks p p' Hinv H bound. apply parse_Done in H. unfold startTransaction in H.
    destruct H as [(_ & ? & _)|(_ & H)]; [done|].
    destruct H as [(err & _ & ? & _)|(Hok & e1 & p1 & Hloop & H)]; [done|].
    rewrite Hok in Hloop. simpl in Hloop.
    apply readLoop_count in Hloop as (n & calls & Heff & Hn);
      [|inv_same Hinv; apply Hinv].
    destruct Heff. simpl in *.
    destruct H as [(_ & ? & _)|(He1 & H)]; [done|].
    unfold endTransaction in H. simpl in H.
    destruct (endTransaction_err _); destruct H as [? ->]; [done|].
    exists n.
    assert (Hle : Z.of_nat n <= bound) by (subst bound; unfold unread in *; simpl in *; lia).
    assert (Hcount : noMessageBytes p1 = Nat.iter n int_incr 0) by done.
    assert (Hrange : INT_MIN <= noMessageBytes p1 <= INT_MAX).
    { rewrite Hcount. apply iter_int_incr_range. unfold INT_MIN, INT_MAX. lia. }
    assert (Hsmall : bound <= INT_MAX ->
                     noMessageBytes p1 = Z.of_nat n /\ 0 <= noMessageBytes p1 <= bound).
    { intros Hb. rewrite Hcount, iter_int_incr_small; unfold INT_MIN; lia. }
    destruct (decide (noMessageBytes p1 > 0)); simpl.
    + rewrite decide_True by done. split_and!; try done; lia.
    + rewrite decide_False by done. split_and!; try done; lia.
Qed.

(** *** What the sink holds *)

Lemma sameSink_refl p : sameSink p p.
Proof. by repeat split. Qed.

Lemma sameSink_trans p1 p2 p3 : sameSink p1 p2 -> sameSink p2 p3 -> sameSink p1 p3.
Proof. intros (? & ? & ? & ?) (? & ? & ? & ?). repeat split; congruence. Qed.

Lemma sameSink_SinkInv p p' : sameSink p p' -> SinkInv p -> SinkInv p'.
Proof.
  intros (Hr & Ha & Ht & Hw) []. split; rewrite ?Ha, ?Ht, ?Hw; try done.
  - eapply Forall_impl; [exact snk_types0|]. intros t. unfold typeOK. by rewrite Hr, Ha.
  - eapply Forall_impl; [exact snk_rows0|]. intros r. unfold rowOK. by rewrite Ha, Ht.
Qed.

Lemma sameSink_Complete p p' : sameSink p p' -> Complete p -> Complete p'.
Proof. intros (Hr & Ha & Ht & Hw) H. unfold Complete. by rewrite Hr, Ha, Ht. Qed.

Lemma sameSink_fatal p : sameSink p (fatal p).
Proof. unfold fatal, endTransaction. by destruct (endTransaction_err _). Qed.

Lemma sameSink_headerIsValid p valid p' :
  headerIsValid p = Some (valid, p') -> sameSink p p'.
Proof. intros H. by apply headerIsValid_frame in H as (n & t & -> & _). Qed.

Lemma sameSink_parseFMTMessage desc p parsed desc' p' :
  parseFMTMessage desc p = Some (parsed, desc', p') -> sameSink p p'.
Proof.
  intros H. apply parseFMTMessage_frame in H as (_ & _ & _ & _ & _ & H).
  by destruct parsed; destruct H as [-> _].
Qed.

Lemma sameSink_parseDataByDescriptor l desc p :
  sameSink p (snd (parseDataByDescriptor l desc p)).
Proof.
  unfold parseDataByDescriptor. destruct (decide _); [apply sameSink_refl|].
  destruct (decodeFields_frame desc (list_ascii_of_string (m_format desc)) 0
              (mid (m_dataBlock p) (m_dataPos p) (m_length desc - s_HeaderOffset)) [] p)
    as [s Hs].
  destruct (decodeFields _ _ _ _ _ _) as [l' p1]. simpl in *. by subst p1.
Qed.

Lemma sameSink_detectMavType l p p' : detectMavType l p = Some p' -> sameSink p p'.
Proof.
  unfold detectMavType. intros H.
  destruct (l !! findName l 0) as [entry|]; [|discriminate]. simpl in H.
  inversion H; subst; clear H.
  repeat match goal with
         | |- context [if ?b then _ else _] => destruct b
         end; simpl; try destruct (m_loadedLogType p); by repeat split.
Qed.

Lemma sameSink_refill chunk p : sameSink p (refill chunk p).
Proof. unfold refill. by destruct (decide _). Qed.

(** [readTimeStamp] keeps the labels and puts an unsigned integer where it
    writes. *)
Lemma readTimeStamp_sink l idx p l' p' :
  readTimeStamp l idx p = Some (l', p') ->
  sameSink p p' /\ l'.*1 = l.*1
  /\ (Forall (fun entry : NameValuePair => isNumber (snd entry)) l ->
      Forall (fun entry : NameValuePair => isNumber (snd entry)) l').
Proof.
  intros H. apply readTimeStamp_spec in H as (entry & Hidx & Hl & H).
  destruct (decide _).
  - destruct H as [-> ->]. by split_and!.
  - destruct H as (-> & _ & _ & Hm & Ha & Hr & _). split_and!.
    + repeat split; congruence.
    + rewrite list_fmap_insert. simpl. apply list_insert_id.
      by rewrite list_lookup_fmap, Hl.
    + intros Hall. apply Forall_insert; [done|]. simpl. done.
Qed.

Lemma decodeField_number typeCode stream v s :
  decodeField typeCode stream = (Value v, s) -> isNumber v.
Proof.
  unfold decodeField. ladder typeCode; intros Hd;
    try discriminate;
    match type of Hd with
    | context [readRaw ?k stream] => destruct (readRaw k stream) as [raw s']
    | context [readChars ?k stream] => destruct (readChars k stream) as [raw s']
    end;
    try (destruct (isNaN raw) eqn:Hnan; [discriminate|]);
    inversion Hd; subst; simpl; done.
Qed.

Lemma decodeFields_numbers desc format : forall i stream acc p,
  Forall (fun entry : NameValuePair => isNumber (snd entry)) acc ->
  Forall (fun entry : NameValuePair => isNumber (snd entry))
    (fst (decodeFields desc i format stream acc p)).
Proof.
  induction format as [|c rest IH]; intros i stream acc p Hacc; simpl; [done|].
  destruct (decodeField c stream) as [[v| |] s] eqn:E; simpl; [|done..].
  apply IH. apply Forall_app. split; [done|]. constructor; [|done].
  simpl. by eapply decodeField_number.
Qed.

(** A record of a registered type that decodes completely has the labels
    of its descriptor, in their order. *)
Lemma decodeFields_all_labels desc stream p :
  qsize (m_format desc) = lsize (m_labels desc) ->
  let l := fst (decodeFields desc 0 (list_ascii_of_string (m_format desc)) stream [] p) in
  l = [] \/ l.*1 = m_labels desc.
Proof.
  intros Hsize l.
  pose proof (decodeFields_shape desc (list_ascii_of_string (m_format desc)) 0 stream [] p)
    as Hshape.
  fold l in Hshape. destruct Hshape as [H|(vals & H & Hlen)]; [by left|right].
  rewrite H. simpl. rewrite length_list_ascii_of_string in Hlen.
  assert (Heq : length vals = length (m_labels desc)).
  { unfold qsize, lsize in Hsize. lia. }
  rewrite labelled_fst by lia. rewrite Heq. simpl. apply firstn_all.
Qed.

Lemma forwarded_id timeStamp desc : sk_id (forwarded timeStamp desc) = m_ID desc.
Proof. unfold forwarded. by destruct (hasNoTimestamp desc). Qed.

Lemma SinkInv_storeDescriptor desc p :
  SinkInv p ->
  SinkInv (snd (storeDescriptor desc p))
  /\ (Complete p -> fst (storeDescriptor desc p) = true ->
      Complete (snd (storeDescriptor desc p))).
Proof.
  intros Hs. unfold storeDescriptor.
  destruct (isValid _ desc);
    [|split; [by apply (sameSink_SinkInv p)|intros; by apply (sameSink_Complete p)]].
  destruct (m_typeToDescriptorMap p !! m_ID desc) eqn:E;
    [split; [by apply (sameSink_SinkInv p)|intros; by apply (sameSink_Complete p)]|].
  assert (Hold : forall t, typeOK p t ->
            typeOK (with_typeToDescriptorMap
                      (<[m_ID desc := desc]> (m_typeToDescriptorMap p)) p) t).
  { intros t (Hid & d & Hd & Ht). split; [done|]. exists d. split; [|done]. simpl.
    rewrite lookup_insert_ne; [done|]. intros Heq. rewrite <- Heq in Hd. congruence. }
  destruct Hs as [Htypes Hnd Hrows Hpend].
  assert (Hp1 : SinkInv (with_typeToDescriptorMap
                           (<[m_ID desc := desc]> (m_typeToDescriptorMap p)) p)).
  { split; simpl; try done.
    eapply Forall_impl; [exact Htypes|]. intros t Ht. by apply Hold. }
  destruct (decide (m_ID desc <> s_FMTMessageType)) as [Hid|Hid].
  - unfold addType. simpl.
    destruct (addType_err _ _); simpl.
    + split; [|done]. eapply sameSink_SinkInv; [|exact Hp1].
      eapply sameSink_trans; [|apply sameSink_fatal]. by repeat split.
    + split.
      * split; simpl.
        -- apply Forall_app. split.
           ++ eapply Forall_impl; [exact Htypes|]. intros t Ht. by apply Hold.
           ++ constructor; [|done]. fold (forwarded (m_activeTimestamp p) desc).
              unfold typeOK. rewrite forwarded_id. split; [done|].
              exists desc. split; [|done]. simpl. by rewrite lookup_insert_eq.
        -- rewrite fmap_app. simpl.
           replace (m_ID (if hasNoTimestamp desc
                          then addTimeStampField (m_activeTimestamp p) desc else desc))
             with (m_ID desc) by by destruct (hasNoTimestamp desc). apply NoDup_app. split_and!; [done| |apply NoDup_singleton].
           intros id Hin Hin2. apply list_elem_of_singleton in Hin2. subst id.
           apply list_elem_of_fmap in Hin as (t & Hid2 & Ht).
           rewrite Forall_forall in Htypes. destruct (Htypes t Ht) as (_ & d & Hd & _).
           congruence.
        -- eapply Forall_impl; [exact Hrows|]. intros r (Hl & Hn & t & Ht & Hr).
           split_and!; try done. exists t. split; [|done]. apply elem_of_app. by left.
        -- done.
      * intros Hc _ id d Hd Hne. simpl in *.
        fold (forwarded (m_activeTimestamp p) desc).
        destruct (decide (id = m_ID desc)) as [->|Hneq].
        -- rewrite lookup_insert_eq in Hd. inversion Hd; subst.
           apply elem_of_app. right. by apply list_elem_of_singleton.
        -- rewrite lookup_insert_ne in Hd by done.
           apply elem_of_app. left. by apply (Hc id).
  - split; [exact Hp1|].
    intros Hc _ id d Hd Hne. simpl in *.
    rewrite lookup_insert_ne in Hd; [by apply (Hc id)|].
    intros Heq. apply Hne. rewrite <- Heq. by destruct (decide (m_ID desc = s_FMTMessageType)).
Qed.

Lemma SinkInv_storeDeferred queue : forall rc p,
  SinkInv p ->
  SinkInv (snd (storeDeferred queue rc p))
  /\ (Complete p -> fst (storeDeferred queue rc p) = true ->
      Complete (snd (storeDeferred queue rc p))).
Proof.
  induction queue as [|d rest IH]; intros rc p Hs; simpl; [done|].
  destruct (SinkInv_storeDescriptor d p Hs) as [H1 H2].
  destruct (storeDescriptor d p) as [localRc p1]. simpl in H1, H2.
  destruct (IH (rc && localRc) p1 H1) as [H3 H4]. split; [done|].
  intros Hc Hrc. pose proof (storeDeferred_rc _ _ _ Hrc) as Hand.
  apply andb_true_iff in Hand as [_ ->]. auto.
Qed.

Lemma SinkInv_extendedStoreDescriptor desc p :
  SinkInv p ->
  SinkInv (snd (extendedStoreDescriptor desc p))
  /\ (Complete p -> fst (extendedStoreDescriptor desc p) = true ->
      Complete (snd (extendedStoreDescriptor desc p))).
Proof.
  intros Hs. unfold extendedStoreDescriptor.
  destruct (SinkInv_storeDeferred (m_descriptorForDeferredStorage p) true p Hs) as [H1 H2].
  destruct (storeDeferred _ _ _) as [rc p1]. simpl in H1, H2.
  assert (H3 : SinkInv (with_descriptorForDeferredStorage [] p1))
    by by apply (sameSink_SinkInv p1).
  destruct rc; [|done].
  destruct (SinkInv_storeDescriptor desc _ H3) as [H4 H5]. split; [done|].
  intros Hc Hrc. apply H5; [|done]. apply (sameSink_Complete p1); [done|auto].
Qed.

(** Before the discovery the sink is empty. *)
Lemma SinkInv_pending p :
  Inv p -> SinkInv p -> ts_valid (m_activeTimestamp p) = false ->
  dm_types (m_dataModel p) = [] /\ dm_rows (m_dataModel p) = [].
Proof.
  intros Hinv [Htypes _ _ Hpend] Hv. split; [|auto].
  pose proof (inv_pending p Hinv) as Hp. rewrite Hv in Hp. destruct Hp as [_ Hreg].
  destruct (dm_types (m_dataModel p)) as [|t rest]; [done|].
  apply Forall_cons in Htypes as [(_ & d & Hd & _) _].
  rewrite Hreg in Hd. by rewrite lookup_empty in Hd.
Qed.

Lemma SinkInv_checkForValidTimestamp desc p :
  Inv p -> SinkInv p -> ts_valid (m_activeTimestamp p) = false ->
  SinkInv (checkForValidTimestamp desc p) /\ Complete (checkForValidTimestamp desc p).
Proof.
  intros Hinv Hs Hv. destruct (SinkInv_pending p Hinv Hs Hv) as [Ht Hr].
  pose proof (inv_pending p Hinv) as Hp. rewrite Hv in Hp. destruct Hp as [_ Hreg].
  unfold checkForValidTimestamp.
  destruct (findTimestamp _ _); simpl.
  - split; [split; simpl; rewrite ?Ht, ?Hr; try done; apply NoDup_nil_2|].
    intros id d Hd. simpl in Hd. rewrite Hreg in Hd. by rewrite lookup_empty in Hd.
  - split; [split; simpl; rewrite ?Ht, ?Hr; try done; apply NoDup_nil_2|].
    intros id d Hd. simpl in Hd. rewrite Hreg in Hd. by rewrite lookup_empty in Hd.
Qed.

Lemma SinkInv_fmtBranch descriptor p :
  Inv p -> SinkInv p ->
  SinkInv (flowState (fmtBranch descriptor p))
  /\ (Complete p -> flowOk (fmtBranch descriptor p) = true ->
      Complete (flowState (fmtBranch descriptor p))).
Proof.
  intros Hinv Hs. unfold fmtBranch.
  destruct (ts_valid (m_activeTimestamp p)) eqn:Hv.
  - match goal with
    | |- context [extendedStoreDescriptor ?d p] =>
        destruct (SinkInv_extendedStoreDescriptor d p Hs) as [H1 H2];
        destruct (extendedStoreDescriptor d p) as [[] p1]
    end; simpl in *; [auto|done].
  - simpl. destruct (SinkInv_checkForValidTimestamp
                       (if decide (m_name descriptor = "GPS"%string)
                        then replaceLabelName "TimeMS" "GPSTimeMS" descriptor
                        else descriptor) p Hinv Hs Hv). auto.
Qed.

(** A row that is submitted for a forwarded descriptor with the labels of
    the descriptor agrees with the sink. *)
Lemma SinkInv_storeNameValuePairList l desc p stored l1 p' :
  SinkInv p ->
  ts_valid (m_activeTimestamp p) = true ->
  forwarded (m_activeTimestamp p) desc ∈ dm_types (m_dataModel p) ->
  l.*1 = m_labels desc ->
  Forall (fun entry : NameValuePair => isNumber (snd entry)) l ->
  storeNameValuePairList l desc p = Some (stored, l1, p') ->
  SinkInv p'
  /\ m_typeToDescriptorMap p' = m_typeToDescriptorMap p
  /\ m_activeTimestamp p' = m_activeTimestamp p
  /\ dm_types (m_dataModel p') = dm_types (m_dataModel p).
Proof.
  intros Hs Hv Hfwd Hlab Hnum H. unfold storeNameValuePairList in H.
  assert (Hstep : forall l2 p2,
            sameSink p p2 ->
            l2.*1 = sk_labels (forwarded (m_activeTimestamp p) desc) ->
            Forall (fun entry : NameValuePair => isNumber (snd entry)) l2 ->
            (let row := {| row_type := m_name desc; row_values := l2;
                           row_timeLabel := ts_name (m_activeTimestamp p2) |} in
             let '(ok, m) := addRow row (m_dataModel p2) in
             if ok then
               let p3 := with_dataModel m p2 in
               let p4 := with_MessageCounter (m_MessageCounter p3 + 1) p3 in
               Some (true, l2, with_logLoadingState (validDataRead (m_logLoadingState p4)) p4)
             else Some (false, l2, fatal (with_dataModel m p2)))
            = Some (stored, l1, p') ->
            SinkInv p'
            /\ m_typeToDescriptorMap p' = m_typeToDescriptorMap p
            /\ m_activeTimestamp p' = m_activeTimestamp p
            /\ dm_types (m_dataModel p') = dm_types (m_dataModel p)).
  { intros l2 p2 Hsame Hl2 Hn2.
    pose proof (sameSink_SinkInv _ _ Hsame Hs) as Hs2.
    destruct Hsame as (Hr & Ha & Ht & Hw).
    unfold addRow. simpl.
    destruct (addRow_err _ _); simpl; intros Heq; inversion Heq; subst; clear Heq.
    - match goal with
      | |- SinkInv ?q /\ _ =>
          assert (Hsf : sameSink p2 q)
            by (eapply sameSink_trans; [|apply sameSink_fatal]; by repeat split)
      end.
      split; [by eapply sameSink_SinkInv|].
      destruct Hsf as (? & ? & ? & ?). split_and!; congruence.
    - split; [|simpl; split_and!; congruence].
      destruct Hs2 as [Htypes Hnd Hrows Hpend]. split; simpl; try done.
      + apply Forall_app. split; [done|]. constructor; [|done].
        split_and!; simpl; try done.
        exists (forwarded (m_activeTimestamp p) desc). split_and!.
        * by rewrite Ht.
        * unfold forwarded. by destruct (hasNoTimestamp desc).
        * done.
      + intros Hv2. rewrite Ha in Hv2. congruence. }
  destruct (hasNoTimestamp desc) eqn:Hflag.
  - simpl in H. eapply Hstep; [apply sameSink_refl| |  |exact H].
    + unfold forwarded. rewrite Hflag, fmap_cons. cbn [sinkTypeOf sk_labels addTimeStampField m_labels fst]. by f_equal.
    + constructor; [done|exact Hnum].
  - destruct (readTimeStamp l (m_timeStampIndex desc) p) as [[l2 p2]|] eqn:E; [|discriminate].
    simpl in H. apply readTimeStamp_sink in E as (Hsame & Hl2 & Hn2).
    eapply Hstep; [exact Hsame| |by apply Hn2|exact H].
    unfold forwarded. rewrite Hflag. cbn [sinkTypeOf sk_labels]. by rewrite Hl2.
Qed.

Lemma SinkInv_dataBranch id descriptor p f :
  Inv p -> SinkInv p -> Complete p ->
  m_typeToDescriptorMap p !! id = Some descriptor ->
  id <> s_FMTMessageType ->
  dataBranch descriptor p = Some f ->
  SinkInv (flowState f) /\ Complete (flowState f).
Proof.
  intros Hinv Hs Hc Hreg Hid H. unfold dataBranch in H.
  destruct (inv_registry p Hinv id descriptor Hreg) as (Hkey & Hvalid & Hfin).
  assert (Hv : ts_valid (m_activeTimestamp p) = true).
  { destruct (ts_valid (m_activeTimestamp p)) eqn:Hv; [done|].
    pose proof (inv_pending p Hinv) as Hp. rewrite Hv in Hp. destruct Hp as [_ He].
    rewrite He in Hreg. by rewrite lookup_empty in Hreg. }
  destruct (decide (size (m_dataBlock p) - m_dataPos p
                    < m_length descriptor - s_HeaderOffset)) as [Hshort|Hshort].
  { rewrite (parseDataByDescriptor_short [] descriptor p Hshort) in H.
    by inversion H; subst. }
  destruct (parseDataByDescriptor_full [] descriptor p) as (l1 & st & Hfull & Hdec); [lia|].
  rewrite Hfull in H.
  match type of H with
  | context [storeNameValuePairList l1 descriptor ?q] => set (q0 := q) in *
  end.
  assert (Hq0 : sameSink p q0) by by repeat split.
  clearbody q0.
  pose proof (sameSink_SinkInv _ _ Hq0 Hs) as Hs0.
  pose proof (sameSink_Complete _ _ Hq0 Hc) as Hc0.
  destruct (decide (lsize l1 >= 1)) as [Hl|Hl].
  - destruct (storeNameValuePairList l1 descriptor q0) as [[[stored l2] p2]|] eqn:E;
      [|discriminate].
    destruct Hq0 as (Hr0 & Ha0 & Ht0 & Hw0).
    assert (H2 : SinkInv p2 /\ Complete p2).
    { apply SinkInv_storeNameValuePairList in E as (H2 & Hr2 & Ha2 & Ht2); try done.
      - split; [done|]. unfold Complete. rewrite Hr2, Ha2, Ht2. exact Hc0.
      - by rewrite Ha0.
      - apply (Hc0 id); [by rewrite Hr0|done].
      - pose proof (decodeFields_all_labels descriptor
                      (mid (m_dataBlock p) (m_dataPos p) (m_length descriptor - s_HeaderOffset))
                      p (isValid_data descriptor Hvalid ltac:(congruence))) as Hlab.
        simpl in Hlab. rewrite <- Hdec in Hlab. simpl in Hlab.
        destruct Hlab as [->|Hlab]; [unfold lsize in Hl; simpl in Hl; lia|done].
      - pose proof (decodeFields_numbers descriptor
                      (list_ascii_of_string (m_format descriptor)) 0
                      (mid (m_dataBlock p) (m_dataPos p) (m_length descriptor - s_HeaderOffset))
                      [] p ltac:(done)) as Hnum.
        by rewrite <- Hdec in Hnum. }
    simpl in H. destruct stored; [|by inversion H; subst].
    destruct (decide _).
    + destruct (detectMavType l2 p2) as [p3|] eqn:E3; [|discriminate].
      apply sameSink_detectMavType in E3. inversion H; subst. simpl. destruct H2.
      split; [by apply (sameSink_SinkInv p2)|by apply (sameSink_Complete p2)].
    + by inversion H; subst.
  - inversion H; subst. simpl.
    split; [by apply (sameSink_SinkInv q0)|by apply (sameSink_Complete q0)].
Qed.

Lemma SinkInv_parseBody p f :
  Inv p -> SinkInv p -> Complete p ->
  parseBody p = Some f ->
  SinkInv (flowState f) /\ (flowOk f = true -> Complete (flowState f)).
Proof.
  intros Hinv Hs Hc H. unfold parseBody in H.
  destruct (headerIsValid p) as [[valid p1]|] eqn:E; [|discriminate].
  pose proof (Inv_headerIsValid _ _ _ Hinv E) as Hinv1.
  apply sameSink_headerIsValid in E.
  pose proof (sameSink_SinkInv _ _ E Hs) as Hs1.
  pose proof (sameSink_Complete _ _ E Hc) as Hc1.
  simpl in H. destruct valid; simpl in H.
  - destruct (decide (m_messageType p1 = s_FMTMessageType)).
    + destruct (parseFMTMessage newDescriptor p1) as [[[parsed d] p2]|] eqn:E2;
        [|discriminate].
      pose proof (Inv_parseFMTMessage _ _ _ _ _ Hinv1 E2) as Hinv2.
      apply sameSink_parseFMTMessage in E2.
      pose proof (sameSink_SinkInv _ _ E2 Hs1) as Hs2.
      pose proof (sameSink_Complete _ _ E2 Hc1) as Hc2.
      simpl in H. destruct parsed; inversion H; subst; simpl; [|done].
      destruct (SinkInv_fmtBranch d p2 Hinv2 Hs2). auto.
    + destruct (m_typeToDescriptorMap p1 !! m_messageType p1) as [d|] eqn:El.
      * destruct (SinkInv_dataBranch _ _ _ _ Hinv1 Hs1 Hc1 El ltac:(done) H). auto.
      * inversion H; subst; simpl.
        split; [by apply (sameSink_SinkInv p1)|intros _; by apply (sameSink_Complete p1)].
  - inversion H; subst; simpl.
    split; [by apply (sameSink_SinkInv p1)|intros _; by apply (sameSink_Complete p1)].
Qed.

Lemma SinkInv_recordLoop fuel : forall p e p',
  Inv p -> SinkInv p -> Complete p ->
  recordLoop fuel p = Done e p' ->
  SinkInv p' /\ (exitOk e = true -> Complete p').
Proof.
  induction fuel as [|k IH]; intros p e p' Hinv Hs Hc H; simpl in H.
  - destruct (recordGuard p); [discriminate|]. by inversion H; subst.
  - destruct (recordGuard p); [|by inversion H; subst].
    destruct (parseBody p) as [[p1|p1|p1]|] eqn:E; try discriminate;
      pose proof (Inv_parseBody _ _ Hinv E) as Hinv1;
      destruct (SinkInv_parseBody _ _ Hinv Hs Hc E) as [Hs1 Hc1]; simpl in *.
    + eapply IH; eauto.
    + inversion H; subst. auto.
    + by inversion H; subst.
Qed.

Lemma SinkInv_readLoop chunks : forall pos total p e p',
  Inv p -> SinkInv p -> Complete p ->
  readLoop pos total chunks p = Done e p' ->
  SinkInv p' /\ (exitOk e = true -> Complete p').
Proof.
  induction chunks as [|chunk rest IH]; intros pos total p e p' Hinv Hs Hc H;
    cbn [readLoop] in H.
  - by inversion H; subst.
  - destruct (m_stop p); [by inversion H; subst|].
    match type of H with
    | context [recordLoop ?n ?q] =>
        assert (Hq : Inv q) by (apply Inv_refill; inv_same Hinv; apply Hinv);
        assert (Hsame : sameSink p q)
          by (eapply sameSink_trans; [|apply sameSink_refill]; by repeat split);
        destruct (recordLoop n q) as [e1 p3| |] eqn:E; try discriminate
    end.
    pose proof (sameSink_SinkInv _ _ Hsame Hs) as Hsq.
    pose proof (sameSink_Complete _ _ Hsame Hc) as Hcq.
    pose proof (Inv_recordLoop _ _ _ _ Hq E) as Hinv3.
    destruct (SinkInv_recordLoop _ _ _ _ Hq Hsq Hcq E) as [Hs3 Hc3].
    destruct e1; simpl in *.
    + eapply IH; eauto.
    + eapply IH; eauto.
    + by inversion H; subst.
    + eapply IH; eauto.
Qed.

Lemma SinkInv_parse chunks p e p' :
  Inv p -> SinkInv p -> Complete p ->
  parse chunks p = Done e p' ->
  SinkInv p' /\ (e = GuardFalse -> Complete p').
Proof.
  intros Hinv Hs Hc H. apply parse_Done in H. unfold startTransaction in H.
  destruct H as [(_ & -> & ->)|(_ & H)]; [done|].
  destruct H as [(err & Herr & -> & ->)|(Hok & e1 & p1 & Hloop & H)].
  - rewrite Herr. split; [by apply (sameSink_SinkInv p)|done].
  - rewrite Hok in Hloop. simpl in Hloop.
    match type of Hloop with
    | readLoop _ _ _ ?q = _ =>
        assert (Hq : Inv q) by (inv_same Hinv; apply Hinv);
        assert (Hsame : sameSink p q) by by repeat split
    end.
    apply SinkInv_readLoop in Hloop as [H1 H2];
      [|done|by apply (sameSink_SinkInv p)|by apply (sameSink_Complete p)].
    destruct H as [(_ & -> & ->)|(He1 & H)]; [done|].
    assert (Hc1 : Complete p1) by (apply H2; by destruct e1).
    unfold endTransaction in H. simpl in H.
    destruct (endTransaction_err _); destruct H as [_ ->];
      (split; [eapply sameSink_SinkInv; [|exact H1]
              |intros _; eapply sameSink_Complete; [|exact Hc1]]);
      by destruct (decide _).
Qed.

Lemma SinkInv_newParser : SinkInv newParser.
Proof. split; simpl; try done. apply NoDup_nil_2. Qed.

Lemma Complete_newParser : Complete newParser.
Proof. intros id d Hd. simpl in Hd. by rewrite lookup_empty in Hd. Qed.

(** A type of the sink has one format character for every label, and the
    active time label is one of its labels. *)
Lemma typeOK_shape p t :
  Inv p -> typeOK p t ->
  String.length (sk_format t) = length (sk_labels t)
  /\ ts_name (m_activeTimestamp p) ∈ sk_labels t.
Proof.
  intros Hinv (Hid & d & Hd & ->).
  destruct (inv_registry p Hinv _ _ Hd) as (Hkey & Hvalid & Hfin).
  rewrite forwarded_id in Hid, Hd.
  pose proof (isValid_data d Hvalid Hid) as Hsize. unfold qsize, lsize in Hsize.
  unfold forwarded, hasNoTimestamp, finalizedFor in *.
  destruct (m_hasTimeStamp d); simpl.
  - split; [lia|]. destruct Hfin as [Hidx Hne]. apply indexOf_present. congruence.
  - split; [lia|]. apply elem_of_cons. by left.
Qed.

(** X17: the types of the sink.  After a run of [parse] on a parser whose
    sink agrees with its registry, as it does for a new parser, no two types
    of the sink have the same id and none has the id of the FMT records.
    Every type is what [storeDescriptor] forwards for the descriptor that
    the registry holds under its id; it has the name of that descriptor, as
    many format characters as labels, and the active time label among its
    labels.  And when the run returns normally, every descriptor of the
    registry, but the one of the FMT records, has its type in the sink. *)
Theorem sink_types_are_the_forwarded_descriptors chunks p e p' :
  Inv p -> SinkInv p -> Complete p ->
  parse chunks p = Done e p' ->
  NoDup (sk_id <$> dm_types (m_dataModel p'))
  /\ (forall t, t ∈ dm_types (m_dataModel p') ->
       sk_id t <> s_FMTMessageType
       /\ (exists d, m_typeToDescriptorMap p' !! sk_id t = Some d
                     /\ t = forwarded (m_activeTimestamp p') d
                     /\ sk_name t = m_name d)
       /\ String.length (sk_format t) = length (sk_labels t)
       /\ ts_name (m_activeTimestamp p') ∈ sk_labels t)
  /\ (e = GuardFalse ->
      forall id d,
        m_typeToDescriptorMap p' !! id = Some d -> id <> s_FMTMessageType ->
        forwarded (m_activeTimestamp p') d ∈ dm_types (m_dataModel p')).
Proof.
  intros Hinv Hs Hc H.
  pose proof (Inv_parse _ _ _ _ Hinv H) as Hinv'.
  destruct (SinkInv_parse _ _ _ _ Hinv Hs Hc H) as [[Htypes Hnd _ _] Hcomplete].
  split; [done|]. split; [|exact Hcomplete].
  intros t Ht. rewrite Forall_forall in Htypes.
  pose proof (Htypes t Ht) as Hok. destruct (typeOK_shape _ _ Hinv' Hok) as [Hlen Hin].
  destruct Hok as (Hid & d & Hd & Heq). split_and!; try done.
  exists d. split_and!; try done. rewrite Heq. unfold forwarded.
  by destruct (hasNoTimestamp d).
Qed.

(** X18: the rows of the sink.  After such a run every row of the sink was
    submitted under the active time label and belongs to a type of the
    sink: the type has the name of the row, its labels are the labels of the
    row in the same order, and the row has one value for every format
    character of the type. *)
Theorem rows_match_a_type_of_the_sink chunks p e p' :
  Inv p -> SinkInv p -> Complete p ->
  parse chunks p = Done e p' ->
  forall r, r ∈ dm_rows (m_dataModel p') ->
    row_timeLabel r = ts_name (m_activeTimestamp p')
    /\ exists t, t ∈ dm_types (m_dataModel p')
                 /\ sk_name t = row_type r
                 /\ sk_labels t = (row_values r).*1
                 /\ length (row_values r) = String.length (sk_format t).
Proof.
  intros Hinv Hs Hc H r Hr.
  pose proof (Inv_parse _ _ _ _ Hinv H) as Hinv'.
  destruct (SinkInv_parse _ _ _ _ Hinv Hs Hc H) as [[Htypes _ Hrows _] _].
  rewrite Forall_forall in Hrows. destruct (Hrows r Hr) as (Hl & _ & t & Ht & Hn & Hlab).
  split; [done|]. exists t. split_and!; try done.
  rewrite Forall_forall in Htypes. destruct (typeOK_shape _ _ Hinv' (Htypes t Ht)) as [Hlen _].
  rewrite Hlen, Hlab. by rewrite length_fmap.
Qed.

(** X19: no row of the sink holds a NaN.  After such a run every float of
    every row is a number. *)
Theorem rows_hold_no_NaN chunks p e p' :
  Inv p -> SinkInv p -> Complete p ->
  parse chunks p = Done e p' ->
  forall r label bits,
    r ∈ dm_rows (m_dataModel p') ->
    (label, VFloat bits) ∈ row_values r ->
    isNaN bits = false.
Proof.
  intros Hinv Hs Hc H r label bits Hr Hin.
  destruct (SinkInv_parse _ _ _ _ Hinv Hs Hc H) as [[_ _ Hrows _] _].
  rewrite Forall_forall in Hrows. destruct (Hrows r Hr) as (_ & Hnum & _).
  rewrite Forall_forall in Hnum. exact (Hnum _ Hin).
Qed.

(** *** The registry and what a run only extends *)

(** X20: the registry holds valid descriptors under their own ids.  After
    a run of [parse] on a parser that satisfies the invariant, as a new
    parser does, every descriptor of the registry is stored under its id,
    which is not 255, has a positive length and a name, and, unless it is
    the descriptor of the FMT records, as many format characters as labels;
    its flag tells whether the active time label is among its labels, and
    then the index is the first position of that label. *)
Theorem registry_holds_valid_descriptors chunks p e p' :
  Inv p ->
  parse chunks p = Done e p' ->
  forall id d,
    m_typeToDescriptorMap p' !! id = Some d ->
    m_ID d = id /\ id <> 255 /\ m_length d > 0 /\ m_name d <> ""%string
    /\ (id <> s_FMTMessageType -> String.length (m_format d) = length (m_labels d))
    /\ (m_hasTimeStamp d = true <-> ts_name (m_activeTimestamp p') ∈ m_labels d)
    /\ (m_hasTimeStamp d = true ->
        0 <= m_timeStampIndex d
        /\ m_labels d !! Z.to_nat (m_timeStampIndex d) = Some (ts_name (m_activeTimestamp p'))
        /\ forall j y, (j < Z.to_nat (m_timeStampIndex d))%nat ->
             m_labels d !! j = Some y -> y <> ts_name (m_activeTimestamp p')).
Proof.
  intros Hinv H id d Hd.
  pose proof (Inv_parse _ _ _ _ Hinv H) as Hinv'.
  destruct (inv_registry p' Hinv' id d Hd) as (Hkey & Hvalid & Hfin).
  destruct (isValid_length d Hvalid) as [Hlen H255].
  split_and!; try done; try congruence.
  - intros Hname. unfold isValid in Hvalid. rewrite Hname in Hvalid.
    repeat destruct (decide _); rewrite !andb_true_iff in Hvalid;
      repeat match goal with H : _ /\ _ |- _ => destruct H end;
      match goal with
      | H : bool_decide (qsize "" > 0) = true |- _ =>
          apply bool_decide_eq_true in H; unfold qsize in H; simpl in H; lia
      end.
  - intros Hid. pose proof (isValid_data d Hvalid ltac:(congruence)) as Hs.
    unfold qsize, lsize in Hs. lia.
  - unfold finalizedFor in Hfin. destruct (m_hasTimeStamp d).
    + destruct Hfin as [Hi Hne]. split; [|done]. intros _. apply indexOf_present. congruence.
    + split; [done|]. intros Hin. done.
  - intros Hflag. unfold finalizedFor in Hfin. rewrite Hflag in Hfin.
    destruct Hfin as [Hi Hne].
    destruct (indexOf_lookup _ _ _ (eq_sym Hi) Hne) as [Hl Hfirst].
    destruct (indexOf_range (m_labels d) (ts_name (m_activeTimestamp p'))) as [Hm|Hr];
      [congruence|].
    split_and!; [lia|done|]. intros j y Hj Hy. by apply (Hfirst j Hj).
Qed.

(** X21: a run only adds.  Whatever [parse] does, the rows and the types
    of the sink, the incidents of the Status and the progress calls that
    were there before are still there, in their places, in front of what the
    run added; the last valid timestamp has not fallen; and the stop flag is
    as it was. *)
Theorem a_run_only_adds chunks p e p' :
  parse chunks p = Done e p' ->
  dm_rows (m_dataModel p) `prefix_of` dm_rows (m_dataModel p')
  /\ dm_types (m_dataModel p) `prefix_of` dm_types (m_dataModel p')
  /\ incidents (m_logLoadingState p) `prefix_of` incidents (m_logLoadingState p')
  /\ cb_progress (m_callbackObject p) `prefix_of` cb_progress (m_callbackObject p')
  /\ m_lastValidTimeStamp p <= m_lastValidTimeStamp p'
  /\ m_stop p' = m_stop p.
Proof. intros H. apply extends_parse in H as []. done. Qed.

(** *** A complete record gives one row *)

Lemma decodeValues_length format : forall stream vals s,
  decodeValues format stream = Some (vals, s) -> length vals = length format.
Proof.
  induction format as [|c rest IH]; intros stream vals s H; simpl in H.
  - by inversion H.
  - destruct (decodeField c stream) as [[v| |] s1]; try discriminate.
    destruct (decodeValues rest s1) as [[vals1 s2]|] eqn:E; [|discriminate].
    inversion H; subst. simpl. f_equal. eauto.
Qed.

Lemma length_labelled desc vals : forall i, length (labelled desc i vals) = length vals.
Proof. induction vals as [|v rest IH]; intros i; simpl; [done|]. by rewrite IH. Qed.

(** With a sink that takes every row, [storeNameValuePairList] appends one
    row with the values it was given, where only the time may have been
    replaced. *)
Lemma storeNameValuePairList_accepted l desc p stored l1 p' :
  (forall m r, addRow_err m r = None) ->
  storeNameValuePairList l desc p = Some (stored, l1, p') ->
  stored = true
  /\ dm_rows (m_dataModel p') =
     dm_rows (m_dataModel p)
     ++ [ {| row_type := m_name desc; row_values := l1;
             row_timeLabel := ts_name (m_activeTimestamp p) |} ]
  /\ (if hasNoTimestamp desc
      then l1 = (ts_name (m_activeTimestamp p), VUInt (m_lastValidTimeStamp p)) :: l
      else l1.*1 = l.*1
           /\ forall i, i <> Z.to_nat (m_timeStampIndex desc) -> l1 !! i = l !! i).
Proof.
  intros Hsink H. unfold storeNameValuePairList in H.
  destruct (hasNoTimestamp desc).
  - simpl in H. unfold addRow in H. rewrite Hsink in H. simpl in H.
    inversion H; subst; clear H. by split_and!.
  - destruct (readTimeStamp l (m_timeStampIndex desc) p) as [[l2 p2]|] eqn:E; [|discriminate].
    simpl in H. unfold addRow in H. rewrite Hsink in H. simpl in H.
    inversion H; subst; clear H. simpl.
    pose proof (readTimeStamp_sink _ _ _ _ _ E) as ((_ & Ha & _ & Hr) & Hl & _).
    apply readTimeStamp_spec in E as (entry & Hidx & Hentry & E).
    split_and!; [done|by rewrite Hr, Ha|done|].
    intros i Hi. destruct (decide _).
    + by destruct E as [-> _].
    + destruct E as [-> _]. by rewrite list_lookup_insert_ne.
Qed.

Lemma storeNameValuePairList_types l desc p stored l1 p' :
  storeNameValuePairList l desc p = Some (stored, l1, p') ->
  dm_types (m_dataModel p') = dm_types (m_dataModel p).
Proof.
  unfold storeNameValuePairList. intros H.
  assert (Hpre : forall l2 p2,
            (if hasNoTimestamp desc
             then Some ((ts_name (m_activeTimestamp p), VUInt (m_lastValidTimeStamp p)) :: l, p)
             else readTimeStamp l (m_timeStampIndex desc) p) = Some (l2, p2) ->
            dm_types (m_dataModel p2) = dm_types (m_dataModel p)).
  { intros l2 p2. destruct (hasNoTimestamp desc).
    - intros Heq. by inversion Heq; subst.
    - intros Heq. by apply readTimeStamp_sink in Heq as ((_ & _ & Ht & _) & _). }
  destruct (if hasNoTimestamp desc then _ else _) as [[l2 p2]|]; [|discriminate].
  specialize (Hpre l2 p2 eq_refl). simpl in H.
  unfold addRow in H. destruct (addRow_err _ _); simpl in H; inversion H; subst; clear H;
    [|done].
  rewrite <- Hpre. unfold fatal, endTransaction. simpl.
  by destruct (endTransaction_err _).
Qed.

(** X24: a complete record gives one row.  Let the registry hold a
    descriptor, with a format that is not empty, for the type of a record
    that lies in the buffer in full, let every field of the record decode,
    and let the sink take every row.  Then the pass ends normally with the
    record taken from the buffer and exactly one more row in the sink.  The
    row has the name of the descriptor and the active time label; for a
    descriptor with a time field it has the decoded fields under the labels
    of the descriptor, with at most the time replaced, and otherwise the
    decoded fields behind the last valid timestamp.  The message counter
    and the count of valid rows grow by one. *)
Theorem complete_record_gives_one_row id d p vals rest :
  (forall m r, addRow_err m r = None) ->
  Inv p ->
  m_typeToDescriptorMap p !! id = Some d ->
  id <> s_FMTMessageType ->
  m_format d <> ""%string ->
  m_length d - s_HeaderOffset <= size (m_dataBlock p) - m_dataPos p ->
  decodeValues (list_ascii_of_string (m_format d))
    (mid (m_dataBlock p) (m_dataPos p) (m_length d - s_HeaderOffset)) = Some (vals, rest) ->
  exists p' r,
    dataBranch d p = Some (Continue p')
    /\ dm_rows (m_dataModel p') = dm_rows (m_dataModel p) ++ [r]
    /\ dm_types (m_dataModel p') = dm_types (m_dataModel p)
    /\ row_type r = m_name d
    /\ row_timeLabel r = ts_name (m_activeTimestamp p)
    /\ (if m_hasTimeStamp d
        then (row_values r).*1 = m_labels d
             /\ forall i, i <> Z.to_nat (m_timeStampIndex d) ->
                  row_values r !! i = labelled d 0 vals !! i
        else row_values r =
             (ts_name (m_activeTimestamp p), VUInt (m_lastValidTimeStamp p))
             :: labelled d 0 vals)
    /\ m_MessageCounter p' = m_MessageCounter p + 1
    /\ validData (m_logLoadingState p') = validData (m_logLoadingState p) + 1
    /\ m_dataPos p' = 0
    /\ m_dataBlock p' =
       drop (Z.to_nat (m_dataPos p + (m_length d - s_HeaderOffset))) (m_dataBlock p).
Proof.
  intros Hsink Hinv Hreg Hid Hfmt Hbuf Hvals.
  destruct (inv_registry p Hinv id d Hreg) as (Hkey & Hvalid & Hfin).
  pose proof (isValid_data d Hvalid ltac:(congruence)) as Hsize.
  unfold qsize, lsize in Hsize.
  pose proof (decodeValues_length _ _ _ _ Hvals) as Hlen.
  rewrite length_list_ascii_of_string in Hlen.
  assert (Hpos : (0 < String.length (m_format d))%nat).
  { destruct (m_format d); [done|simpl; lia]. }
  destruct (dataBranch_defined id d p Hinv Hreg Hid) as [f Hf].
  pose proof (accounts_dataBranch _ _ _ Hf) as [Hcount Hvalidrows _ _ _ _ _ _ _ _].
  pose proof (dataBranch_buffer _ _ _ Hf) as Hb.
  pose proof Hf as Hf0. unfold dataBranch in Hf.
  destruct (parseDataByDescriptor_full [] d p Hbuf) as (l1 & st & Hfull & Hdec).
  rewrite <- (app_nil_r (list_ascii_of_string (m_format d))) in Hdec.
  rewrite (decodeFields_values d _ 0 _ [] p [] vals rest Hvals) in Hdec.
  simpl in Hdec. assert (l1 = labelled d 0 vals) as -> by congruence.
  assert (with_logLoadingState st p = p) as Hst by congruence.
  rewrite Hfull, Hst in Hf.
  match type of Hf with
  | context [storeNameValuePairList _ d ?q] => set (q0 := q) in *
  end.
  assert (Hq0 : m_activeTimestamp q0 = m_activeTimestamp p
                /\ m_lastValidTimeStamp q0 = m_lastValidTimeStamp p
                /\ m_dataModel q0 = m_dataModel p) by done.
  clearbody q0. destruct Hq0 as (Ha0 & Hl0 & Hm0).
  rewrite decide_True in Hf by (unfold lsize; rewrite length_labelled; lia).
  destruct (storeNameValuePairList (labelled d 0 vals) d q0) as [[[stored l2] p2]|] eqn:E;
    [|discriminate].
  pose proof (storeNameValuePairList_types _ _ _ _ _ _ E) as Ht2.
  apply (storeNameValuePairList_accepted _ _ _ _ _ _ Hsink) in E as (-> & Hrows & Hl2).
  simpl in Hf. rewrite Ha0, Hm0 in Hrows. rewrite Hm0 in Ht2.
  assert (exists p', f = Continue p'
                     /\ dm_rows (m_dataModel p') = dm_rows (m_dataModel p2)
                     /\ dm_types (m_dataModel p') = dm_types (m_dataModel p2))
    as (p' & -> & Hr' & Ht').
  { destruct (decide _).
    - destruct (detectMavType l2 p2) as [p3|] eqn:E3; [|discriminate].
      apply sameSink_detectMavType in E3 as (_ & _ & Ht3 & Hr3).
      inversion Hf; subst. eauto.
    - inversion Hf; subst. eauto. }
  simpl in Hcount, Hvalidrows, Hb. destruct Hb as (_ & Hbp & Hbb).
  rewrite Hr', Hrows in Hcount, Hvalidrows. rewrite Ht', Ht2 in Hcount.
  unfold lsize in Hcount, Hvalidrows. rewrite length_app in Hcount, Hvalidrows.
  simpl in Hcount, Hvalidrows.
  eexists p', _. split_and!; [exact Hf0|by rewrite Hr', Hrows|by rewrite Ht', Ht2|done|done|
                              |lia|lia|done|done].
  simpl. unfold hasNoTimestamp in Hl2. destruct (m_hasTimeStamp d); simpl in Hl2.
  - destruct Hl2 as [Hlab Hother]. split; [|done].
    rewrite Hlab, labelled_fst by lia.
    replace (length vals) with (length (m_labels d)) by lia. simpl. apply firstn_all.
  - by rewrite Hl2, Ha0, Hl0.
Qed.

(** *** The FMT record *)

Lemma append_cons a s t : String a s +:+ t = String a (s +:+ t).
Proof. reflexivity. Qed.

Lemma append_String_assoc cur c s : (cur +:+ String c "") +:+ s = cur +:+ String c s.
Proof.
  induction cur as [|a cur IH]; [reflexivity|]. rewrite !append_cons. by f_equal.
Qed.

Lemma append_empty_r s : s +:+ "" = s.
Proof. induction s as [|a s IH]; [reflexivity|]. rewrite append_cons. by f_equal. Qed.

Lemma split_aux_segment s : forall cur rest,
  (","%char ∉ list_ascii_of_string s) ->
  split_aux cur (s +:+ rest) = split_aux (cur +:+ s) rest.
Proof.
  induction s as [|c s IH]; intros cur rest Hn.
  - by rewrite append_empty_r.
  - rewrite append_cons. cbn [split_aux]. simpl in Hn. apply not_elem_of_cons in Hn as [Hc Hs].
    rewrite (proj2 (Ascii.eqb_neq c ",")) by (intros ->; by apply Hc).
    rewrite IH by done. by rewrite append_String_assoc.
Qed.

(** Splitting at the commas undoes joining with commas. *)
Lemma split_concat labels : forall cur,
  Forall (fun l => ","%char ∉ list_ascii_of_string l) labels ->
  split_aux cur (String.concat "," labels) =
  match labels with
  | [] => [cur]
  | first :: others => (cur +:+ first) :: others
  end.
Proof.
  induction labels as [|x xs IH]; intros cur Hall; [done|].
  apply Forall_cons in Hall as [Hx Hxs].
  destruct xs as [|y ys].
  - cbn [String.concat]. rewrite <- (append_empty_r x) at 1.
    by rewrite split_aux_segment.
  - change (String.concat "," (x :: y :: ys))
      with (x +:+ String "," (String.concat "," (y :: ys))).
    rewrite split_aux_segment by done. cbn [split_aux].
    change (Ascii.eqb "," ",") with true. cbv iota.
    by rewrite (IH "" Hxs).
Qed.

Lemma untilNul_take_padded bs : forall n m,
  (length bs <= n)%nat -> (x00 ∉ bs) ->
  untilNul (take n (bs ++ repeat x00 m)) = bs.
Proof.
  induction bs as [|b bs IH]; intros n m Hlen Hn; simpl.
  - destruct n, m; done.
  - apply not_elem_of_cons in Hn as [Hb Hbs].
    destruct n as [|n]; [simpl in Hlen; lia|]. simpl.
    destruct (Byte.eqb b x00) eqn:E.
    + apply Byte.byte_dec_bl in E. congruence.
    + f_equal. apply IH; [simpl in Hlen; lia|done].
Qed.

Lemma length_list_byte_of_string s : length (list_byte_of_string s) = String.length s.
Proof.
  unfold list_byte_of_string. by rewrite List.length_map, length_list_ascii_of_string.
Qed.

Lemma toQString_pad n s :
  (String.length s <= n)%nat -> (x00 ∉ list_byte_of_string s) -> toQString (pad n s) = s.
Proof.
  intros Hlen Hn. unfold toQString, pad.
  rewrite untilNul_take_padded; [apply string_of_list_byte_of_string| |done].
  by rewrite length_list_byte_of_string.
Qed.

Lemma length_pad n s : length (pad n s) = n.
Proof. unfold pad. rewrite length_take, length_app, repeat_length. lia. Qed.

Lemma mid_middle before a after :
  mid (before ++ a ++ after) (size before) (size a) = a.
Proof.
  unfold mid, size. rewrite decide_False by lia. rewrite !Nat2Z.id.
  by rewrite drop_app_length, take_app_length.
Qed.

Lemma at_middle before b after : at_ (before ++ b :: after) (size before) = Some b.
Proof.
  unfold at_, size. rewrite decide_True by lia. rewrite Nat2Z.id.
  by rewrite list_lookup_middle.
Qed.

(** X22: reading an FMT record gives back what was written.  Let the
    buffer hold, behind the three header bytes, the id and the length of a
    type, its name in 4 bytes, its format in 16 and its labels, joined with
    commas, in 64, each padded with zero bytes, and enough bytes for a record
    of the described length.  When the texts fit their fields and hold no
    zero byte, the labels hold no comma and the joined labels are not empty,
    [parseFMTMessage] yields the descriptor with exactly that id, length,
    name, format and list of labels, without a time flag, and leaves in the
    buffer what follows the record. *)
Theorem fmt_record_round_trip before id len name format labels after p :
  m_dataBlock p =
    before ++ fmtRecord id len name format (String.concat "," labels) ++ after ->
  m_dataPos p = size before + 3 ->
  u8 len <= 89 + size after ->
  (String.length name <= 4)%nat ->
  (String.length format <= 16)%nat ->
  (String.length (String.concat "," labels) <= 64)%nat ->
  (x00 ∉ list_byte_of_string name) ->
  (x00 ∉ list_byte_of_string format) ->
  (x00 ∉ list_byte_of_string (String.concat "," labels)) ->
  String.concat "," labels <> ""%string ->
  Forall (fun l => ","%char ∉ list_ascii_of_string l) labels ->
  parseFMTMessage newDescriptor p
  = Some (true,
          {| m_ID := u8 id; m_length := u8 len; m_name := name; m_format := format;
             m_labels := labels; m_hasTimeStamp := false; m_timeStampIndex := 0 |},
          with_dataPos 0 (with_dataBlock after p)).
Proof.
  intros Hblock Hpos Hlen Hn Hf Hl Hn0 Hf0 Hl0 Hne Hcomma.
  set (joined := String.concat "," labels) in *.
  set (A := pad 4 name). set (B := pad 16 format). set (C := pad 64 joined).
  assert (HA : size A = 4) by (unfold size, A; by rewrite length_pad).
  assert (HB : size B = 16) by (unfold size, B; by rewrite length_pad).
  assert (HC : size C = 64) by (unfold size, C; by rewrite length_pad).
  set (h3 := before ++ [xa3; x95; x80]).
  assert (Hh3 : size h3 = size before + 3).
  { unfold h3, size. rewrite length_app. simpl. lia. }
  assert (Hb1 : m_dataBlock p = h3 ++ id :: (len :: A ++ B ++ C ++ after)).
  { rewrite Hblock. unfold h3, fmtRecord. fold A B C. by rewrite <- !app_assoc. }
  assert (Hb2 : m_dataBlock p = (h3 ++ [id]) ++ len :: (A ++ B ++ C ++ after)).
  { rewrite Hb1. by rewrite <- app_assoc. }
  assert (Hb3 : m_dataBlock p = (h3 ++ [id; len]) ++ A ++ (B ++ C ++ after)).
  { rewrite Hb1. by rewrite <- app_assoc. }
  assert (Hb4 : m_dataBlock p = (h3 ++ [id; len] ++ A) ++ B ++ (C ++ after)).
  { rewrite Hb1. by rewrite <- !app_assoc. }
  assert (Hb5 : m_dataBlock p = (h3 ++ [id; len] ++ A ++ B) ++ C ++ after).
  { rewrite Hb1. by rewrite <- !app_assoc. }
  assert (Hb6 : m_dataBlock p = (h3 ++ [id; len] ++ A ++ B ++ C) ++ after).
  { rewrite Hb1. by rewrite <- !app_assoc. }
  assert (Hs2 : size (h3 ++ [id]) = m_dataPos p + 1).
  { rewrite size_app, Hh3, Hpos. done. }
  assert (Hs3 : size (h3 ++ [id; len]) = m_dataPos p + 2).
  { rewrite size_app, Hh3, Hpos. done. }
  assert (Hs4 : size (h3 ++ [id; len] ++ A) = m_dataPos p + 2 + s_FMTNameSize).
  { rewrite !size_app, Hh3, HA, Hpos. unfold s_FMTNameSize. change (size [id; len]) with 2. lia. }
  assert (Hs5 : size (h3 ++ [id; len] ++ A ++ B)
                = m_dataPos p + 2 + s_FMTNameSize + s_FMTFormatSize).
  { rewrite !size_app, Hh3, HA, HB, Hpos. unfold s_FMTNameSize, s_FMTFormatSize.
    change (size [id; len]) with 2. lia. }
  assert (Hs6 : size (h3 ++ [id; len] ++ A ++ B ++ C)
                = m_dataPos p + 2 + s_FMTNameSize + s_FMTFormatSize + s_FMTLabelsSize).
  { rewrite !size_app, Hh3, HA, HB, HC, Hpos.
    unfold s_FMTNameSize, s_FMTFormatSize, s_FMTLabelsSize.
    change (size [id; len]) with 2. lia. }
  assert (Hsize : size (m_dataBlock p) = m_dataPos p + 86 + size after).
  { rewrite Hb6, size_app, Hs6. unfold s_FMTNameSize, s_FMTFormatSize, s_FMTLabelsSize. lia. }
  unfold parseFMTMessage.
  assert (at_ (m_dataBlock p) (m_dataPos p) = Some id) as ->.
  { rewrite Hb1 at 1. rewrite Hpos, <- Hh3. apply at_middle. }
  assert (at_ (m_dataBlock p) (m_dataPos p + 1) = Some len) as ->.
  { rewrite Hb2 at 1. rewrite <- Hs2. apply at_middle. }
  cbn [mbind option_bind with_dataPos m_dataBlock m_dataPos].
  rewrite decide_False by (unfold s_HeaderOffset; lia).
  assert (mid (m_dataBlock p) (m_dataPos p + 2) s_FMTNameSize = A) as ->.
  { rewrite Hb3 at 1. rewrite <- Hs3. unfold s_FMTNameSize. rewrite <- HA. apply mid_middle. }
  assert (mid (m_dataBlock p) (m_dataPos p + 2 + s_FMTNameSize) s_FMTFormatSize = B) as ->.
  { rewrite Hb4 at 1. rewrite <- Hs4. unfold s_FMTFormatSize. rewrite <- HB. apply mid_middle. }
  assert (mid (m_dataBlock p) (m_dataPos p + 2 + s_FMTNameSize + s_FMTFormatSize)
            s_FMTLabelsSize = C) as ->.
  { rewrite Hb5 at 1. rewrite <- Hs5. unfold s_FMTLabelsSize. rewrite <- HC. apply mid_middle. }
  assert (remove0 (m_dataBlock p)
            (m_dataPos p + 2 + s_FMTNameSize + s_FMTFormatSize + s_FMTLabelsSize) = after)
    as ->.
  { rewrite Hb6 at 1. rewrite <- Hs6. unfold remove0, size. rewrite Nat2Z.id.
    apply drop_app_length. }
  unfold A, B, C. rewrite !toQString_pad by done.
  rewrite decide_True.
  - unfold split, joined. rewrite split_concat by done.
    destruct labels as [|first others]; [by destruct Hne|]. done.
  - unfold qsize. destruct joined; [done|simpl; lia].
Qed.

(** *** Stopping *)

(** X23: a stopped parser reads nothing, and stays stopped.  After
    [stopParsing] a run of [parse] makes no progress call, leaves the buffer,
    the cursor, the registry, the queue of deferred descriptors, the active
    timestamp, the content of the sink and the incidents as they are, and
    ends with the stop flag still set; the record loop of a stopped parser
    leaves at once, whatever the buffer holds. *)
Theorem stopped_parser_reads_nothing :
  (forall chunks p e p',
     parse chunks (stopParsing p) = Done e p' ->
     m_stop p' = true
     /\ cb_progress (m_callbackObject p') = cb_progress (m_callbackObject p)
     /\ m_dataBlock p' = m_dataBlock p
     /\ m_dataPos p' = m_dataPos p
     /\ m_typeToDescriptorMap p' = m_typeToDescriptorMap p
     /\ m_descriptorForDeferredStorage p' = m_descriptorForDeferredStorage p
     /\ m_activeTimestamp p' = m_activeTimestamp p
     /\ dm_types (m_dataModel p') = dm_types (m_dataModel p)
     /\ dm_rows (m_dataModel p') = dm_rows (m_dataModel p)
     /\ incidents (m_logLoadingState p') = incidents (m_logLoadingState p))
  /\ (forall fuel p, m_stop p = true -> recordLoop fuel p = Done GuardFalse p).
Proof.
  split.
  - intros chunks p e p' H. apply parse_Done in H. unfold startTransaction in H.
    destruct H as [(_ & _ & ->)|(_ & H)]; [by split_and!|].
    destruct H as [(err & Herr & _ & ->)|(Hok & e1 & p1 & Hloop & H)].
    + rewrite Herr. by split_and!.
    + rewrite Hok in Hloop. simpl in Hloop.
      assert (p1 = with_noMessageBytes 0
                     (with_dataModel
                        {| dm_types := dm_types (m_dataModel p);
                           dm_rows := dm_rows (m_dataModel p);
                           dm_started := S (dm_started (m_dataModel p));
                           dm_ended := dm_ended (m_dataModel p);
                           dm_allRowsHaveTime := dm_allRowsHaveTime (m_dataModel p);
                           dm_error := dm_error (m_dataModel p) |}
                        (stopParsing p)) /\ e1 = GuardFalse) as [-> ->].
      { destruct chunks; cbn [readLoop] in Hloop; simpl in Hloop;
          inversion Hloop; by subst. }
      destruct H as [(? & _)|(_ & H)]; [done|].
      unfold endTransaction in H. simpl in H.
      destruct (endTransaction_err _); destruct H as [_ ->]; by split_and!.
  - intros fuel p Hstop. destruct fuel; simpl; unfold recordGuard; rewrite Hstop;
      by rewrite andb_false_r.
Qed.

(** *** Resynchronisation and runs without a timestamp *)

Lemma skipByte_iter k : forall p,
  m_dataPos (Nat.iter k skipByte p) = m_dataPos p + Z.of_nat k
  /\ noMessageBytes (Nat.iter k skipByte p) = Nat.iter k int_incr (noMessageBytes p)
  /\ m_dataBlock (Nat.iter k skipByte p) = m_dataBlock p
  /\ m_stop (Nat.iter k skipByte p) = m_stop p
  /\ sameSink p (Nat.iter k skipByte p).
Proof.
  induction k as [|k IH]; intros p.
  - simpl. split_and!; try lia; try done.
  - rewrite Nat.iter_succ.
    destruct (IH p) as (Hp & Hn & Hb & Hs & Hr & Ha & Ht & Hw). simpl.
    split_and!; try done; [lia|by rewrite Hn].
Qed.

(** X25: bytes in front of a record that hold no first start byte are
    skipped one by one.  When the [k] bytes at the cursor are all different
    from 0xA3, the parser is not stopped and more than [s_MinHeaderSize]
    bytes lie behind each of them, the record loop passes them in [k]
    steps: every byte is counted once as a non-message byte, which adds
    [k] to the count unless the [int] overflows, the cursor stands behind
    them, and the buffer, the registry and the sink are as they were; the
    loop then goes on from there. *)
Theorem bytes_without_start_byte_are_skipped_one_by_one k : forall fuel p,
  0 <= m_dataPos p ->
  m_stop p = false ->
  size (m_dataBlock p) - (m_dataPos p + Z.of_nat k) >= s_MinHeaderSize ->
  (forall i, (i < k)%nat ->
     exists b, m_dataBlock p !! (Z.to_nat (m_dataPos p) + i)%nat = Some b
               /\ u8 b <> s_StartByte1) ->
  recordLoop (k + fuel) p = recordLoop fuel (Nat.iter k skipByte p)
  /\ m_dataPos (Nat.iter k skipByte p) = m_dataPos p + Z.of_nat k
  /\ noMessageBytes (Nat.iter k skipByte p) = Nat.iter k int_incr (noMessageBytes p)
  /\ (INT_MIN <= noMessageBytes p -> noMessageBytes p + Z.of_nat k <= INT_MAX ->
      noMessageBytes (Nat.iter k skipByte p) = noMessageBytes p + Z.of_nat k)
  /\ m_dataBlock (Nat.iter k skipByte p) = m_dataBlock p
  /\ sameSink p (Nat.iter k skipByte p).
Proof.
  induction k as [|k IH]; intros fuel p Hpos Hstop Hsize Hbytes.
  - simpl. split_and!; try done; lia.
  - destruct (skipByte_iter (S k) p) as (Hp & Hn & Hb & _ & Hsame).
    split_and!; try done;
      [|intros Hlo Hhi; rewrite Hn; by apply iter_int_incr_small].
    assert (Hstep : parseBody p = Some (Continue (skipByte p))).
    { destruct (Hbytes O ltac:(lia)) as (b & Hlook & Hne).
      unfold parseBody, headerIsValid, at_.
      destruct (decide (0 <= m_dataPos p)); [|lia].
      rewrite Nat.add_0_r in Hlook. rewrite Hlook. simpl.
      by destruct (decide (u8 b = s_StartByte1)). }
    assert (Hguard : recordGuard p = true).
    { unfold recordGuard. rewrite Hstop, andb_true_r. apply bool_decide_eq_true. lia. }
    change (S k + fuel)%nat with (S (k + fuel)). cbn [recordLoop].
    rewrite Hguard, Hstep.
    destruct (IH fuel (skipByte p)) as (Hrec & _).
    + simpl. lia.
    + done.
    + simpl. lia.
    + intros i Hi. destruct (Hbytes (S i) ltac:(lia)) as (b & Hlook & Hne).
      exists b. split; [|done]. simpl.
      replace (Z.to_nat (m_dataPos p + 1) + i)%nat with (Z.to_nat (m_dataPos p) + S i)%nat
        by lia. done.
    + rewrite Hrec. by rewrite Nat.iter_succ_r.
Qed.

(** X26: without a timestamp convention nothing reaches the sink.  When a
    run of [parse] on a parser whose sink agrees with its registry, as for a
    new parser, ends with no active timestamp, the registry is empty, the
    sink holds no type and no row, and the message counter and the count of
    valid rows are what they were: every descriptor that was read is still
    waiting in the queue, and every data record was dropped. *)
Theorem without_a_timestamp_nothing_reaches_the_sink chunks p e p' :
  Inv p -> SinkInv p -> Complete p ->
  parse chunks p = Done e p' ->
  ts_valid (m_activeTimestamp p') = false ->
  m_typeToDescriptorMap p' = ∅
  /\ dm_types (m_dataModel p') = []
  /\ dm_rows (m_dataModel p') = []
  /\ m_MessageCounter p' = m_MessageCounter p
  /\ validData (m_logLoadingState p') = validData (m_logLoadingState p)
  /\ Forall (fun d => m_hasTimeStamp d = false
                      /\ findTimestamp (m_possibleTimestamps p') (m_labels d) = None)
       (m_descriptorForDeferredStorage p').
Proof.
  intros Hinv Hs Hc H Hv.
  pose proof (Inv_parse _ _ _ _ Hinv H) as Hinv'.
  destruct (SinkInv_parse _ _ _ _ Hinv Hs Hc H) as [Hs' _].
  destruct (SinkInv_pending _ Hinv' Hs' Hv) as [Ht Hr].
  pose proof (inv_pending p' Hinv') as Hp. rewrite Hv in Hp. destruct Hp as [Hq Hreg].
  pose proof (extends_parse _ _ _ _ H) as Hext.
  pose proof (accounts_parse _ _ _ _ H) as Hacc.
  assert (Hr0 : dm_rows (m_dataModel p) = []).
  { pose proof (ext_rows _ _ Hext) as Hpre. rewrite Hr in Hpre. by apply prefix_nil_inv. }
  assert (Ht0 : dm_types (m_dataModel p) = []).
  { pose proof (ext_types _ _ Hext) as Hpre. rewrite Ht in Hpre. by apply prefix_nil_inv. }
  destruct Hacc as [Hcount Hvalid _ _ _ _ _ _ _ _].
  rewrite Hr, Ht, Hr0, Ht0 in Hcount. rewrite Hr, Hr0 in Hvalid.
  unfold lsize in *. simpl in *.
  split_and!; try done; try lia.
  eapply Forall_impl; [exact Hq|]. intros d [Hf Hflag]. done.
Qed.

End Parser.

(** ** The properties on sample streams *)

(** C3 does not hold as the specification has it: the record with the NaN
    float leaves two CorruptData incidents in the Status, not one. *)
Lemma nan_record_two_incidents :
  exists p',
    parseBody sampleSTRT sinkAccepts sinkAcceptsType sinkAcceptsRow noConversion parserNaN
      = Some (Continue p')
    /\ dm_rows (m_dataModel p') = []
    /\ incidents (m_logLoadingState p') =
       [CorruptData 0 (MsgCorruptElement "ATT"); CorruptData 0 MsgNoValues]
    /\ length (filter (fun i => isCorruptData i = true) (incidents (m_logLoadingState p')))
       = 2%nat.
Proof.
  eexists. split; [vm_compute; reflexivity|]. vm_compute. auto.
Qed.

Lemma nan_record_is_discarded_witness :
  fst (parseDataByDescriptor [] descATT parserNaNBody) = (true, [])
  /\ exists p',
      dataBranch sinkAccepts sinkAcceptsRow noConversion descATT parserNaNBody
        = Some (Continue p')
      /\ m_dataModel p' = m_dataModel parserNaNBody
      /\ validData (m_logLoadingState p') = validData (m_logLoadingState parserNaNBody)
      /\ incidents (m_logLoadingState p') =
         incidents (m_logLoadingState parserNaNBody)
         ++ [CorruptData (to_int (m_MessageCounter parserNaNBody))
               (MsgCorruptElement (m_name descATT));
             CorruptData (to_int (m_MessageCounter parserNaNBody)) MsgNoValues]
      /\ m_dataBlock p' =
         drop (Z.to_nat (m_dataPos parserNaNBody + (m_length descATT - s_HeaderOffset)))
           (m_dataBlock parserNaNBody)
      /\ m_dataPos p' = 0.
Proof.
  apply (nan_record_is_discarded sinkAccepts sinkAcceptsRow noConversion
           descATT parserNaNBody ["Q"%char] [] [VUInt 1000000] [x00; x00; xc0; x7f]).
  - vm_compute. discriminate.
  - reflexivity.
  - reflexivity.
  - reflexivity.
Defined.

Lemma parseDataByDescriptor_consumes_body_witness :
  exists l' p',
    parseDataByDescriptor [] descATT parserNaNBody = (true, l', p')
    /\ m_dataPos p' = 0
    /\ m_dataBlock p' =
       drop (Z.to_nat (m_dataPos parserNaNBody + (m_length descATT - s_HeaderOffset)))
         (m_dataBlock parserNaNBody)
    /\ size (m_dataBlock p') - m_dataPos p' =
       size (m_dataBlock parserNaNBody) - m_dataPos parserNaNBody
       - (m_length descATT - s_HeaderOffset).
Proof.
  destruct (parseDataByDescriptor_consumes_body [] descATT parserNaNBody)
    as (l' & p' & H1 & H2 & H3 & H4 & _).
  - vm_compute. discriminate.
  - vm_compute. discriminate.
  - vm_compute. discriminate.
  - exists l', p'. split; [exact H1|]. split; [exact H2|]. split; [exact H3|exact H4].
Defined.

(** C1, on a failing input.  The log [logBoundary] holds the FMT records
    of TEST and PING, 2001 PING records, the FMT record of PARM and one
    PARM record; its first block of 8192 bytes ends 10 bytes into the FMT
    record of PARM ([blocksOf] gives the two blocks).  There
    [parseFMTMessage] returns false with the cursor 5 bytes behind the
    start of the header.  With [s_MinHeaderSize] 3, as
    the specification has it, or 4, the refill keeps fewer bytes than that
    before the cursor: the start bytes are dropped, the buffer resumes
    inside the header, the descriptor is lost and with it the PARM record,
    which the log read in one piece yields as its last row.  The same
    happens to the short sample [streamPARM] cut after 15 bytes.  A data
    record cut by the end of a block is read again from its header and is
    not lost with 3.  With [s_MinHeaderSize] 5 the FMT record is read
    again, but a data record behind three stray bytes is read again from 2
    bytes before its header, which here shows a header of type 163 and
    hides the record. *)
Theorem short_read_loses_the_record :
  let rowPARM :=
    {| row_type := "PARM";
       row_values := [("TimeUS", VUInt 1); ("Name", VString "RATE_RLL_P");
                      ("Value", VFloat 1065353216)]%string;
       row_timeLabel := "TimeUS" |} in
  let rowPING :=
    {| row_type := "PING";
       row_values := [("TimeUS", VUInt 0); ("SEQ", VUInt 7)]%string;
       row_timeLabel := "TimeUS" |} in
  let rows := fun o => (dm_rows ∘ m_dataModel) <$> finalState o in
  let types := fun o => (map sk_name ∘ dm_types ∘ m_dataModel) <$> finalState o in
  let diagnostics := fun o => (incidents ∘ m_logLoadingState) <$> finalState o in
  let outcome := fun o =>
    (fun p => (map sk_name (dm_types (m_dataModel p)), length (dm_rows (m_dataModel p)),
               last (dm_rows (m_dataModel p)), incidents (m_logLoadingState p)))
    <$> finalState o in
  let run := fun minHeaderSize chunks =>
    parse minHeaderSize sampleSTRT sinkAccepts sinkAccepts sinkAcceptsType sinkAcceptsRow
      noConversion chunks newParser in
  (size logBoundary = 8302
   /\ blocksOf logBoundary
      = [take (Z.to_nat 8192) logBoundary; drop (Z.to_nat 8192) logBoundary]
   /\ drop (Z.to_nat 8182) (take (Z.to_nat 8192) logBoundary) = take 10 fmtPARM
   /\ outcome (run 3 [logBoundary])
      = Some (["TEST"; "PING"; "PARM"]%string, 2002%nat, Some rowPARM, [])
   /\ outcome (run 3 (blocksOf logBoundary))
      = Some (["TEST"; "PING"]%string, 2001%nat, Some rowPING,
              [CorruptData 2003 (MsgNoDescriptor 133)]))
  /\ (forall minHeaderSize, minHeaderSize = 3 \/ minHeaderSize = 4 \/ minHeaderSize = 5 ->
        rows (run minHeaderSize [streamPARM]) = Some [rowPARM]
        /\ types (run minHeaderSize [streamPARM]) = Some ["PARM"; "PING"]%string)
  /\ (exists p',
        parseBody sampleSTRT sinkAccepts sinkAcceptsType sinkAcceptsRow noConversion
          (with_dataBlock (take 15 streamPARM) newParser) = Some (Break p')
        /\ m_dataPos p' = 5
        /\ m_dataBlock (refill 3 (drop 15 streamPARM) p') = drop 2 streamPARM
        /\ m_dataBlock (refill 4 (drop 15 streamPARM) p') = drop 1 streamPARM
        /\ m_dataBlock (refill 5 (drop 15 streamPARM) p') = streamPARM)
  /\ (forall minHeaderSize, minHeaderSize = 3 \/ minHeaderSize = 4 ->
        rows (run minHeaderSize [take 15 streamPARM; drop 15 streamPARM]) = Some []
        /\ types (run minHeaderSize [take 15 streamPARM; drop 15 streamPARM]) = Some []
        /\ diagnostics (run minHeaderSize [take 15 streamPARM; drop 15 streamPARM])
           = Some [CorruptData 0 (MsgNoDescriptor 133)])
  /\ rows (run 3 [fmtPARM ++ fmtPING ++ take 10 dataPARM; drop 10 dataPARM])
     = Some [rowPARM]
  /\ rows (run 5 [take 15 streamPARM; drop 15 streamPARM]) = Some [rowPARM]
  /\ rows (run 5 [fmtPARM ++ fmtPING ++ [xa3; xa3; x95] ++ dataPARM]) = Some [rowPARM]
  /\ rows (run 5 [fmtPARM ++ fmtPING ++ [xa3; xa3; x95] ++ take 6 dataPARM;
                  drop 6 dataPARM]) = Some []
  /\ diagnostics (run 5 [fmtPARM ++ fmtPING ++ [xa3; xa3; x95] ++ take 6 dataPARM;
                         drop 6 dataPARM])
     = Some [CorruptData 2 (MsgNoDescriptor 163)].
Proof.
  cbv zeta. split_and!.
  - vm_compute; reflexivity.
  - vm_compute; reflexivity.
  - vm_compute; reflexivity.
  - vm_compute; reflexivity.
  - vm_compute; reflexivity.
  - intros minHeaderSize [-> | [-> | ->]]; split; vm_compute; reflexivity.
  - eexists. split; [vm_compute; reflexivity|]. split; [reflexivity|].
    split_and!; vm_compute; reflexivity.
  - intros minHeaderSize [-> | ->]; split_and!; vm_compute; reflexivity.
  - vm_compute; reflexivity.
  - vm_compute; reflexivity.
  - vm_compute; reflexivity.
  - vm_compute; reflexivity.
  - vm_compute; reflexivity.
Qed.

Lemma short_read_then_refill_witness :
  let p' := with_messageType 130 (with_dataPos 4 parserShortData) in
  let consumed := if decide (m_messageType p' = s_FMTMessageType) then 5 else 3 in
  p' = with_messageType (m_messageType p')
         (with_dataPos (m_dataPos (with_dataPos 1 parserShortData) + consumed)
            (with_dataPos 1 parserShortData))
  /\ 0 <= m_dataPos (with_dataPos 1 parserShortData)
  /\ m_dataPos (refill 3 [x00] p') = 0
  /\ m_dataBlock (refill 3 [x00] p') =
     drop (Z.to_nat (m_dataPos (with_dataPos 1 parserShortData) + consumed - 3))
       (m_dataBlock (with_dataPos 1 parserShortData)) ++ [x00]
  /\ (consumed <= 3 ->
      exists k, (k <= Z.to_nat (m_dataPos (with_dataPos 1 parserShortData)))%nat
                /\ m_dataBlock (refill 3 [x00] p') =
                   drop k (m_dataBlock (with_dataPos 1 parserShortData)) ++ [x00])
  /\ (consumed = 3 ->
      m_dataBlock (refill 3 [x00] p') =
      drop (Z.to_nat (m_dataPos (with_dataPos 1 parserShortData)))
        (m_dataBlock (with_dataPos 1 parserShortData)) ++ [x00]).
Proof.
  apply (short_read_then_refill 3 sampleSTRT sinkAccepts sinkAcceptsType sinkAcceptsRow
           noConversion (with_dataPos 1 parserShortData)
           (with_messageType 130 (with_dataPos 4 parserShortData)) [x00]).
  vm_compute. reflexivity.
Defined.

(** C5, on a failing input.  When the first byte is 0xA3 and the second is
    not 0x95, [headerIsValid] has moved the cursor by two bytes when it
    returns false, and [parse] counts one non-message byte: after the two
    stray bytes 0xA3 0x00 the count is 1.  And a stray 0xA3 directly before
    a record hides the record: its first start byte is consumed as the
    second byte of the failed attempt.  The runs are the same for
    [s_MinHeaderSize] 3 and 5. *)
Theorem header_mismatch_on_second_byte :
  (exists p',
     headerIsValid parserGarbage = Some (false, p') /\ m_dataPos p' = 2)
  /\ (exists p',
        parseBody sampleSTRT sinkAccepts sinkAcceptsType sinkAcceptsRow noConversion
          parserGarbage = Some (Continue p')
        /\ m_dataPos p' = 2 /\ noMessageBytes p' = 1)
  /\ (forall minHeaderSize, minHeaderSize = 3 \/ minHeaderSize = 5 ->
        (statusNoMessageBytes ∘ m_logLoadingState) <$>
          finalState (parse minHeaderSize sampleSTRT sinkAccepts sinkAccepts sinkAcceptsType
                        sinkAcceptsRow noConversion [[xa3; x00] ++ fmtTEST] newParser)
        = Some 1
        /\ (map m_name ∘ m_descriptorForDeferredStorage) <$>
             finalState (parse minHeaderSize sampleSTRT sinkAccepts sinkAccepts
                           sinkAcceptsType sinkAcceptsRow noConversion
                           [[xa3; x00] ++ fmtTEST] newParser)
           = Some ["TEST"%string]
        /\ (map m_name ∘ m_descriptorForDeferredStorage) <$>
             finalState (parse minHeaderSize sampleSTRT sinkAccepts sinkAccepts
                           sinkAcceptsType sinkAcceptsRow noConversion
                           [[xa3] ++ fmtTEST] newParser)
           = Some []).
Proof.
  split; [eexists; split; vm_compute; reflexivity|].
  split; [eexists; split; [vm_compute; reflexivity|split; reflexivity]|].
  intros minHeaderSize [-> | ->]; (split; [vm_compute; reflexivity|]);
    split; vm_compute; reflexivity.
Qed.

(** C8 does not hold as the specification has it.  A stream that ends 15 bytes into the
    FMT record of the FMT type: the source is at its end, the stop flag is
    not set, ten bytes lie behind the cursor, which is more than
    [s_MinHeaderSize] (be it 3 or 5), and the loop has halted. *)
Lemma truncated_record_halts_with_bytes_left :
  (exists p',
     parse 3 sampleSTRT sinkAccepts sinkAccepts sinkAcceptsType sinkAcceptsRow noConversion
       [take 15 fmtFMT] newParser = Done GuardFalse p'
     /\ m_stop p' = false
     /\ size (m_dataBlock p') - m_dataPos p' = 10
     /\ ~ (size (m_dataBlock p') - m_dataPos p' < 3))
  /\ (exists p',
        parse 5 sampleSTRT sinkAccepts sinkAccepts sinkAcceptsType sinkAcceptsRow noConversion
          [take 15 fmtFMT] newParser = Done GuardFalse p'
        /\ m_stop p' = false
        /\ size (m_dataBlock p') - m_dataPos p' = 10
        /\ ~ (size (m_dataBlock p') - m_dataPos p' < 5)).
Proof.
  split; (eexists; split; [vm_compute; reflexivity|]);
    (split; [reflexivity|]); (split; [reflexivity|]); vm_compute; discriminate.
Qed.

(** C2 does not hold as the specification has it.  The FMT record of TEST is the first
    with a candidate label.  After it the active timestamp is set, and the
    registry and the sink are still empty: both descriptors wait in the
    queue.  When no FMT record follows, they wait for good: the record of
    type TEST behind the two FMT records finds no descriptor. *)
Lemma discovery_submits_nothing :
  exists p',
    parseBody sampleSTRT sinkAccepts sinkAcceptsType sinkAcceptsRow noConversion
      parserDiscovery = Some (Continue p')
    /\ m_activeTimestamp p' = timeUS
    /\ m_typeToDescriptorMap p' = ∅
    /\ dm_types (m_dataModel p') = []
    /\ map m_name (m_descriptorForDeferredStorage p') = ["FMT"; "TEST"]%string
    /\ (forall minHeaderSize, minHeaderSize = 3 \/ minHeaderSize = 5 ->
        (fun p => (map_to_list (m_typeToDescriptorMap p), dm_types (m_dataModel p),
                   dm_rows (m_dataModel p), incidents (m_logLoadingState p))) <$>
          finalState (parse minHeaderSize sampleSTRT sinkAccepts sinkAccepts sinkAcceptsType
                        sinkAcceptsRow noConversion [fmtFMT ++ fmtTEST ++ dataTEST]
                        newParser)
        = Some ([], [], [], [CorruptData 0 (MsgNoDescriptor 129)])).
Proof.
  eexists. split; [vm_compute; reflexivity|].
  split; [reflexivity|]. split; [reflexivity|]. split; [reflexivity|].
  split; [reflexivity|]. intros minHeaderSize [-> | ->]; vm_compute; reflexivity.
Qed.

Lemma deferred_flush_witness :
  let p1 := checkForValidTimestamp descTEST parserQueued in
  m_activeTimestamp p1 = timeUS
  /\ m_typeToDescriptorMap p1 = ∅
  /\ m_descriptorForDeferredStorage p1 = [descFMT; finalize timeUS descTEST]
  /\ (let flushed := extendedStoreDescriptor sampleSTRT sinkAccepts sinkAcceptsType
                       descPING p1 in
      fst flushed = true
      /\ map sk_name (dm_types (m_dataModel (snd flushed))) = ["TEST"; "PING"]%string
      /\ (fun id => m_name <$> m_typeToDescriptorMap (snd flushed) !! id) <$> [128; 129; 131]
         = [Some "FMT"; Some "TEST"; Some "PING"]%string)
  /\ (let flushed := extendedStoreDescriptor sampleSTRT sinkAccepts sinkRejectsType
                       descPING p1 in
      fst flushed = false
      /\ lsize (cb_errors (m_callbackObject parserQueued))
           < lsize (cb_errors (m_callbackObject (snd flushed)))
      /\ (dm_ended (m_dataModel parserQueued) < dm_ended (m_dataModel (snd flushed)))%nat
      /\ (fun id => m_name <$> m_typeToDescriptorMap (snd flushed) !! id) <$> [128; 129; 131]
         = [Some "FMT"; Some "TEST"; None]%string)
  /\ (exists p',
        parse 3 sampleSTRT sinkAccepts sinkAccepts sinkRejectsType sinkAcceptsRow
          noConversion [fmtFMT ++ fmtTEST ++ fmtPING ++ dataTEST] newParser = Done Fatal p'
        /\ cb_errors (m_callbackObject p') = ["full"%string]
        /\ dm_rows (m_dataModel p') = []
        /\ m_dataBlock p' = dataTEST).
Proof.
  assert (H1 : ts_valid (m_activeTimestamp parserQueued) = false) by reflexivity.
  assert (H2 : Forall (fun t => ts_valid t = true) (m_possibleTimestamps parserQueued)).
  { repeat constructor. }
  assert (H3 : Forall (fun d => findTimestamp (m_possibleTimestamps parserQueued) (m_labels d)
                                = None) (m_descriptorForDeferredStorage parserQueued)).
  { repeat constructor. }
  assert (H4 : findTimestamp (m_possibleTimestamps parserQueued) (m_labels descTEST)
               = Some timeUS) by reflexivity.
  destruct (deferred_flush 3 sampleSTRT sinkAccepts sinkAccepts sinkAcceptsType
              sinkAcceptsRow noConversion descTEST timeUS parserQueued H1 H2 H3 H4)
    as (Ha & _ & Hr & _ & Hq & _ & Hflush & _).
  destruct (deferred_flush 3 sampleSTRT sinkAccepts sinkAccepts sinkRejectsType
              sinkAcceptsRow noConversion descTEST timeUS parserQueued H1 H2 H3 H4)
    as (_ & _ & _ & _ & _ & _ & Hfail & _).
  cbv zeta. split; [exact Ha|]. split; [exact Hr|]. split; [exact Hq|]. split; [|split].
  - destruct (Hflush descPING) as (_ & _ & Hreg & (sub & _ & Hty & Hall) & _).
    split; [reflexivity|]. split.
    + rewrite Hty, (Hall eq_refl). reflexivity.
    + rewrite Hreg. vm_compute. reflexivity.
  - destruct (Hfail descPING) as (_ & _ & Hreg & _ & _ & Herr).
    split; [reflexivity|].
    split; [exact (proj1 Herr)|]. split; [exact (proj2 Herr)|].
    rewrite Hreg. vm_compute. reflexivity.
  - eexists. split; [vm_compute; reflexivity|]. by split_and!.
Defined.

(** C6 does not hold as the specification has it.  A type that names the
    time label twice is valid, and its rows are stored as they are
    decoded: the row of the sample record carries two fields with the
    label TimeUS. *)
Lemma doubled_time_label_gives_two_time_fields :
  exists p',
    parse 3 sampleSTRT sinkAccepts sinkAccepts sinkAcceptsType sinkAcceptsRow noConversion
      [fmtTWICE ++ fmtPING ++ dataTWICE] newParser = Done GuardFalse p'
    /\ dm_rows (m_dataModel p') =
       [ {| row_type := "TT";
            row_values := [("TimeUS", VUInt 5); ("TimeUS", VUInt 7)]%string;
            row_timeLabel := "TimeUS" |} ]
    /\ Forall (fun r =>
                length (filter (fun entry : NameValuePair => fst entry = row_timeLabel r)
                          (row_values r)) = 2%nat)
         (dm_rows (m_dataModel p'))
    /\ ~ Forall (fun r =>
                  length (filter (fun entry : NameValuePair => fst entry = row_timeLabel r)
                            (row_values r)) = 1%nat)
           (dm_rows (m_dataModel p')).
Proof.
  eexists. split; [vm_compute; reflexivity|]. split; [reflexivity|].
  split; [by repeat constructor|].
  intros H. apply Forall_cons in H as [H _]. vm_compute in H. discriminate.
Qed.

Lemma synthetic_timestamp_field_witness :
  (exists p',
     storeDescriptor sampleSTRT sinkAccepts sinkAcceptsType descPING parserActive = (true, p')
     /\ m_typeToDescriptorMap p' !! m_ID descPING = Some descPING
     /\ dm_types (m_dataModel p') =
        dm_types (m_dataModel parserActive)
        ++ [ {| sk_name := "PING"; sk_id := 131; sk_length := 4 + 8;
                sk_format := "QB"; sk_labels := ["TimeUS"; "SEQ"] |} ])
  /\ (exists q1 q2,
        parseDataByDescriptor [] descPING parserPINGBody = (true, [("SEQ"%string, VUInt 7)], q1)
        /\ storeNameValuePairList sinkAccepts sinkAcceptsRow noConversion
             [("SEQ"%string, VUInt 7)] descPING q1
           = Some (true, [("TimeUS", VUInt 0); ("SEQ", VUInt 7)]%string, q2)
        /\ dm_rows (m_dataModel q2) =
           [ {| row_type := "PING";
                row_values := [("TimeUS", VUInt 0); ("SEQ", VUInt 7)]%string;
                row_timeLabel := "TimeUS" |} ]).
Proof.
  assert (H1 : isValid sampleSTRT descPING = true) by reflexivity.
  assert (H2 : m_ID descPING <> s_FMTMessageType) by (vm_compute; discriminate).
  assert (H3 : m_typeToDescriptorMap parserActive !! m_ID descPING = None) by reflexivity.
  assert (H4 : m_hasTimeStamp descPING = false) by reflexivity.
  assert (H5 : ts_name (m_activeTimestamp parserActive) ∉ m_labels descPING).
  { apply not_elem_of_cons. split; [discriminate|apply not_elem_of_nil]. }
  destruct (synthetic_timestamp_field sampleSTRT sinkAccepts sinkAcceptsType sinkAcceptsRow
              noConversion descPING parserActive H1 H2 H3 H4 H5) as (_ & Hs & Hrow & _).
  split; [apply Hs; reflexivity|].
  destruct (Hrow parserPINGBody eq_refl ltac:(vm_compute; discriminate))
    as (l & q1 & Hp & _ & _ & Hok & _).
  destruct (Hok eq_refl) as (q2 & Hst & Hrows).
  assert (Hl : l = [("SEQ"%string, VUInt 7)]).
  { assert (Hfst : snd (fst (parseDataByDescriptor [] descPING parserPINGBody)) = l)
      by (by rewrite Hp).
    symmetry. exact Hfst. }
  subst l. exists q1, q2. split; [exact Hp|]. split; [exact Hst|exact Hrows].
Defined.

Lemma registry_storage_policy_witness :
  (m_typeToDescriptorMap
     (snd (storeDescriptor sampleSTRT sinkAccepts sinkAcceptsType descPING parserActive))
   = ({[ 131 := descPING ]} : gmap Z typeDescriptor))
  /\ storeDescriptor sampleSTRT sinkAccepts sinkAcceptsType descATT parserNaN
     = (true, corruptFMTRead (MsgDoubledEntry "ATT") parserNaN).
Proof.
  destruct (registry_storage_policy 3 sampleSTRT sinkAccepts sinkAccepts sinkAcceptsType
              sinkAcceptsRow noConversion) as (Hins & Hdup & _).
  split.
  - rewrite Hins. reflexivity.
  - destruct (Hdup descATT parserNaN descATT eq_refl) as (msg & Hs & Hm & _).
    rewrite Hs, (Hm eq_refl). reflexivity.
Defined.

Lemma detectMavType_falls_back_to_first_field_witness :
  exists p',
    detectMavType [("Value"%string, VString "RATE_RLL_P"); ("Default"%string, VUInt 0)]
      newParser = Some p'
    /\ m_loadedLogType p' = MAV_TYPE_QUADROTOR.
Proof.
  destruct (detectMavType_falls_back_to_first_field sinkAccepts sinkAcceptsRow noConversion)
    as [Hfirst _].
  destruct (Hfirst ("Value"%string, VString "RATE_RLL_P") [("Default"%string, VUInt 0)]
              newParser) as (p' & Hp & _ & Hq & _).
  - repeat constructor; discriminate.
  - exists p'. split; [exact Hp|]. apply Hq. left. reflexivity.
Defined.

Lemma timestamps_are_monotone_witness :
  exists p' r1 r2 t1 t2,
    parse 3 sampleSTRT sinkAccepts sinkAccepts sinkAcceptsType sinkAcceptsRow noConversion
      [streamBackwards] newParser = Done GuardFalse p'
    /\ dm_rows (m_dataModel p') = [r1; r2]
    /\ row_values r1 = [("X"%string, VUInt 42); ("TimeUS"%string, VUInt 1000000)]
    /\ row_values r2 = [("X"%string, VUInt 43); ("TimeUS"%string, VUInt 1000000)]
    /\ incidents (m_logLoadingState p') =
       [CorruptTime 3 (MsgTimeNotIncreasing 1000000 999999)]
    /\ rowTime noConversion r1 = Some t1 /\ rowTime noConversion r2 = Some t2 /\ t1 <= t2.
Proof.
  destruct (parse 3 sampleSTRT sinkAccepts sinkAccepts sinkAcceptsType sinkAcceptsRow
              noConversion [streamBackwards] newParser) as [e p'| |] eqn:E;
    [|vm_compute in E; discriminate..].
  destruct (timestamps_are_monotone 3 sampleSTRT sinkAccepts sinkAccepts sinkAcceptsType
              sinkAcceptsRow noConversion) as (_ & Hmono & Hnew).
  assert (E2 := E). vm_compute in E2. inversion E2; subst e p'; clear E2.
  eexists _, _, _.
  destruct (Hmono [streamBackwards] _ _ _ [] _ _ [] Hnew E eq_refl)
    as (t1 & t2 & H1 & H2 & Hle).
  exists t1, t2. split; [reflexivity|]. split; [reflexivity|]. split; [reflexivity|].
  split; [reflexivity|]. split; [reflexivity|]. split; [exact H1|]. split; [exact H2|exact Hle].
Defined.

Lemma refill_loop_halting_witness :
  exists p',
    readLoop 5 sampleSTRT sinkAccepts sinkAcceptsType sinkAcceptsRow noConversion 0 89
      [take 15 fmtFMT; drop 15 fmtFMT] newParser = Done GuardFalse p'
    /\ cb_progress (m_callbackObject p') = [(0, 89); (15, 89)]
    /\ map m_name (m_descriptorForDeferredStorage p') = ["FMT"%string].
Proof.
  destruct (refill_loop_halting 5 sampleSTRT sinkAccepts sinkAcceptsType sinkAcceptsRow
              noConversion) as (Hhalt & _).
  eexists. split; [vm_compute; reflexivity|]. split; [|reflexivity].
  destruct (Hhalt 0 89 [take 15 fmtFMT; drop 15 fmtFMT] newParser GuardFalse _
              ltac:(vm_compute; reflexivity))
    as (_ & _ & (passes & _ & Hcalls & _ & Hall & _) & _).
  rewrite Hcalls, (Hall eq_refl eq_refl). reflexivity.
Defined.

(** With a guard of three bytes the id and the length of an FMT record can
    lie outside the buffer: four buffered bytes pass the guard, and
    [parseFMTMessage] reads the fifth. *)
Example guard_of_three_reads_past_the_buffer :
  parse 3 sampleSTRT sinkAccepts sinkAccepts sinkAcceptsType sinkAcceptsRow noConversion
    [[xa3; x95; x80; x81]] newParser = Undefined.
Proof. vm_compute. reflexivity. Qed.

(** ** The further properties on sample streams *)


Lemma gps_time_is_not_the_row_time_witness :
  m_labels (replaceLabelName "TimeMS" "GPSTimeMS" descGPS) = ["Status"; "GPSTimeMS"; "Lat"]%string
  /\ ("TimeMS"%string ∉ m_labels (replaceLabelName "TimeMS" "GPSTimeMS" descGPS))
  /\ fmtBranch sampleSTRT sinkAccepts sinkAcceptsType descGPS newParser =
     Continue (with_descriptorForDeferredStorage
                 [replaceLabelName "TimeMS" "GPSTimeMS" descGPS] newParser).
Proof.
  assert (Hnd : NoDup (m_labels descGPS)).
  { repeat (constructor; [intros H; repeat (apply elem_of_cons in H as [H|H]; [discriminate|]);
                          by apply elem_of_nil in H|]). constructor. }
  destruct (gps_time_is_not_the_row_time sampleSTRT sinkAccepts sinkAcceptsType
              descGPS newParser eq_refl eq_refl Hnd) as (Habs & _ & _ & _ & _ & Hq).
  split; [reflexivity|]. split; [exact Habs|].
  apply Hq; [reflexivity|reflexivity|].
  intros H; repeat (apply elem_of_cons in H as [H|H]; [discriminate|]);
    by apply elem_of_nil in H.
Defined.

Lemma record_without_descriptor_is_skipped_witness :
  parseBody sampleSTRT sinkAccepts sinkAcceptsType sinkAcceptsRow noConversion
    (with_dataBlock dataTEST newParser)
  = Some (Continue
            (corruptDataRead (MsgNoDescriptor 129)
               (with_messageType 129 (with_dataPos 3 (with_dataBlock dataTEST newParser))))).
Proof.
  apply (record_without_descriptor_is_skipped sampleSTRT sinkAccepts sinkAcceptsType
           sinkAcceptsRow noConversion (with_dataBlock dataTEST newParser)
           (with_messageType 129 (with_dataPos 3 (with_dataBlock dataTEST newParser)))).
  - reflexivity.
  - vm_compute. discriminate.
  - left. reflexivity.
Defined.

Lemma record_of_empty_format_has_no_values_witness :
  isValid sampleSTRT descSTRT = true
  /\ dataBranch sinkAccepts sinkAcceptsRow noConversion descSTRT
       (with_dataPos 3 (with_dataBlock [xa3; x95; x0a] newParser))
     = Some (Continue
               (corruptDataRead MsgNoValues
                  (with_dataPos 0 (with_dataBlock [] newParser)))).
Proof.
  split; [reflexivity|].
  apply (record_of_empty_format_has_no_values sampleSTRT sinkAccepts sinkAcceptsRow
           noConversion descSTRT (with_dataPos 3 (with_dataBlock [xa3; x95; x0a] newParser))).
  - reflexivity.
  - vm_compute. discriminate.
Defined.

Lemma unknown_format_character_discards_record_witness :
  exists p',
    dataBranch sinkAccepts sinkAcceptsRow noConversion descODD
      (with_dataPos 3 (with_dataBlock [xa3; x95; x86; x01; x02] newParser))
    = Some (Continue p')
    /\ dm_rows (m_dataModel p') = []
    /\ incidents (m_logLoadingState p') =
       [CorruptData 0 (MsgUnknownDataType "x" "ODD"); CorruptData 0 MsgNoValues]
    /\ m_dataBlock p' = [].
Proof.
  destruct (unknown_format_character_discards_record sinkAccepts sinkAcceptsRow noConversion
              descODD (with_dataPos 3 (with_dataBlock [xa3; x95; x86; x01; x02] newParser))
              ["B"%char] "x"%char [] [VUInt 1] [x02])
    as (p' & Hd & Hm & _ & Hi & Hb & _).
  - vm_compute. discriminate.
  - reflexivity.
  - reflexivity.
  - reflexivity.
  - exists p'. split; [exact Hd|]. split; [by rewrite Hm|]. split; [exact Hi|exact Hb].
Defined.

Lemma message_counter_follows_the_sink_witness :
  exists p',
    parse 3 sampleSTRT sinkAccepts sinkAccepts sinkAcceptsType sinkAcceptsRow noConversion
      [streamPARM] newParser = Done GuardFalse p'
    /\ lsize (dm_types (m_dataModel p')) = 2
    /\ lsize (dm_rows (m_dataModel p')) = 1
    /\ m_MessageCounter p' - m_MessageCounter newParser =
       (lsize (dm_types (m_dataModel p')) - lsize (dm_types (m_dataModel newParser)))
       + (lsize (dm_rows (m_dataModel p')) - lsize (dm_rows (m_dataModel newParser)))
    /\ validData (m_logLoadingState p') - validData (m_logLoadingState newParser) =
       lsize (dm_rows (m_dataModel p')) - lsize (dm_rows (m_dataModel newParser)).
Proof.
  eexists. split; [vm_compute; reflexivity|]. split; [reflexivity|]. split; [reflexivity|].
  apply (message_counter_follows_the_sink 3 sampleSTRT sinkAccepts sinkAccepts
           sinkAcceptsType sinkAcceptsRow noConversion [streamPARM] newParser GuardFalse).
  vm_compute. reflexivity.
Defined.

Lemma vehicle_kind_is_detected_once_witness :
  exists p',
    parse 3 sampleSTRT sinkAccepts sinkAccepts sinkAcceptsType sinkAcceptsRow noConversion
      [streamPARM] newParser = Done GuardFalse p'
    /\ m_loadedLogType p' = MAV_TYPE_QUADROTOR
    /\ statusMavType (m_logLoadingState p') = m_loadedLogType p'.
Proof.
  eexists. split; [vm_compute; reflexivity|]. split; [reflexivity|].
  apply (vehicle_kind_is_detected_once 3 sampleSTRT sinkAccepts sinkAccepts
           sinkAcceptsType sinkAcceptsRow noConversion [streamPARM] newParser GuardFalse).
  - vm_compute. reflexivity.
  - reflexivity.
  - vm_compute. discriminate.
Defined.

Lemma time_error_count_saturates_witness :
  exists p',
    parse 3 sampleSTRT sinkAccepts sinkAccepts sinkAcceptsType sinkAcceptsRow noConversion
      [streamBackwards] newParser = Done GuardFalse p'
    /\ m_timeErrorCount p' = 1
    /\ m_timeErrorCount p' - m_timeErrorCount newParser <=
       countTime (incidents (m_logLoadingState p'))
       - countTime (incidents (m_logLoadingState newParser)).
Proof.
  eexists. split; [vm_compute; reflexivity|]. split; [reflexivity|].
  apply (time_error_count_saturates 3 sampleSTRT sinkAccepts sinkAccepts
           sinkAcceptsType sinkAcceptsRow noConversion [streamBackwards] newParser GuardFalse).
  vm_compute. reflexivity.
Defined.

Lemma active_timestamp_is_chosen_once_witness :
  exists p',
    parse 3 sampleSTRT sinkAccepts sinkAccepts sinkAcceptsType sinkAcceptsRow noConversion
      [streamPARM] newParser = Done GuardFalse p'
    /\ m_activeTimestamp p' = timeUS
    /\ (m_activeTimestamp p' = m_activeTimestamp newParser
        \/ m_activeTimestamp p' ∈ m_possibleTimestamps newParser).
Proof.
  eexists. split; [vm_compute; reflexivity|]. split; [reflexivity|].
  apply (active_timestamp_is_chosen_once 3 sampleSTRT sinkAccepts sinkAccepts
           sinkAcceptsType sinkAcceptsRow noConversion [streamPARM] newParser GuardFalse).
  vm_compute. reflexivity.
Defined.


Lemma progress_is_reported_per_block_witness :
  exists p',
    parse 3 sampleSTRT sinkAccepts sinkAccepts sinkAcceptsType sinkAcceptsRow noConversion
      [fmtPARM; fmtPING ++ dataPARM] newParser = Done GuardFalse p'
    /\ cb_progress (m_callbackObject p') = [(0, 209); (89, 209)].
Proof.
  eexists. split; [vm_compute; reflexivity|].
  destruct (progress_is_reported_per_block 3 sampleSTRT sinkAccepts sinkAccepts
              sinkAcceptsType sinkAcceptsRow noConversion [fmtPARM; fmtPING ++ dataPARM]
              newParser GuardFalse _ ltac:(vm_compute; reflexivity)) as (calls & Hp & _ & Hall).
  rewrite Hp, (Hall eq_refl eq_refl). reflexivity.
Defined.

Lemma non_message_bytes_are_bounded_witness :
  exists p',
    parse 3 sampleSTRT sinkAccepts sinkAccepts sinkAcceptsType sinkAcceptsRow noConversion
      [[xa3; x00] ++ fmtTEST] newParser = Done GuardFalse p'
    /\ noMessageBytes p' = 1
    /\ 0 <= noMessageBytes p' <= 94
    /\ statusNoMessageBytes (m_logLoadingState p') =
       if decide (noMessageBytes p' > 0) then noMessageBytes p'
       else statusNoMessageBytes (m_logLoadingState newParser).
Proof.
  eexists. split; [vm_compute; reflexivity|]. split; [reflexivity|].
  destruct (proj2 (non_message_bytes_are_bounded 3 sampleSTRT sinkAccepts sinkAccepts
                     sinkAcceptsType sinkAcceptsRow noConversion)
              [[xa3; x00] ++ fmtTEST] newParser _ (Inv_newParser _ _)
              ltac:(vm_compute; reflexivity)) as (n & _ & _ & _ & Hsmall & Hstatus).
  split; [|exact Hstatus].
  exact (proj2 (Hsmall ltac:(vm_compute; discriminate))).
Defined.

Lemma sink_types_are_the_forwarded_descriptors_witness :
  exists p',
    parse 3 sampleSTRT sinkAccepts sinkAccepts sinkAcceptsType sinkAcceptsRow noConversion
      [streamPARM] newParser = Done GuardFalse p'
    /\ sk_id <$> dm_types (m_dataModel p') = [133; 131]
    /\ NoDup (sk_id <$> dm_types (m_dataModel p')).
Proof.
  eexists. split; [vm_compute; reflexivity|]. split; [reflexivity|].
  apply (sink_types_are_the_forwarded_descriptors 3 sampleSTRT sinkAccepts sinkAccepts
           sinkAcceptsType sinkAcceptsRow noConversion [streamPARM] newParser GuardFalse _
           (Inv_newParser _ _) SinkInv_newParser Complete_newParser).
  vm_compute. reflexivity.
Defined.

Lemma rows_match_a_type_of_the_sink_witness :
  exists p' r,
    parse 3 sampleSTRT sinkAccepts sinkAccepts sinkAcceptsType sinkAcceptsRow noConversion
      [streamPARM] newParser = Done GuardFalse p'
    /\ dm_rows (m_dataModel p') = [r]
    /\ (row_values r).*1 = ["TimeUS"; "Name"; "Value"]%string
    /\ row_timeLabel r = ts_name (m_activeTimestamp p')
    /\ exists t, t ∈ dm_types (m_dataModel p')
                 /\ sk_name t = row_type r
                 /\ sk_labels t = (row_values r).*1
                 /\ length (row_values r) = String.length (sk_format t).
Proof.
  eexists _, _. split; [vm_compute; reflexivity|]. split; [reflexivity|].
  split; [reflexivity|].
  apply (rows_match_a_type_of_the_sink 3 sampleSTRT sinkAccepts sinkAccepts
           sinkAcceptsType sinkAcceptsRow noConversion [streamPARM] newParser GuardFalse).
  - apply Inv_newParser.
  - apply SinkInv_newParser.
  - apply Complete_newParser.
  - vm_compute. reflexivity.
  - apply elem_of_cons. left. reflexivity.
Defined.

Lemma rows_hold_no_NaN_witness :
  exists p' r,
    parse 3 sampleSTRT sinkAccepts sinkAccepts sinkAcceptsType sinkAcceptsRow noConversion
      [streamPARM] newParser = Done GuardFalse p'
    /\ dm_rows (m_dataModel p') = [r]
    /\ row_values r !! 2%nat = Some ("Value"%string, VFloat 1065353216)
    /\ isNaN 1065353216 = false.
Proof.
  eexists _, _. split; [vm_compute; reflexivity|]. split; [reflexivity|].
  split; [reflexivity|].
  eapply (rows_hold_no_NaN 3 sampleSTRT sinkAccepts sinkAccepts
            sinkAcceptsType sinkAcceptsRow noConversion [streamPARM] newParser GuardFalse _
            (Inv_newParser _ _) SinkInv_newParser Complete_newParser
            ltac:(vm_compute; reflexivity) _ "Value"%string).
  - apply elem_of_cons. left. reflexivity.
  - do 2 (apply elem_of_cons; right). apply elem_of_cons. left. reflexivity.
Defined.

Lemma registry_holds_valid_descriptors_witness :
  exists p' d,
    parse 3 sampleSTRT sinkAccepts sinkAccepts sinkAcceptsType sinkAcceptsRow noConversion
      [streamPARM] newParser = Done GuardFalse p'
    /\ m_typeToDescriptorMap p' !! 133 = Some d
    /\ m_name d = "PARM"%string
    /\ m_ID d = 133
    /\ m_hasTimeStamp d = true
    /\ m_timeStampIndex d = 0.
Proof.
  eexists _, _. split; [vm_compute; reflexivity|]. split; [vm_compute; reflexivity|].
  split; [reflexivity|].
  destruct (registry_holds_valid_descriptors 3 sampleSTRT sinkAccepts sinkAccepts
              sinkAcceptsType sinkAcceptsRow noConversion [streamPARM] newParser GuardFalse _
              (Inv_newParser _ _) ltac:(vm_compute; reflexivity) 133 _
              ltac:(vm_compute; reflexivity)) as (Hid & _).
  split; [exact Hid|]. split; reflexivity.
Defined.

Lemma a_run_only_adds_witness :
  exists p',
    parse 3 sampleSTRT sinkAccepts sinkAccepts sinkAcceptsType sinkAcceptsRow noConversion
      [streamBackwards] (corruptDataRead MsgNoValues newParser) = Done GuardFalse p'
    /\ incidents (m_logLoadingState p') =
       [CorruptData 0 MsgNoValues; CorruptTime 3 (MsgTimeNotIncreasing 1000000 999999)]
    /\ incidents (m_logLoadingState (corruptDataRead MsgNoValues newParser))
       `prefix_of` incidents (m_logLoadingState p')
    /\ m_lastValidTimeStamp (corruptDataRead MsgNoValues newParser)
       <= m_lastValidTimeStamp p'.
Proof.
  eexists. split; [vm_compute; reflexivity|]. split; [reflexivity|].
  destruct (a_run_only_adds 3 sampleSTRT sinkAccepts sinkAccepts
              sinkAcceptsType sinkAcceptsRow noConversion [streamBackwards]
              (corruptDataRead MsgNoValues newParser) GuardFalse _
              ltac:(vm_compute; reflexivity)) as (_ & _ & Hi & _ & Hl & _).
  split; [exact Hi|exact Hl].
Defined.

Lemma fmt_record_round_trip_witness :
  parseFMTMessage newDescriptor (with_dataPos 3 (with_dataBlock (fmtTEST ++ dataTEST) newParser))
  = Some (true, descTEST, with_dataPos 0 (with_dataBlock dataTEST newParser)).
Proof.
  assert (Hz : forall s : string,
            List.forallb (fun b => negb (Byte.eqb b x00)) (list_byte_of_string s) = true ->
            x00 ∉ list_byte_of_string s).
  { intros s Hs Hin. rewrite List.forallb_forall in Hs.
    apply list_elem_of_In in Hin. specialize (Hs _ Hin). discriminate. }
  assert (Hc : forall s : string,
            List.forallb (fun a => negb (Ascii.eqb a ",")) (list_ascii_of_string s) = true ->
            ","%char ∉ list_ascii_of_string s).
  { intros s Hs Hin. rewrite List.forallb_forall in Hs.
    apply list_elem_of_In in Hin. specialize (Hs _ Hin). discriminate. }
  apply (fmt_record_round_trip [] x81 x0c "TEST" "BQ" ["X"; "TimeUS"]%string dataTEST
           (with_dataPos 3 (with_dataBlock (fmtTEST ++ dataTEST) newParser))).
  - reflexivity.
  - reflexivity.
  - vm_compute. discriminate.
  - vm_compute. lia.
  - vm_compute. lia.
  - vm_compute. lia.
  - apply Hz. reflexivity.
  - apply Hz. reflexivity.
  - apply Hz. reflexivity.
  - discriminate.
  - repeat constructor; apply Hc; reflexivity.
Defined.

Lemma stopped_parser_reads_nothing_witness :
  exists p',
    parse 3 sampleSTRT sinkAccepts sinkAccepts sinkAcceptsType sinkAcceptsRow noConversion
      [streamPARM] (stopParsing newParser) = Done GuardFalse p'
    /\ m_stop p' = true
    /\ cb_progress (m_callbackObject p') = cb_progress (m_callbackObject newParser)
    /\ dm_types (m_dataModel p') = [].
Proof.
  eexists. split; [vm_compute; reflexivity|].
  destruct (proj1 (stopped_parser_reads_nothing 3 sampleSTRT sinkAccepts sinkAccepts
                     sinkAcceptsType sinkAcceptsRow noConversion)
              [streamPARM] newParser GuardFalse _ ltac:(vm_compute; reflexivity))
    as (Hs & Hp & _ & _ & _ & _ & _ & Ht & _).
  split; [exact Hs|]. split; [exact Hp|exact Ht].
Defined.

Lemma complete_record_gives_one_row_witness :
  exists p' r,
    dataBranch sinkAccepts sinkAcceptsRow noConversion descATT parserATTBody
      = Some (Continue p')
    /\ dm_rows (m_dataModel p') = [r]
    /\ row_type r = "ATT"%string
    /\ (row_values r).*1 = ["TimeUS"; "Roll"]%string
    /\ m_MessageCounter p' = 1
    /\ m_dataBlock p' = [].
Proof.
  assert (Hinv : Inv sampleSTRT noConversion parserATTBody).
  { split.
    - vm_compute. discriminate.
    - vm_compute. split; [discriminate|reflexivity].
    - repeat constructor.
    - intros id d Hd.
      change (({[ 130 := descATT ]} : gmap Z typeDescriptor) !! id = Some d) in Hd.
      apply lookup_singleton_Some in Hd as [<- <-].
      split; [reflexivity|]. split; [reflexivity|].
      split; [reflexivity|vm_compute; discriminate].
    - constructor.
    - split; [exact I|constructor]. }
  destruct (complete_record_gives_one_row sampleSTRT sinkAccepts sinkAcceptsRow noConversion
              130 descATT parserATTBody [VUInt 1000000; VFloat 1065353216] []
              (fun _ _ => eq_refl) Hinv)
    as (p' & r & Hd & Hrows & _ & Hname & _ & Hvals & Hcount & _ & _ & Hblock).
  - reflexivity.
  - vm_compute. discriminate.
  - discriminate.
  - vm_compute. discriminate.
  - reflexivity.
  - exists p', r. split; [exact Hd|]. split; [exact Hrows|]. split; [exact Hname|].
    split; [exact (proj1 Hvals)|]. split; [exact Hcount|exact Hblock].
Defined.

Lemma bytes_without_start_byte_are_skipped_one_by_one_witness :
  recordLoop 3 sampleSTRT sinkAccepts sinkAcceptsType sinkAcceptsRow noConversion (3 + 2)
    (with_dataBlock ([x00; x00; x00] ++ fmtTEST) newParser)
  = recordLoop 3 sampleSTRT sinkAccepts sinkAcceptsType sinkAcceptsRow noConversion 2
      (Nat.iter 3 skipByte (with_dataBlock ([x00; x00; x00] ++ fmtTEST) newParser))
  /\ noMessageBytes
       (Nat.iter 3 skipByte (with_dataBlock ([x00; x00; x00] ++ fmtTEST) newParser)) = 3.
Proof.
  destruct (bytes_without_start_byte_are_skipped_one_by_one 3 sampleSTRT sinkAccepts
              sinkAcceptsType sinkAcceptsRow noConversion 3 2
              (with_dataBlock ([x00; x00; x00] ++ fmtTEST) newParser))
    as (Hrec & _ & _ & Hn & _).
  - vm_compute. discriminate.
  - reflexivity.
  - vm_compute. discriminate.
  - intros i Hi. exists x00. split; [|vm_compute; discriminate].
    destruct i as [|[|[|i]]]; [reflexivity..|lia].
  - split; [exact Hrec|]. apply Hn; vm_compute; discriminate.
Defined.

Lemma without_a_timestamp_nothing_reaches_the_sink_witness :
  exists p',
    parse 3 sampleSTRT sinkAccepts sinkAccepts sinkAcceptsType sinkAcceptsRow noConversion
      [fmtPING ++ [xa3; x95; x83; x07]] newParser = Done GuardFalse p'
    /\ map m_name (m_descriptorForDeferredStorage p') = ["PING"%string]
    /\ incidents (m_logLoadingState p') = [CorruptData 0 (MsgNoDescriptor 131)]
    /\ dm_types (m_dataModel p') = []
    /\ dm_rows (m_dataModel p') = [].
Proof.
  eexists. split; [vm_compute; reflexivity|]. split; [reflexivity|]. split; [reflexivity|].
  destruct (without_a_timestamp_nothing_reaches_the_sink 3 sampleSTRT sinkAccepts sinkAccepts
              sinkAcceptsType sinkAcceptsRow noConversion [fmtPING ++ [xa3; x95; x83; x07]]
              newParser GuardFalse _ (Inv_newParser _ _) SinkInv_newParser Complete_newParser
              ltac:(vm_compute; reflexivity) eq_refl) as (_ & Ht & Hr & _).
  split; [exact Ht|exact Hr].
Defined.
